(** * Dialog generator: template resolution and schema expansion

    A shallow embedding of [packages/dialog/src/library/dialogGenerator.ts]
    and the properties its specification states about it.

    Layout of the development:
    - JavaScript string helpers used by the generator;
    - the data model (feedback, file references, tracker, scope, JSON trees);
    - [Platform]: the collaborators the generator reaches through imports
      (Node's [path] and [fs-extra], the LG parser and evaluator, the
      expression engine), kept abstract;
    - the generator's functions, in source order;
    - a small concrete platform used to run the generator on examples;
    - the theorems.

    Conventions of the embedding:
    - the [feedback] callback is the list of the calls made to it;
    - [async] functions run to completion one after the other, so an
      [await] is a plain call;
    - a function that can throw returns in [Outcome] or runs in the monad
      [M], whose results are a value, an exception with its message, or
      [Diverge] when the fuel of a recursion is used up;
    - the scope is one mutable object shared by all calls: it is part of the
      state, together with the file system, the working directory and the
      feedback received so far;
    - a plain object used as a map is the finite map of its own properties;
      the names it inherits from [Object.prototype] are [inherited_keys],
      and they count where the generator reads the tracker by a computed
      name or assigns a computed name to a fresh object;
    - [$templates] and [$entities] are lists of strings when present, and
      the results of [evaluateTemplate] are strings, lists of strings or
      [undefined], which are the types the source casts them to. *)

From stdpp Require Import gmap strings list pretty.
From Stdlib Require Import Ascii ZArith Lia.

Set Warnings "-register-all".


(** ** JavaScript string helpers *)

(** [s.startsWith(p)]. *)
Definition startsWith (p s : string) : bool := String.prefix p s.

(** [s.substring(start, end)]: both indices are clamped to [0, length] and
    swapped when [start > end]. *)
Definition js_substring (s : string) (start stop : Z) : string :=
  let len := Z.of_nat (String.length s) in
  let clamp i := Z.max 0 (Z.min i len) in
  let a := clamp start in
  let b := clamp stop in
  let lo := Z.min a b in
  let hi := Z.max a b in
  String.substring (Z.to_nat lo) (Z.to_nat (hi - lo)) s.

(** [s.substring(1)]. *)
Definition substring1 (s : string) : string :=
  js_substring s 1 (Z.of_nat (String.length s)).

(** [hay.includes(needle)]. *)
Fixpoint includes (needle hay : string) : bool :=
  String.prefix needle hay ||
  match hay with
  | EmptyString => false
  | String _ rest => includes needle rest
  end.

(** [s.split(':')]. *)
Fixpoint split_colon_aux (cur : string) (s : string) : list string :=
  match s with
  | EmptyString => [cur]
  | String c rest =>
      if Ascii.eqb c ":"%char then cur :: split_colon_aux "" rest
      else split_colon_aux (cur +:+ String c "") rest
  end.

Definition split_colon (s : string) : list string := split_colon_aux "" s.

(** The longest prefix without a dot, and what follows it. *)
Fixpoint span_nodot (s : string) : string * string :=
  match s with
  | EmptyString => ("", "")
  | String c rest =>
      if Ascii.eqb c "."%char then ("", s)
      else let '(seg, tl) := span_nodot rest in (String c seg, tl)
  end.

(** [s.replace(/\.[^.]+\.lg/, '.lg')]: the leftmost dot that is followed by
    a non-empty run of non-dot characters and then [.lg] is collapsed
    together with that run. *)
Fixpoint replace_locale (s : string) : string :=
  match s with
  | EmptyString => ""
  | String c rest =>
      if Ascii.eqb c "."%char then
        let '(seg, tl) := span_nodot rest in
        if negb (String.eqb seg "") && String.prefix ".lg" tl
        then tl
        else String c (replace_locale rest)
      else String c (replace_locale rest)
  end.

(** [l.join('\n')]. *)
Definition newline : string := String (Ascii.ascii_of_nat 10) "".
Definition join_lines (l : list string) : string := String.concat newline l.

(** The characters of a string, as iterating over it with [for ... of]
    yields them. *)
Fixpoint chars (s : string) : list string :=
  match s with
  | EmptyString => []
  | String c rest => String c "" :: chars rest
  end.

(** ** Data model *)

Inductive FeedbackType := message | info | warning | error.

(** The feedback callback is modelled by the list of calls it received,
    oldest first. *)
Definition Log := list (FeedbackType * string).

Definition feedback (t : FeedbackType) (msg : string) (log : Log) : Log :=
  log ++ [(t, msg)].

(** A computation that returns a value or throws an [Error] with a message. *)
Inductive Outcome (A : Type) :=
| Val (a : A)
| Raise (msg : string).
Arguments Val {A} a.
Arguments Raise {A} msg.

Record FileRef := {
  name : string;
  fallbackName : string;
  fullName : string;
  relative : string
}.

(** [scope.templates]: extension to the list of claimed files. The map holds
    the own properties of the object, which [processTemplates] creates as
    [{}]. *)
Abbreviation Tracker := (gmap string (list FileRef)).

(** The property names that every plain object inherits from
    [Object.prototype]. Reading one of them off an object that has no own
    property of that name gives a function ([Object.prototype] itself for
    [__proto__]), not [undefined]. *)
Definition inherited_keys : list string :=
  ["constructor"; "__defineGetter__"; "__defineSetter__"; "hasOwnProperty";
   "__lookupGetter__"; "__lookupSetter__"; "isPrototypeOf"; "propertyIsEnumerable";
   "toString"; "valueOf"; "__proto__"; "toLocaleString"].

Definition inherited (key : string) : bool := bool_decide (key ∈ inherited_keys).

(** JSON-like trees. An object is the list of its entries in enumeration
    order. [JNull] also stands for [undefined] where a library hands one
    back. *)
Inductive Json :=
| JNull
| JBool (b : bool)
| JNum (n : Z)
| JStr (s : string)
| JArr (items : list Json)
| JObj (entries : list (string * Json)).

(** JavaScript truthiness. *)
Definition truthy (v : Json) : bool :=
  match v with
  | JNull => false
  | JBool b => b
  | JNum n => negb (n =? 0)%Z
  | JStr s => negb (String.eqb s "")
  | JArr _ | JObj _ => true
  end.

(** What [evaluateTemplate] hands back, at the shapes the generator casts
    its results to. *)
Inductive LGResult :=
| RString (s : string)
| RArray (l : list string)
| RUndefined.

(** The part of a property's schema that template processing reads and
    writes: [$templates] and [$entities] ([None] when the key is absent),
    and the type name [typeName()] reports for it. *)
Record PropertySchema := {
  prop_type : string;
  prop_templates : option (list string);
  prop_entities : option (list string)
}.

(** Modelled from the spec: the [Schema] class of [./schema] is not part of
    the sources at hand. [schemaProperties()] enumerates the entries of
    [schema.properties] in declaration order, each carrying its [path] and
    the very schema object stored under that path, so that a [$entities]
    list attached during template processing is seen by the orchestrator;
    [entityTypes()] is the list kept in [schema_entityTypes]. *)
Record Schema := {
  schema_properties : list (string * PropertySchema);
  schema_templates : option (list string);
  schema_entityTypes : list string
}.

Record Scope := {
  scope_locales : list string;
  scope_prefix : string;
  scope_schema : Schema;
  scope_properties : list string;
  scope_triggerIntent : string;
  scope_appSchema : string;
  scope_templates : Tracker;
  scope_locale : string;
  scope_property : string;
  scope_type : string;
  scope_role : option string;
  scope_entities : option (list string)
}.

(** One section of a parsed LG file. *)
Record LGTemplate := {
  lg_name : string;
  lg_source : string
}.

(** What is handed to [fs.writeFile]. *)
Inductive Data (LGFile : Type) :=
| DText (s : string)
| DObject (f : LGFile)
| DUndefined.
Arguments DText {LGFile} s.
Arguments DObject {LGFile} f.
Arguments DUndefined {LGFile}.

(** ** The collaborators

    Everything the generator imports from outside the repository: Node's
    [path] and [process], [fs-extra], the LG library and the expression
    engine. File-system operations receive the current working directory,
    against which relative paths are resolved. *)
Class Platform := {
  (* path *)
  path_join : string -> string -> string;
  path_basename : string -> string;
  path_basename_ext : string -> string -> string;
  path_extname : string -> string;
  path_dirname : string -> string;
  path_relative : string -> string -> string;
  (* LG *)
  LGFile : Type;
  lg_templates : LGFile -> list LGTemplate;
  (* fs-extra and process *)
  FS : Type;
  fs_pathExists : FS -> string -> string -> bool;
  fs_readFile : FS -> string -> string -> Outcome string;
  fs_ensureDir : FS -> string -> string -> Outcome FS;
  fs_writeFile : FS -> string -> string -> Data LGFile -> Outcome FS;
  process_chdir : FS -> string -> string -> Outcome string;
  lg_parseFile : FS -> string -> string -> Outcome LGFile;
  lg_evaluateTemplate : LGFile -> string -> FS -> string -> Scope -> Outcome LGResult;
  (* expression engine *)
  Expression : Type;
  expr_parse : string -> Outcome Expression;
  expr_tryEvaluate : Expression -> Scope -> Outcome (Json * option string);
  (* JSON.stringify(tree, null, 4) *)
  json_stringify : Json -> string
}.

(** The state the generator runs in and changes. The scope is one object
    shared by every call. *)
Record State `{P : Platform} := {
  st_fs : FS;
  st_cwd : string;
  st_log : Log;
  st_scope : Scope
}.

(** ** A monad for effects: state, exceptions, and running out of fuel *)

Inductive Res (S A : Type) :=
| Ret (a : A) (s : S)
| Exn (msg : string) (s : S)
| Diverge.
Arguments Ret {S A} a s.
Arguments Exn {S A} msg s.
Arguments Diverge {S A}.

Definition M (S A : Type) : Type := S -> Res S A.

Definition ret {S A} (a : A) : M S A := fun s => Ret a s.

Definition bind {S A B} (m : M S A) (k : A -> M S B) : M S B :=
  fun s =>
    match m s with
    | Ret a s' => k a s'
    | Exn e s' => Exn e s'
    | Diverge => Diverge
    end.

Definition throw {S A} (msg : string) : M S A := fun s => Exn msg s.

Definition get {S} : M S S := fun s => Ret s s.

Definition modify {S} (f : S -> S) : M S unit := fun s => Ret tt (f s).

(** [try { m } catch (e) { h e.message }]. *)
Definition tryCatch {S A} (m : M S A) (h : string -> M S A) : M S A :=
  fun s =>
    match m s with
    | Exn e s' => h e s'
    | r => r
    end.

(** [try { m } finally { f }], for a [finally] block that completes
    normally. *)
Definition tryFinally {S A} (m : M S A) (f : S -> S) : M S A :=
  fun s =>
    match m s with
    | Ret a s' => Ret a (f s')
    | Exn e s' => Exn e (f s')
    | Diverge => Diverge
    end.

(** Running a library call that may throw. *)
Definition liftOutcome {S A} (o : Outcome A) : M S A :=
  match o with
  | Val a => ret a
  | Raise msg => throw msg
  end.

Notation "'let*' x := m 'in' k" := (bind m (fun x => k))
  (at level 10, x name, m at level 100, k at level 200).
Notation "m >> k" := (bind m (fun _ => k))
  (at level 100, k at level 200, right associativity).

(** [for (let x of l) { f x }]. *)
Fixpoint forEach {S A} (l : list A) (f : A -> M S unit) : M S unit :=
  match l with
  | [] => ret tt
  | x :: rest => f x >> forEach rest f
  end.

(** ** Record updates *)

Definition set_scope_templates (t : Tracker) (sc : Scope) : Scope :=
  {| scope_locales := scope_locales sc; scope_prefix := scope_prefix sc;
     scope_schema := scope_schema sc; scope_properties := scope_properties sc;
     scope_triggerIntent := scope_triggerIntent sc;
     scope_appSchema := scope_appSchema sc; scope_templates := t;
     scope_locale := scope_locale sc; scope_property := scope_property sc;
     scope_type := scope_type sc; scope_role := scope_role sc;
     scope_entities := scope_entities sc |}.

Definition set_scope_schema (x : Schema) (sc : Scope) : Scope :=
  {| scope_locales := scope_locales sc; scope_prefix := scope_prefix sc;
     scope_schema := x; scope_properties := scope_properties sc;
     scope_triggerIntent := scope_triggerIntent sc;
     scope_appSchema := scope_appSchema sc;
     scope_templates := scope_templates sc;
     scope_locale := scope_locale sc; scope_property := scope_property sc;
     scope_type := scope_type sc; scope_role := scope_role sc;
     scope_entities := scope_entities sc |}.

Definition set_scope_locale (x : string) (sc : Scope) : Scope :=
  {| scope_locales := scope_locales sc; scope_prefix := scope_prefix sc;
     scope_schema := scope_schema sc; scope_properties := scope_properties sc;
     scope_triggerIntent := scope_triggerIntent sc;
     scope_appSchema := scope_appSchema sc;
     scope_templates := scope_templates sc;
     scope_locale := x; scope_property := scope_property sc;
     scope_type := scope_type sc; scope_role := scope_role sc;
     scope_entities := scope_entities sc |}.

Definition set_scope_property (x : string) (sc : Scope) : Scope :=
  {| scope_locales := scope_locales sc; scope_prefix := scope_prefix sc;
     scope_schema := scope_schema sc; scope_properties := scope_properties sc;
     scope_triggerIntent := scope_triggerIntent sc;
     scope_appSchema := scope_appSchema sc;
     scope_templates := scope_templates sc;
     scope_locale := scope_locale sc; scope_property := x;
     scope_type := scope_type sc; scope_role := scope_role sc;
     scope_entities := scope_entities sc |}.

Definition set_scope_type (x : string) (sc : Scope) : Scope :=
  {| scope_locales := scope_locales sc; scope_prefix := scope_prefix sc;
     scope_schema := scope_schema sc; scope_properties := scope_properties sc;
     scope_triggerIntent := scope_triggerIntent sc;
     scope_appSchema := scope_appSchema sc;
     scope_templates := scope_templates sc;
     scope_locale := scope_locale sc; scope_property := scope_property sc;
     scope_type := x; scope_role := scope_role sc;
     scope_entities := scope_entities sc |}.

Definition set_scope_role (x : option string) (sc : Scope) : Scope :=
  {| scope_locales := scope_locales sc; scope_prefix := scope_prefix sc;
     scope_schema := scope_schema sc; scope_properties := scope_properties sc;
     scope_triggerIntent := scope_triggerIntent sc;
     scope_appSchema := scope_appSchema sc;
     scope_templates := scope_templates sc;
     scope_locale := scope_locale sc; scope_property := scope_property sc;
     scope_type := scope_type sc; scope_role := x;
     scope_entities := scope_entities sc |}.

Definition set_scope_entities (x : option (list string)) (sc : Scope) : Scope :=
  {| scope_locales := scope_locales sc; scope_prefix := scope_prefix sc;
     scope_schema := scope_schema sc; scope_properties := scope_properties sc;
     scope_triggerIntent := scope_triggerIntent sc;
     scope_appSchema := scope_appSchema sc;
     scope_templates := scope_templates sc;
     scope_locale := scope_locale sc; scope_property := scope_property sc;
     scope_type := scope_type sc; scope_role := scope_role sc;
     scope_entities := x |}.

(** [schema.properties[path]]. *)
Definition lookup_property (path : string) (s : Schema) : option PropertySchema :=
  snd <$> List.find (fun kv => String.eqb (fst kv) path) (schema_properties s).

(** [schema.properties[path].$entities = entities]. *)
Definition attach_entities (path : string) (entities : list string) (s : Schema) : Schema :=
  {| schema_properties :=
       map (fun kv : string * PropertySchema =>
              if String.eqb (fst kv) path
              then (fst kv, {| prop_type := prop_type (snd kv);
                               prop_templates := prop_templates (snd kv);
                               prop_entities := Some entities |})
              else kv)
           (schema_properties s);
     schema_templates := schema_templates s;
     schema_entityTypes := schema_entityTypes s |}.

(** ** The generator *)

Section Generator.
Context `{P : Platform}.

Definition set_fs (x : FS) (st : State) : State :=
  {| st_fs := x; st_cwd := st_cwd st; st_log := st_log st; st_scope := st_scope st |}.
Definition set_cwd (x : string) (st : State) : State :=
  {| st_fs := st_fs st; st_cwd := x; st_log := st_log st; st_scope := st_scope st |}.
Definition set_log (x : Log) (st : State) : State :=
  {| st_fs := st_fs st; st_cwd := st_cwd st; st_log := x; st_scope := st_scope st |}.
Definition set_scope (x : Scope) (st : State) : State :=
  {| st_fs := st_fs st; st_cwd := st_cwd st; st_log := st_log st; st_scope := x |}.

(** [feedback(type, message)]. *)
Definition say (t : FeedbackType) (msg : string) : M State unit :=
  modify (fun st => set_log (feedback t msg (st_log st)) st).

Definition update_scope (f : Scope -> Scope) : M State unit :=
  modify (fun st => set_scope (f (st_scope st)) st).

Definition templatePath (name dir : string) : string := path_join dir name.

(** The exported [writeFile(path, val, force, feedback)]. *)
Definition writeFile (path : string) (val : Data LGFile) (force : bool) : M State unit :=
  tryCatch
    (let* st := get in
     if force || negb (fs_pathExists (st_fs st) (st_cwd st) path) then
       say info ("Generating " +:+ path) >>
       let dir := path_dirname path in
       let* fs1 := liftOutcome (fs_ensureDir (st_fs st) (st_cwd st) dir) in
       modify (set_fs fs1) >>
       let* fs2 := liftOutcome (fs_writeFile fs1 (st_cwd st) path val) in
       modify (set_fs fs2)
     else
       say warning ("Skipping already existing " +:+ path))
    (fun e => say error e).

(** [type Template = lg.LGFile | string | undefined]; [undefined] is [None]. *)
Inductive Template :=
| TText (s : string)
| TLG (f : LGFile).

(** [if (template)]. *)
Definition template_truthy (t : Template) : bool :=
  match t with
  | TText s => negb (String.eqb s "")
  | TLG _ => true
  end.

(** [template.templates.some(f => f.name === section)]. *)
Definition has_section (f : LGFile) (section : string) : bool :=
  existsb (fun t => String.eqb (lg_name t) section) (lg_templates f).

(** One round of the loop of [findTemplate], for directory [dir]. *)
Definition findTemplate_step (name : string) (fs : FS) (cwd : string)
    (template : option Template) (dir : string) : Outcome (option Template) :=
  let loc := templatePath name dir in
  if fs_pathExists fs cwd loc then
    match fs_readFile fs cwd loc with
    | Val s => Val (Some (TText s))
    | Raise e => Raise e
    end
  else
    let loc := templatePath (name +:+ ".lg") dir in
    if fs_pathExists fs cwd loc then
      match lg_parseFile fs cwd loc with
      | Val f => Val (Some (TLG f))
      | Raise e => Raise e
      end
    else Val template.

Fixpoint findTemplate_from (name : string) (fs : FS) (cwd : string)
    (template : option Template) (templateDirs : list string) : Outcome (option Template) :=
  match templateDirs with
  | [] => Val template
  | dir :: rest =>
      match findTemplate_step name fs cwd template dir with
      | Val template' => findTemplate_from name fs cwd template' rest
      | Raise e => Raise e
      end
  end.

Definition findTemplate (name : string) (templateDirs : list string)
    (fs : FS) (cwd : string) : Outcome (option Template) :=
  findTemplate_from name fs cwd None templateDirs.

Definition addPrefix (prefix name : string) : string := prefix +:+ "-" +:+ name.

(** [addEntry]: reading [find] off a missing array throws, and so does
    calling the [find] that an inherited property does not have. *)
Definition addEntry (fullPath outDir : string) (tracker : Tracker) : Outcome (option FileRef) :=
  let basename := path_basename_ext fullPath ".dialog" in
  let ext := substring1 (path_extname fullPath) in
  match tracker !! ext with
  | None =>
      if inherited ext
      then Raise "arr.find is not a function"
      else Raise "Cannot read property 'find' of undefined"
  | Some arr =>
      match List.find (fun ref => String.eqb (name ref) basename) arr with
      | Some _ => Val None
      | None =>
          Val (Some {| name := basename;
                       fallbackName := replace_locale basename;
                       fullName := path_basename fullPath;
                       relative := path_relative outDir fullPath |})
      end
  end.

(** [existingRef]: the tracker comes back with an empty array stored for an
    extension seen for the first time. For an extension that names an
    inherited property, [tracker[ext]] is truthy and has no [find]: nothing
    is stored and the call throws. *)
Definition existingRef (name : string) (tracker : Tracker)
    : Outcome (option FileRef * Tracker) :=
  let ext := substring1 (path_extname name) in
  match tracker !! ext with
  | Some arr => Val (List.find (fun ref => String.eqb (fullName ref) name) arr, tracker)
  | None =>
      if inherited ext
      then Raise "arr.find is not a function"
      else Val (None, <[ext := []]> tracker)
  end.

(** The local variable [outPath] of a running [processTemplate], next to
    the state. It keeps the value assigned before an exception. *)
Record Frame := {
  fr_state : State;
  fr_outPath : string
}.

(** A computation on the state, run inside a call of [processTemplate]. *)
Definition onState {A} (m : M State A) : M Frame A :=
  fun fr =>
    match m (fr_state fr) with
    | Ret a st => Ret a {| fr_state := st; fr_outPath := fr_outPath fr |}
    | Exn e st => Exn e {| fr_state := st; fr_outPath := fr_outPath fr |}
    | Diverge => Diverge
    end.

Definition setOutPath (p : string) : M Frame unit :=
  modify (fun fr => {| fr_state := fr_state fr; fr_outPath := p |}).

(** [template.evaluateTemplate(section, scope)], in the current directory. *)
Definition evaluateTemplate (f : LGFile) (section : string) : M State LGResult :=
  let* st := get in
  liftOutcome (lg_evaluateTemplate f section (st_fs st) (st_cwd st) (st_scope st)).

(** [process.chdir(dir)]. *)
Definition chdir (dir : string) : M State unit :=
  let* st := get in
  let* cwd := liftOutcome (process_chdir (st_fs st) (st_cwd st) dir) in
  modify (set_cwd cwd).

(** [findTemplate] on the current file system. *)
Definition findTemplateM (name : string) (templateDirs : list string) : M State (option Template) :=
  let* st := get in
  liftOutcome (findTemplate name templateDirs (st_fs st) (st_cwd st)).

(** [scope.templates[ext].push(ref)]. *)
Definition pushRef (ext : string) (ref : FileRef) : M State unit :=
  let* st := get in
  match scope_templates (st_scope st) !! ext with
  | Some arr => update_scope (set_scope_templates (<[ext := arr ++ [ref]]> (scope_templates (st_scope st))))
  | None =>
      if inherited ext
      then throw "scope.templates[ppath.extname(...).substring(...)].push is not a function"
      else throw "Cannot read property 'push' of undefined"
  end.

(** Lines 128-134: the name of the output file, relative to [outDir]. *)
Definition processTemplate_filename (template : Template) (templateName : string)
    : M State string :=
  let* st := get in
  let scope := st_scope st in
  let filename := addPrefix (scope_prefix scope) templateName in
  let by_locale :=
    if includes (scope_locale scope) filename
    then (* Move constant files into locale specific directories *)
      scope_locale scope +:+ "/" +:+ filename
    else filename in
  match template with
  | TLG f =>
      if has_section f "filename" then
        let* r := evaluateTemplate f "filename" in
        match r with
        | RString s => ret s
        | _ => throw "The path argument must be of type string"
        end
      else ret by_locale
  | TText _ => ret by_locale
  end.

(** Lines 142-149: the body of the generated file. *)
Definition processTemplate_result (template : Template) : M State (Data LGFile) :=
  match template with
  | TText s => ret (DText s)
  | TLG f =>
      let* source :=
        match lg_templates f with
        | t :: _ => ret (lg_source t)
        | [] => throw "Cannot read property 'source' of undefined"
        end in
      chdir (path_dirname source) >>
      let* r := evaluateTemplate f "template" in
      ret (match r with
           | RArray l => DText (join_lines l)
           | RString s => DText s
           | RUndefined => DUndefined
           end)
  end.

(** Lines 127-165: the output file of a constant file or of an [.lg] file
    with a [template] section. *)
Definition processTemplate_output (template : Template) (templateName : string)
    (templateDirs : list string) (outDir : string) (force : bool) : M Frame unit :=
  let* filename := onState (processTemplate_filename template templateName) in
  let outPath := path_join outDir filename in
  setOutPath outPath >>
  let* st := onState get in
  let* ref := liftOutcome (addEntry outPath outDir (scope_templates (st_scope st))) in
  match ref with
  | Some ref =>
      (* This is a new file *)
      if force || negb (fs_pathExists (st_fs st) (st_cwd st) outPath) then
        onState (say info ("Generating " +:+ outPath)) >>
        let* result := onState (processTemplate_result template) in
        (* See if generated file has been overridden in templates *)
        let* existing := onState (findTemplateM filename templateDirs) in
        let result :=
          match existing with
          | Some (TText s) => if String.eqb s "" then result else DText s
          | Some (TLG g) => DObject g
          | None => result
          end in
        let dir := path_dirname outPath in
        let* st := onState get in
        let* fs1 := liftOutcome (fs_ensureDir (st_fs st) (st_cwd st) dir) in
        onState (modify (set_fs fs1)) >>
        let* fs2 := liftOutcome (fs_writeFile fs1 (st_cwd st) outPath result) in
        onState (modify (set_fs fs2)) >>
        onState (pushRef (substring1 (path_extname outPath)) ref)
      else
        onState (say warning ("Skipping already existing " +:+ outPath))
  | None => ret tt
  end.

(** Lines 169-174: the [entities] section of an [.lg] file. A non-empty
    string handed back by the section is kept as the list of its characters,
    which is what reading it with [for ... of] yields. The property at hand
    is looked up among the own properties of [schema.properties], where the
    paths that [schemaProperties()] enumerates come from. *)
Definition processTemplate_entities (f : LGFile) : M State unit :=
  if has_section f "entities" then
    let* st := get in
    let scope := st_scope st in
    match lookup_property (scope_property scope) (scope_schema scope) with
    | None => throw "Cannot read property '$entities' of undefined"
    | Some prop =>
        match prop_entities prop with
        | Some _ => ret tt
        | None =>
            let* r := evaluateTemplate f "entities" in
            let attach l :=
              update_scope (fun sc =>
                set_scope_schema (attach_entities (scope_property sc) l (scope_schema sc)) sc) in
            match r with
            | RArray l => attach l
            | RString s => if String.eqb s "" then ret tt else attach (chars s)
            | RUndefined => ret tt
            end
        end
    end
  else ret tt.

(** Lines 175-180: the [templates] section of an [.lg] file; [self] is
    [processTemplate]. *)
Definition processTemplate_templates
    (self : string -> list string -> string -> bool -> bool -> M State string)
    (f : LGFile) (templateDirs : list string) (outDir : string) (force : bool) : M State unit :=
  if has_section f "templates" then
    let* r := evaluateTemplate f "templates" in
    let* generated :=
      match r with
      | RArray l => ret l
      | RString s => ret (chars s)
      | RUndefined => throw "generated is not iterable"
      end in
    forEach generated (fun generate =>
      self generate templateDirs outDir force false >> ret tt)
  else ret tt.

(** The [try] block of [processTemplate]. *)
Definition processTemplate_try
    (self : string -> list string -> string -> bool -> bool -> M State string)
    (templateName : string) (templateDirs : list string) (outDir : string)
    (force ignorable : bool) : M Frame unit :=
  let* st := onState get in
  let* found := liftOutcome (existingRef templateName (scope_templates (st_scope st))) in
  onState (update_scope (set_scope_templates (snd found))) >>
  match fst found with
  | Some ref =>
      (* Simple file already existed *)
      setOutPath (path_join outDir (relative ref))
  | None =>
      let* template := onState (findTemplateM templateName templateDirs) in
      match template with
      | Some template =>
          (* Ignore templates that are defined, but are empty *)
          if template_truthy template then
            (match template with
             | TText _ => processTemplate_output template templateName templateDirs outDir force
             | TLG f =>
                 if has_section f "template"
                 then processTemplate_output template templateName templateDirs outDir force
                 else ret tt
             end) >>
            match template with
            | TLG f =>
                onState (processTemplate_entities f) >>
                onState (processTemplate_templates self f templateDirs outDir force)
            | TText _ => ret tt
            end
          else ret tt
      | None =>
          if negb ignorable
          then onState (say error ("Missing template " +:+ templateName))
          else ret tt
      end
  end.

(** [try { ... } catch (e) { feedback(error, e.message) } finally
    { process.chdir(oldDir) } return outPath]. [oldDir] is the directory
    the call started in; going back to it is taken to succeed. *)
Definition processTemplate_call
    (self : string -> list string -> string -> bool -> bool -> M State string)
    (templateName : string) (templateDirs : list string) (outDir : string)
    (force ignorable : bool) : M State string :=
  fun st =>
    let oldDir := st_cwd st in
    let restore fr := {| fr_state := set_cwd oldDir (fr_state fr); fr_outPath := fr_outPath fr |} in
    match
      tryFinally
        (tryCatch
           (processTemplate_try self templateName templateDirs outDir force ignorable)
           (fun e => onState (say error e)))
        restore
        {| fr_state := st; fr_outPath := "" |}
    with
    | Ret _ fr => Ret (fr_outPath fr) (fr_state fr)
    | Exn e fr => Exn e (fr_state fr)
    | Diverge => Diverge
    end.

(** [processTemplate]; [fuel] bounds the depth of the recursion through
    [templates] sections. *)
Fixpoint processTemplate (fuel : nat) (templateName : string) (templateDirs : list string)
    (outDir : string) (force ignorable : bool) : M State string :=
  match fuel with
  | O => fun _ => Diverge
  | S fuel' =>
      processTemplate_call (processTemplate fuel') templateName templateDirs outDir force ignorable
  end.

(** [property.schema]: the object stored in [scope.schema.properties] under
    [path]; [prop0] is its content when the enumeration started. *)
Definition property_schema (path : string) (prop0 : PropertySchema) (st : State)
    : PropertySchema :=
  default prop0 (lookup_property path (scope_schema (st_scope st))).

(** Lines 207-215 of [processTemplates]: the templates of one property. *)
Definition processTemplates_templates
    (self : string -> list string -> string -> bool -> bool -> M State string)
    (templateDirs : list string) (outDir : string) (force : bool)
    (path : string) (prop0 : PropertySchema) : M State unit :=
  let* st := get in
  let prop := property_schema path prop0 st in
  update_scope (set_scope_property path) >>
  update_scope (set_scope_type (prop_type prop)) >>
  let templates :=
    match prop_templates prop with
    | Some templates => templates
    | None => [prop_type prop]
    end in
  forEach templates (fun template =>
    self template templateDirs outDir force false >> ret tt).

(** Lines 223-226: the name of the template for [entityName], an entity
    named after the property standing for the type of the property. *)
Definition entityTemplate (entityName : string) (scope : Scope) : string :=
  let entityName :=
    if String.eqb entityName (scope_property scope +:+ "Entity")
    then scope_type scope
    else entityName in
  entityName +:+ "Entity-" +:+ scope_type scope.

(** Lines 220-227: the entity templates of one property. *)
Definition processTemplates_entityTemplates
    (self : string -> list string -> string -> bool -> bool -> M State string)
    (templateDirs : list string) (outDir : string) (force : bool)
    (entities : list string) : M State unit :=
  forEach entities (fun entity =>
    let parts := split_colon entity in
    let entityName := hd "" parts in
    let role := parts !! 1 in
    update_scope (set_scope_role role) >>
    let* st := get in
    self (entityTemplate entityName (st_scope st))
         templateDirs outDir force false >> ret tt).

(** Lines 216-228: the entities of one property, read once its templates
    have been processed. *)
Definition processTemplates_entities
    (self : string -> list string -> string -> bool -> bool -> M State string)
    (templateDirs : list string) (outDir : string) (force : bool)
    (path : string) (prop0 : PropertySchema) : M State unit :=
  let* st := get in
  let prop := property_schema path prop0 st in
  match prop_entities prop with
  | None =>
      say error (path +:+ " does not have $entities defined in schema or template.")
  | Some entities =>
      match prop_templates prop with
      | Some _ => ret tt
      | None => processTemplates_entityTemplates self templateDirs outDir force entities
      end
  end.

(** The body of the loop over [schema.schemaProperties()]. *)
Definition processTemplates_property
    (self : string -> list string -> string -> bool -> bool -> M State string)
    (templateDirs : list string) (outDir : string) (force : bool)
    (path : string) (prop0 : PropertySchema) : M State unit :=
  processTemplates_templates self templateDirs outDir force path prop0 >>
  processTemplates_entities self templateDirs outDir force path prop0.

(** Lines 205-237: the body of the loop over [locales]. The [schema]
    argument of the source is the object whose tree is [scope.schema]; it is
    read from the scope here. *)
Definition processTemplates_locale (fuel : nat) (templateDirs : list string)
    (outDir : string) (force : bool) (locale : string) : M State unit :=
  update_scope (set_scope_locale locale) >>
  let* st := get in
  forEach (schema_properties (scope_schema (st_scope st))) (fun property =>
    processTemplates_property (processTemplate fuel) templateDirs outDir force
      (fst property) (snd property)) >>
  (* Process templates found at the top *)
  let* st := get in
  let schema := scope_schema (st_scope st) in
  match schema_templates schema with
  | Some templates =>
      update_scope (set_scope_entities (Some (schema_entityTypes schema))) >>
      forEach templates (fun templateName =>
        processTemplate fuel templateName templateDirs outDir force false >> ret tt)
  | None => ret tt
  end.

(** [processTemplates]. *)
Definition processTemplates (fuel : nat) (templateDirs locales : list string)
    (outDir : string) (force : bool) : M State unit :=
  update_scope (set_scope_templates ∅) >>
  forEach locales (processTemplates_locale fuel templateDirs outDir force).

(** [newSchema[key] = newVal] on an own property of an object given by its
    entries. *)
Fixpoint obj_assign (key : string) (val : Json) (entries : list (string * Json))
    : list (string * Json) :=
  match entries with
  | [] => [(key, val)]
  | (k, v) :: rest =>
      if String.eqb k key then (k, val) :: rest else (k, v) :: obj_assign key val rest
  end.

(** [newSchema[key] = newVal] on the object [newSchema], which starts as
    [{}]. The key [__proto__] names the accessor that every object inherits:
    assigning to it creates no property (it sets the prototype when the value
    is an object and does nothing otherwise), so the entries, which are the
    own properties that [Object.entries] and [JSON.stringify] see, stay as
    they are. *)
Definition obj_set (key : string) (val : Json) (entries : list (string * Json))
    : list (string * Json) :=
  if String.eqb key "__proto__" then entries else obj_assign key val entries.

(** [!error] for the [error] member of an evaluation result. *)
Definition no_error (err : option string) : bool :=
  match err with
  | None => true
  | Some s => String.eqb s ""
  end.

(** An [error] member inside a template literal. *)
Definition show_error (err : option string) : string :=
  match err with
  | None => "undefined"
  | Some s => s
  end.

(** Lines 262-273: the [try] statement that evaluates the expression
    [expr] taken out of the string node [schema]. *)
Definition expandSchema_expression (expr : string) (schema : Json) (scope : Scope)
    (missingIsError : bool) : M Log Json :=
  tryCatch
    (let* parsed := liftOutcome (expr_parse expr) in
     let* r := liftOutcome (expr_tryEvaluate parsed scope) in
     if no_error (snd r) && truthy (fst r) then ret (fst r)
     else
       (if missingIsError
        then modify (feedback error (expr +:+ ": " +:+ show_error (snd r)))
        else ret tt) >>
       ret schema)
    (fun e => modify (feedback error (expr +:+ ": " +:+ e)) >> ret schema).

(** The loop of [expandSchema] over the elements of an array, with the
    [newSchema] built so far; [expand] is the recursive call. *)
Definition expandSchema_array (expand : Json -> M Log Json)
    : list Json -> list Json -> M Log Json :=
  fix loop (vals newSchema : list Json) {struct vals} : M Log Json :=
    match vals with
    | [] => ret (JArr newSchema)
    | val :: rest =>
        let* newVal := expand val in
        loop rest (newSchema ++ [newVal])
    end.

(** The loop of [expandSchema] over [Object.entries(schema)]. *)
Definition expandSchema_object (expand : string -> Json -> M Log Json)
    : list (string * Json) -> list (string * Json) -> M Log Json :=
  fix loop (entries newSchema : list (string * Json)) {struct entries} : M Log Json :=
    match entries with
    | [] => ret (JObj newSchema)
    | (key, val) :: rest =>
        let* newVal := expand key val in
        loop rest (obj_set key newVal newSchema)
    end.

(** The path handed down to the value of [key]. *)
Definition expandSchema_newPath (path : string) (inProperties : bool) (key : string) : string :=
  if inProperties
  then path +:+ (if String.eqb path "" then key else "." +:+ key)
  else path.

(** [expandSchema]. [typeof null] is ['object'], so a [null] node reaches
    [Object.entries], which throws. *)
Fixpoint expandSchema (schema : Json) (scope : Scope) (path : string)
    (inProperties missingIsError : bool) {struct schema} : M Log Json :=
  match schema with
  | JArr items =>
      expandSchema_array
        (fun val => expandSchema val scope path false missingIsError)
        items []
  | JObj entries =>
      expandSchema_object
        (fun key val =>
           let newPath := expandSchema_newPath path inProperties key in
           expandSchema val (set_scope_property newPath scope) newPath
             (String.eqb key "properties") missingIsError)
        entries []
  | JNull => throw "Cannot convert undefined or null to object"
  | JStr s =>
      if startsWith "${" s then
        let expr := js_substring s 2 (Z.of_nat (String.length s) - 1) in
        expandSchema_expression expr schema scope missingIsError
      else ret schema
  | JBool _ | JNum _ => ret schema
  end.

(** A key as [JSON.stringify] hands it to its replacer: a property name, or
    the index of an array element (a decimal string in the source, equal to
    no property name the replacer looks for). *)
Inductive Key :=
| KName (k : string)
| KIndex (i : nat).

(** The replacer of line 370:
    [(key, val) => (key === '$templates' || key === '$requires') ? undefined : val]. *)
Definition replacer (key : Key) (val : Json) : option Json :=
  match key with
  | KName k =>
      if String.eqb k "$templates" || String.eqb k "$requires" then None else Some val
  | KIndex _ => Some val
  end.

(** The elements of an array as [JSON.stringify] prints them: [null] where
    the walk answers [undefined]. *)
Definition stringify_array (walk : Key -> Json -> option Json) : nat -> list Json -> list Json :=
  fix go (i : nat) (items : list Json) {struct items} : list Json :=
    match items with
    | [] => []
    | v :: rest => default JNull (walk (KIndex i) v) :: go (S i) rest
    end.

(** The entries of an object as [JSON.stringify] prints them: none where
    the walk answers [undefined]. *)
Definition stringify_object (walk : Key -> Json -> option Json)
    : list (string * Json) -> list (string * Json) :=
  fix go (entries : list (string * Json)) {struct entries} : list (string * Json) :=
    match entries with
    | [] => []
    | (k, v) :: rest =>
        match walk (KName k) v with
        | Some v' => (k, v') :: go rest
        | None => go rest
        end
    end.

(** The tree [JSON.stringify(value, replacer)] prints, [None] for
    [undefined]. The replacer above hands back the value itself or
    [undefined], so the walk continues into [val]. *)
Fixpoint stringify_tree (key : Key) (val : Json) {struct val} : option Json :=
  match replacer key val with
  | None => None
  | Some _ =>
      Some
        match val with
        | JArr items => JArr (stringify_array stringify_tree 0 items)
        | JObj entries => JObj (stringify_object stringify_tree entries)
        | _ => val
        end
  end.

(** [JSON.stringify(expanded, replacer, 4)], as what [writeFile] receives. *)
Definition JSON_stringify (expanded : Json) : Data LGFile :=
  match stringify_tree (KName "") expanded with
  | Some tree => DText (json_stringify tree)
  | None => DUndefined
  end.

Definition onLog {A} (m : M Log A) : M State A :=
  fun st =>
    match m (st_log st) with
    | Ret a log => Ret a (set_log log st)
    | Exn e log => Exn e (set_log log st)
    | Diverge => Diverge
    end.

(** Lines 366-374 of [generate]: the strict expansion of [schema.schema]
    and the write of the final schema, inside the [try] of [generate]. *)
Definition generate_finalSchema (schema : Json) (prefix outDir : string) (force : bool)
    : M State unit :=
  tryCatch
    ((* Expand schema expressions *)
     let* st := get in
     let* expanded := onLog (expandSchema schema (st_scope st) "" false true) in
     (* Write final schema *)
     let body := JSON_stringify expanded in
     writeFile (path_join outDir (prefix +:+ ".schema.dialog")) body force)
    (fun e => say error e).

End Generator.

(** ** A concrete platform for examples

    POSIX-style paths without [.] and [..] segments, a file system that is a
    list of files, LG files whose sections evaluate to fixed results, and an
    expression engine that knows a few scope members. It stands in for
    Node and the libraries when the generator is run on an example. *)
Module Toy.

Fixpoint split_on_aux (sep : ascii) (cur : string) (s : string) : list string :=
  match s with
  | EmptyString => [cur]
  | String c rest =>
      if Ascii.eqb c sep then cur :: split_on_aux sep "" rest
      else split_on_aux sep (cur +:+ String c "") rest
  end.

Definition components (p : string) : list string :=
  filter (fun c => c ≠ "") (split_on_aux "/"%char "" p).

Definition ends_with (suffix s : string) : bool :=
  let n := String.length s in
  let m := String.length suffix in
  (m <=? n) && String.eqb (String.substring (n - m) m s) suffix.

Definition basename (p : string) : string := List.last (components p) "".

Definition basename_ext (p ext : string) : string :=
  if String.eqb p ext then ""
  else
    let b := basename p in
    if negb (String.eqb ext "") && ends_with ext b && negb (String.eqb b ext)
    then String.substring 0 (String.length b - String.length ext) b
    else b.

(** Index of the last occurrence of [c] in [s]. *)
Fixpoint last_index_aux (c : ascii) (s : string) (i : nat) (found : option nat) : option nat :=
  match s with
  | EmptyString => found
  | String d rest => last_index_aux c rest (S i) (if Ascii.eqb d c then Some i else found)
  end.

Definition last_index (c : ascii) (s : string) : option nat := last_index_aux c s 0 None.

Definition extname (p : string) : string :=
  let b := basename p in
  if String.eqb b ".." then ""
  else
    match last_index "."%char b with
    | Some (S i) => String.substring (S i) (String.length b - S i) b
    | _ => ""
    end.

Definition dirname (p : string) : string :=
  match last_index "/"%char p with
  | None => "."
  | Some O => "/"
  | Some i => String.substring 0 i p
  end.

Definition join (a b : string) : string :=
  if String.eqb a "" then b
  else if String.eqb b "" then a
  else a +:+ "/" +:+ b.

Definition relative_to (from to : string) : string :=
  let pre := from +:+ "/" in
  if String.prefix pre to
  then String.substring (String.length pre) (String.length to - String.length pre) to
  else to.

Definition resolve (cwd p : string) : string :=
  if String.prefix "/" p then p else join cwd p.

Record Section_ := {
  sec_name : string;
  sec_result : Outcome LGResult
}.

Inductive Node :=
| Text (s : string)
| Lg (text : string) (sections : list Section_).

Definition Files := list (string * Node).

Definition lookup_file (fs : Files) (cwd p : string) : option Node :=
  snd <$> List.find (fun kv => String.eqb (fst kv) (resolve cwd p)) fs.

Record Parsed := {
  parsed_source : string;
  parsed_sections : list Section_
}.

Definition readFile (fs : Files) (cwd p : string) : Outcome string :=
  match lookup_file fs cwd p with
  | Some (Text s) => Val s
  | Some (Lg text _) => Val text
  | None => Raise ("ENOENT: no such file or directory, open '" +:+ p +:+ "'")
  end.

Definition writeData (fs : Files) (cwd p : string) (d : Data Parsed) : Outcome Files :=
  match d with
  | DText s => Val ((resolve cwd p, Text s) :: fs)
  | _ => Raise "The data argument must be of type string or an instance of Buffer"
  end.

Definition parseFile (fs : Files) (cwd p : string) : Outcome Parsed :=
  match lookup_file fs cwd p with
  | Some (Lg _ sections) => Val {| parsed_source := resolve cwd p; parsed_sections := sections |}
  | Some (Text _) => Raise ("Cannot parse " +:+ p)
  | None => Raise ("ENOENT: no such file or directory, open '" +:+ p +:+ "'")
  end.

Definition evaluate (f : Parsed) (section : string) (fs : Files) (cwd : string) (scope : Scope)
    : Outcome LGResult :=
  match List.find (fun s => String.eqb (sec_name s) section) (parsed_sections f) with
  | Some s => sec_result s
  | None => Raise ("No such template " +:+ section)
  end.

(** Expressions are names of scope members; anything with a blank in it, and
    the empty expression, is a syntax error. *)
Definition parse (expr : string) : Outcome string :=
  if String.eqb expr "" || includes " " expr
  then Raise "syntax error"
  else Val expr.

Definition tryEvaluate (expr : string) (scope : Scope) : Outcome (Json * option string) :=
  if String.eqb expr "locale" then Val (JStr (scope_locale scope), None)
  else if String.eqb expr "property" then Val (JStr (scope_property scope), None)
  else if String.eqb expr "prefix" then Val (JStr (scope_prefix scope), None)
  else if String.eqb expr "fail()" then Val (JNull, Some "fail is not a function")
  else Val (JNull, None).

Definition quote : string := String (ascii_of_nat 34) "".

Fixpoint escape (s : string) : string :=
  match s with
  | EmptyString => ""
  | String c rest =>
      (if Ascii.eqb c (ascii_of_nat 34) || Ascii.eqb c (ascii_of_nat 92)
       then String (ascii_of_nat 92) (String c "")
       else String c "") +:+ escape rest
  end.

Fixpoint spaces (n : nat) : string :=
  match n with
  | O => ""
  | S n' => " " +:+ spaces n'
  end.

(** A printer with four-space indentation for trees whose strings hold no
    control characters. *)
Fixpoint print (indent : nat) (v : Json) {struct v} : string :=
  match v with
  | JNull => "null"
  | JBool b => if b then "true" else "false"
  | JNum n => pretty n
  | JStr s => quote +:+ escape s +:+ quote
  | JArr [] => "[]"
  | JArr items =>
      "[" +:+ newline +:+
      String.concat ("," +:+ newline)
        ((fix go (l : list Json) : list string :=
            match l with
            | [] => []
            | x :: rest => (spaces (indent + 4) +:+ print (indent + 4) x) :: go rest
            end) items)
      +:+ newline +:+ spaces indent +:+ "]"
  | JObj [] => "{}"
  | JObj entries =>
      "{" +:+ newline +:+
      String.concat ("," +:+ newline)
        ((fix go (l : list (string * Json)) : list string :=
            match l with
            | [] => []
            | (k, x) :: rest =>
                (spaces (indent + 4) +:+ quote +:+ escape k +:+ quote +:+ ": "
                 +:+ print (indent + 4) x) :: go rest
            end) entries)
      +:+ newline +:+ spaces indent +:+ "}"
  end.

#[export] Instance platform : Platform := {|
  path_join := join;
  path_basename := basename;
  path_basename_ext := basename_ext;
  path_extname := extname;
  path_dirname := dirname;
  path_relative := relative_to;
  LGFile := Parsed;
  lg_templates := fun f =>
    map (fun s => {| lg_name := sec_name s; lg_source := parsed_source f |}) (parsed_sections f);
  FS := Files;
  fs_pathExists := fun fs cwd p => bool_decide (is_Some (lookup_file fs cwd p));
  fs_readFile := readFile;
  fs_ensureDir := fun fs _ _ => Val fs;
  fs_writeFile := writeData;
  process_chdir := fun _ cwd dir => Val (resolve cwd dir);
  lg_parseFile := parseFile;
  lg_evaluateTemplate := evaluate;
  Expression := string;
  expr_parse := parse;
  expr_tryEvaluate := tryEvaluate;
  json_stringify := print 0
|}.

End Toy.

(** ** Vocabulary of the properties *)

Section Vocabulary.
Context `{P : Platform}.

(** Directory [dir] holds template [name], as a file of that name or as
    [name.lg]. *)
Definition contains (fs : FS) (cwd dir name : string) : bool :=
  fs_pathExists fs cwd (templatePath name dir)
  || fs_pathExists fs cwd (templatePath (name +:+ ".lg") dir).

(** Some object inside the tree has a property named [k]. *)
Fixpoint mentions (k : string) (t : Json) : bool :=
  match t with
  | JArr items => existsb (mentions k) items
  | JObj entries =>
      existsb (fun kv => String.eqb (fst kv) k || mentions k (snd kv)) entries
  | _ => false
  end.

(** The entries of an object without those named in [ks], each value
    rewritten by [f]. *)
Definition prune_entries (ks : list string) (f : Json -> Json)
    : list (string * Json) -> list (string * Json) :=
  fix go (entries : list (string * Json)) : list (string * Json) :=
    match entries with
    | [] => []
    | (k, v) :: rest =>
        if bool_decide (k ∈ ks) then go rest else (k, f v) :: go rest
    end.

(** The tree without the properties named in [ks], at every depth; every
    other property, array element and scalar is kept. *)
Fixpoint without_keys (ks : list string) (t : Json) : Json :=
  match t with
  | JArr items => JArr (map (without_keys ks) items)
  | JObj entries => JObj (prune_entries ks (without_keys ks) entries)
  | _ => t
  end.

(** The four keys the specification designates as generation metadata, and
    the two the replacer names. *)
Definition designated_keys : list string := ["$templates"; "$entities"; "$requires"; "$public"].
Definition replaced_keys : list string := ["$templates"; "$requires"].

(** A string without its first two characters and its last one. *)
Definition strip_marker (s : string) : string :=
  String.substring 2 (String.length s - 3) s.

(** No property name occurs twice in the entries of an object. *)
Fixpoint distinct_keys (entries : list (string * Json)) : bool :=
  match entries with
  | [] => true
  | (k, _) :: rest => negb (existsb (fun kv => String.eqb (fst kv) k) rest) && distinct_keys rest
  end.

(** A property name that [newSchema[key] = newVal] stores as a property of
    [newSchema]: any name but [__proto__]. *)
Definition assignable (key : string) : bool := negb (String.eqb key "__proto__").

(** An expanded tree: no string node starts with the marker. [null_free]
    and [well_formed] are the two side conditions under which the expander
    can be followed node by node: no [null] node, and objects whose
    property names are distinct, as the properties of an object are, and
    assignable. *)
Fixpoint expanded (t : Json) : bool :=
  match t with
  | JStr s => negb (startsWith "${" s)
  | JArr items => forallb expanded items
  | JObj entries => forallb (fun kv => expanded (snd kv)) entries
  | _ => true
  end.

Fixpoint null_free (t : Json) : bool :=
  match t with
  | JNull => false
  | JArr items => forallb null_free items
  | JObj entries => forallb (fun kv => null_free (snd kv)) entries
  | _ => true
  end.

Fixpoint well_formed (t : Json) : bool :=
  match t with
  | JArr items => forallb well_formed items
  | JObj entries =>
      distinct_keys entries && forallb (fun kv => assignable (fst kv)) entries
      && forallb (fun kv => well_formed (snd kv)) entries
  | _ => true
  end.

(** A computation that gives a result, a value or an exception, in every
    state, unless [D] holds. *)
Definition returns_unless {S A} (D : Prop) (m : M S A) : Prop :=
  forall s, m s = Diverge -> D.

(** The base name of a path without its extension, whatever the extension. *)
Definition extension_stripped_basename (p : string) : string :=
  path_basename_ext p (path_extname p).

End Vocabulary.

(** ** Example runs *)
Module Examples.

#[local] Existing Instance Toy.platform.

Definition string_lg : Toy.Node :=
  Toy.Lg "# template"
    [{| Toy.sec_name := "template"; Toy.sec_result := Val (RString "What is the value?") |}].

(** An [.lg] file whose [entities] section names the entities of the
    property at hand. *)
Definition number_lg : Toy.Node :=
  Toy.Lg "# template"
    [{| Toy.sec_name := "template"; Toy.sec_result := Val (RArray ["How many?"; "What number?"]) |};
     {| Toy.sec_name := "entities"; Toy.sec_result := Val (RArray ["number"]) |}].

(** An [.lg] file whose [template] section fails to evaluate. *)
Definition broken_lg : Toy.Node :=
  Toy.Lg "# template"
    [{| Toy.sec_name := "template"; Toy.sec_result := Raise "Error evaluating template" |}].

(** The template directories [/std] and [/user]; both hold [readme.md]. *)
Definition files : Toy.Files :=
  [("/std/string.lg", string_lg);
   ("/std/number.lg", number_lg);
   ("/std/broken.lg", broken_lg);
   ("/std/numberEntity-number.lg", string_lg);
   ("/std/readme.md", Toy.Text "standard readme");
   ("/user/readme.md", Toy.Text "user readme")].

(** The same, after an earlier run has left [/out/bot-readme.md]. *)
Definition files_after_run : Toy.Files :=
  ("/out/bot-readme.md", Toy.Text "standard readme") :: files.

Definition schema_of (properties : list (string * PropertySchema)) : Schema :=
  {| schema_properties := properties; schema_templates := None; schema_entityTypes := [] |}.

(** The example of the specification: property [confirmation] of type
    [string], no [$templates], entities [["confirmationEntity"]]. *)
Definition confirmation : PropertySchema :=
  {| prop_type := "string"; prop_templates := None;
     prop_entities := Some ["confirmationEntity"] |}.

(** A property with explicit [$templates] and no [$entities]. *)
Definition notes : PropertySchema :=
  {| prop_type := "string"; prop_templates := Some ["readme.md"]; prop_entities := None |}.

(** A property with neither; its type template declares the entities. *)
Definition quantity : PropertySchema :=
  {| prop_type := "number"; prop_templates := None; prop_entities := None |}.

Definition scope (schema : Schema) : Scope :=
  {| scope_locales := ["en-us"]; scope_prefix := "bot"; scope_schema := schema;
     scope_properties := map fst (schema_properties schema);
     scope_triggerIntent := "bot"; scope_appSchema := "app.schema";
     scope_templates := ∅; scope_locale := "en-us"; scope_property := "";
     scope_type := ""; scope_role := None; scope_entities := None |}.

Definition state (fs : Toy.Files) (schema : Schema) : State :=
  {| st_fs := fs; st_cwd := "/work"; st_log := []; st_scope := scope schema |}.

(** The final state of a run, when there is one. *)
Definition final {A} (r : Res State A) : option State :=
  match r with
  | Ret _ st => Some st
  | _ => None
  end.

(** A schema tree that carries all four metadata keys. *)
Definition metadata_tree : Json :=
  JObj [("type", JStr "object");
        ("$public", JArr [JStr "quantity"]);
        ("$requires", JArr [JStr "standard.schema"]);
        ("$templates", JArr [JStr "readme.md"]);
        ("properties",
         JObj [("quantity",
                JObj [("type", JStr "number");
                      ("$entities", JArr [JStr "number"]);
                      ("$templates", JArr [JStr "number"])])])].

(** The state in which [processTemplate "readme.md"] reaches its output
    step: [existingRef] has stored an empty array for [md]. *)
Definition state_readme : State :=
  {| st_fs := files_after_run; st_cwd := "/work"; st_log := [];
     st_scope := set_scope_templates {["md" := []]} (scope (schema_of [])) |}.

(** The frame in which evaluating [broken.lg] throws: the working directory
    is the one of the template. *)
Definition frame_broken : Frame :=
  {| fr_state :=
       {| st_fs := files; st_cwd := "/std";
          st_log := [(info, "Generating /out/bot-broken")];
          st_scope := set_scope_templates {["" := []]} (scope (schema_of [])) |};
     fr_outPath := "/out/bot-broken" |}.

(** The file reference of [/out/bot-main.dialog]. *)
Definition main_dialog : FileRef :=
  {| name := "bot-main"; fallbackName := "bot-main";
     fullName := "bot-main.dialog"; relative := "bot-main.dialog" |}.

(** The state after the template [string] of property [confirmation] has
    been processed. *)
Definition state_confirmation : State :=
  {| st_fs := ("/out/bot-string", Toy.Text "What is the value?") :: files;
     st_cwd := "/work";
     st_log := [(info, "Generating /out/bot-string")];
     st_scope :=
       set_scope_templates
         {["" := [{| name := "bot-string"; fallbackName := "bot-string";
                    fullName := "bot-string"; relative := "bot-string" |}]]}
         (set_scope_type "string"
            (set_scope_property "confirmation"
               (scope (schema_of [("confirmation", confirmation)])))) |}.

(** The state after the templates of property [notes] have been processed. *)
Definition state_notes : State :=
  {| st_fs := ("/out/bot-readme.md", Toy.Text "standard readme") :: files;
     st_cwd := "/work";
     st_log := [(info, "Generating /out/bot-readme.md")];
     st_scope :=
       set_scope_templates
         {["md" := [{| name := "bot-readme.md"; fallbackName := "bot-readme.md";
                      fullName := "bot-readme.md"; relative := "bot-readme.md" |}]]}
         (set_scope_type "string"
            (set_scope_property "notes" (scope (schema_of [("notes", notes)])))) |}.

End Examples.

(** ** The rest of the generator *)

Section GeneratorRest.
Context `{P : Platform}.

(** The loop of [expandStandard], with the list [expanded] built so far;
    [dirname] is [__dirname]. *)
Fixpoint expandStandard_loop (dirname : string) (dirs expanded : list string) : list string :=
  match dirs with
  | [] => expanded
  | dir :: rest =>
      let dir :=
        if String.eqb dir "standard" then path_join dirname "../../templates" else dir in
      expandStandard_loop dirname rest (expanded ++ [dir])
  end.

(** [expandStandard]. *)
Definition expandStandard (dirname : string) (dirs : list string) : list string :=
  expandStandard_loop dirname dirs [].

End GeneratorRest.

(** ** Vocabulary of the invariants *)

Section Invariants.
Context `{P : Platform}.

(** A computation started in a state that satisfies [I] ends in a state
    that satisfies [Q] when it returns and [E] when it throws. *)
Definition hoare {S A} (I : S -> Prop) (m : M S A) (Q : A -> S -> Prop) (E : S -> Prop) : Prop :=
  forall s, I s ->
    match m s with
    | Ret a s' => Q a s'
    | Exn _ s' => E s'
    | Diverge => True
    end.

Definition keeps {S A} (I : S -> Prop) (m : M S A) : Prop :=
  hoare I m (fun _ => I) I.

(** The second state differs from the first by file operations, changes of
    directory and feedback only: the scope is the same and the feedback of
    the first is the beginning of the feedback of the second. *)
Definition io_step (st st' : State) : Prop :=
  st_scope st' = st_scope st /\ st_log st `prefix_of` st_log st'.

Definition io_only {A} (m : M State A) : Prop :=
  forall st0, keeps (io_step st0) m.

Definition in_frame (I : State -> Prop) (fr : Frame) : Prop := I (fr_state fr).

(** The state after [scope.templates[ext].push(ref)], when the array under
    [ext] is [arr]. *)
Definition push_ref (ext : string) (arr : list FileRef) (ref : FileRef) (st : State) : State :=
  set_scope (set_scope_templates (<[ext := arr ++ [ref]]> (scope_templates (st_scope st)))
               (st_scope st)) st.

(** What a property of the state has to withstand to hold throughout
    [processTemplate]: the steps that leave the scope alone, the empty array
    [existingRef] may store, the push of a file reference that [addEntry]
    has just handed out, and the entities attached to the property at hand
    when it has none. *)
Class Stable (I : State -> Prop) : Prop := {
  stable_io : forall st st', I st -> io_step st st' -> I st';
  stable_existingRef : forall st name found tracker,
    I st ->
    existingRef name (scope_templates (st_scope st)) = Val (found, tracker) ->
    I (set_scope (set_scope_templates tracker (st_scope st)) st);
  stable_push : forall st outPath outDir ref arr,
    I st ->
    addEntry outPath outDir (scope_templates (st_scope st)) = Val (Some ref) ->
    scope_templates (st_scope st) !! substring1 (path_extname outPath) = Some arr ->
    I (push_ref (substring1 (path_extname outPath)) arr ref st);
  stable_attach : forall st prop entities,
    I st ->
    lookup_property (scope_property (st_scope st)) (scope_schema (st_scope st)) = Some prop ->
    prop_entities prop = None ->
    I (set_scope (set_scope_schema
                    (attach_entities (scope_property (st_scope st)) entities
                       (scope_schema (st_scope st)))
                    (st_scope st)) st)
}.

(** [I] looks at the feedback, the tracker and the schema only, not at the
    members of the scope that the orchestrator sets. *)
Definition run_invariant (I : State -> Prop) : Prop :=
  forall st st',
    I st ->
    st_log st' = st_log st ->
    scope_templates (st_scope st') = scope_templates (st_scope st) ->
    scope_schema (st_scope st') = scope_schema (st_scope st) ->
    I st'.

(** A template as [fs.writeFile] receives it. *)
Definition written (t : Template) : Data LGFile :=
  match t with
  | TText s => DText s
  | TLG g => DObject g
  end.

(** No two files tracked under one extension have the same [name]. *)
Definition names_distinct (t : Tracker) : Prop :=
  forall ext arr, t !! ext = Some arr -> NoDup (name <$> arr).

(** Every array of the first tracker is the beginning of the array the
    second has under the same extension. *)
Definition tracker_grows (t t' : Tracker) : Prop :=
  forall ext arr, t !! ext = Some arr ->
    exists arr', t' !! ext = Some arr' /\ arr `prefix_of` arr'.

(** The members of the scope other than the tracker and the schema. *)
Definition same_settings (sc sc' : Scope) : Prop :=
  scope_locales sc' = scope_locales sc /\
  scope_prefix sc' = scope_prefix sc /\
  scope_properties sc' = scope_properties sc /\
  scope_triggerIntent sc' = scope_triggerIntent sc /\
  scope_appSchema sc' = scope_appSchema sc /\
  scope_locale sc' = scope_locale sc /\
  scope_property sc' = scope_property sc /\
  scope_type sc' = scope_type sc /\
  scope_role sc' = scope_role sc /\
  scope_entities sc' = scope_entities sc.

(** What the schema declares for a property, its entities apart. *)
Definition declared (kv : string * PropertySchema) : string * string * option (list string) :=
  (fst kv, prop_type (snd kv), prop_templates (snd kv)).

(** The two schemas have the same properties in the same order, with the
    same types and [$templates], and the same top-level [$templates]. *)
Definition same_declarations (s s' : Schema) : Prop :=
  schema_templates s' = schema_templates s /\
  schema_entityTypes s' = schema_entityTypes s /\
  map declared (schema_properties s') = map declared (schema_properties s).

Definition run_extends (st st' : State) : Prop :=
  st_log st `prefix_of` st_log st' /\
  tracker_grows (scope_templates (st_scope st)) (scope_templates (st_scope st')) /\
  same_settings (st_scope st) (st_scope st') /\
  same_declarations (scope_schema (st_scope st)) (scope_schema (st_scope st')).

(** The error reported for a property without [$entities]. *)
Definition entity_error (path : string) : FeedbackType * string :=
  (error, path +:+ " does not have $entities defined in schema or template.").

Definition same_type (a b : FeedbackType) : bool :=
  match a, b with
  | message, message | info, info | warning, warning | error, error => true
  | _, _ => false
  end.

(** How many times [entry] has been reported. *)
Definition occurrences (entry : FeedbackType * string) (log : Log) : nat :=
  length (List.filter
            (fun e => same_type (fst e) (fst entry) && String.eqb (snd e) (snd entry)) log).

(** Property [path] is in the schema of the scope and has no [$entities]. *)
Definition lacks_entities (path : string) (st : State) : Prop :=
  exists prop,
    lookup_property path (scope_schema (st_scope st)) = Some prop /\
    prop_entities prop = None.

(** [entry] has been reported [n] times at least, provided property [path]
    is still without [$entities]. *)
Definition reported (path : string) (entry : FeedbackType * string) (n : nat) (st : State)
    : Prop :=
  is_Some (lookup_property path (scope_schema (st_scope st))) /\
  (lacks_entities path st -> n <= occurrences entry (st_log st)).

(** What the lookup of a template reports when no tracked file and no
    directory has it: the name is missing, unless reading the array of its
    extension off the tracker has thrown. *)
Definition lookup_report (name : string) : FeedbackType * string :=
  (error,
   if inherited (substring1 (path_extname name))
   then "arr.find is not a function"
   else "Missing template " +:+ name).

(** The schema stored under the path of an enumerated property. *)
Definition stored (s : Schema) (kv : string * PropertySchema) : PropertySchema :=
  default (snd kv) (lookup_property (fst kv) s).

(** The templates of a property: its [$templates], else its type. *)
Definition property_templates (prop : PropertySchema) : list string :=
  match prop_templates prop with
  | Some templates => templates
  | None => [prop_type prop]
  end.

(** The entity templates of property [path]: one for each of its
    [$entities] when it has no [$templates]. *)
Definition property_entityTemplates (sc : Scope) (path : string) (prop : PropertySchema)
    : list string :=
  match prop_entities prop, prop_templates prop with
  | Some entities, None =>
      map (fun entity =>
             entityTemplate (hd "" (split_colon entity))
               (set_scope_type (prop_type prop) (set_scope_property path sc)))
          entities
  | _, _ => []
  end.

(** Every template name that [processTemplates] looks up for the schema. *)
Definition schema_names (sc : Scope) (s : Schema) : list string :=
  flat_map (fun kv => property_templates (stored s kv)
                      ++ property_entityTemplates sc (fst kv) (stored s kv))
           (schema_properties s)
  ++ default [] (schema_templates s).

(** What is reported for one property, and for the schema in one locale,
    when none of these names is found. *)
Definition property_report (sc : Scope) (s : Schema) (kv : string * PropertySchema) : Log :=
  map lookup_report (property_templates (stored s kv)) ++
  match prop_entities (stored s kv) with
  | None => [entity_error (fst kv)]
  | Some _ => map lookup_report (property_entityTemplates sc (fst kv) (stored s kv))
  end.

Definition schema_report (sc : Scope) (s : Schema) : Log :=
  flat_map (property_report sc s) (schema_properties s)
  ++ map lookup_report (default [] (schema_templates s)).

(** A tracker as lookups that find nothing leave it: every array empty, and
    no array under the name of an inherited property. *)
Definition tracker_idle (t : Tracker) : Prop :=
  forall ext arr, t !! ext = Some arr -> arr = [] /\ inherited ext = false.

(** [st'] is [st] after lookups that found nothing and reported [report]:
    the files, the working directory and the schema are the same. *)
Definition idle_run (report : Log) (st st' : State) : Prop :=
  st_log st' = st_log st ++ report /\
  st_fs st' = st_fs st /\
  st_cwd st' = st_cwd st /\
  scope_schema (st_scope st') = scope_schema (st_scope st) /\
  tracker_idle (scope_templates (st_scope st')).

(** The same, within the processing of one property. *)
Definition idle_step (report : Log) (st st' : State) : Prop :=
  idle_run report st st' /\
  scope_property (st_scope st') = scope_property (st_scope st) /\
  scope_type (st_scope st') = scope_type (st_scope st).

(** A computation on the feedback that gives a result in every case and
    only adds to the feedback. *)
Definition log_grows {A} (m : M Log A) : Prop :=
  forall log,
    match m log with
    | Ret _ log' => log `prefix_of` log'
    | Exn _ log' => log `prefix_of` log'
    | Diverge => False
    end.

End Invariants.

(** ** More example data *)
Module MoreExamples.
Import Examples.

#[local] Existing Instance Toy.platform.

(** [files] with an empty file [silent.md], an [.lg] file without any of
    the sections the generator reads, and a hand-written [bot-readme.md] in
    [/user]. *)
Definition files_more : Toy.Files :=
  [("/std/silent.md", Toy.Text "");
   ("/std/notes.lg",
    Toy.Lg "# other" [{| Toy.sec_name := "other"; Toy.sec_result := Val (RString "x") |}]);
   ("/user/bot-readme.md", Toy.Text "hand written")] ++ files.

Definition readme_ref : FileRef :=
  {| name := "bot-readme.md"; fallbackName := "bot-readme.md";
     fullName := "bot-readme.md"; relative := "bot-readme.md" |}.

(** A state whose tracker has an empty array for [md]. *)
Definition state_more : State :=
  {| st_fs := files_more; st_cwd := "/work"; st_log := [];
     st_scope := set_scope_templates {["md" := []]} (scope (schema_of [])) |}.

(** The parsed [/std/string.lg], and a state whose tracker has an empty
    array for files without extension and whose [/user] holds a
    hand-written [bot-string]. *)
Definition string_template : Template :=
  TLG {| Toy.parsed_source := "/std/string.lg";
         Toy.parsed_sections :=
           [{| Toy.sec_name := "template";
               Toy.sec_result := Val (RString "What is the value?") |}] |}.

Definition state_plain : State :=
  {| st_fs := ("/user/bot-string", Toy.Text "hand written") :: files; st_cwd := "/work";
     st_log := [];
     st_scope := set_scope_templates {["" := []]} (scope (schema_of [])) |}.

(** A property of type [number] with two entities, the second with a role:
    [/std] holds [numberEntity-number] and no [unitEntity-number]. *)
Definition amount : PropertySchema :=
  {| prop_type := "number"; prop_templates := None;
     prop_entities := Some ["number"; "unit:measure"] |}.

(** The state after the template [number] of property [amount] has been
    processed. *)
Definition state_amount : State :=
  {| st_fs := ("/out/bot-number", Toy.Text (join_lines ["How many?"; "What number?"])) :: files;
     st_cwd := "/work";
     st_log := [(info, "Generating /out/bot-number")];
     st_scope :=
       set_scope_templates
         {["" := [{| name := "bot-number"; fallbackName := "bot-number";
                    fullName := "bot-number"; relative := "bot-number" |}]]}
         (set_scope_type "number"
            (set_scope_property "amount" (scope (schema_of [("amount", amount)])))) |}.

(** A property with two explicit templates, of which [/std] holds the
    first. *)
Definition manual : PropertySchema :=
  {| prop_type := "string"; prop_templates := Some ["readme.md"; "faq.md"];
     prop_entities := None |}.

(** A tree with an expression and with a property named [__proto__]. *)
Definition proto_tree : Json :=
  JObj [("type", JStr "${locale}"); ("__proto__", JObj [("x", JNum 1)]); ("title", JStr "T")].

End MoreExamples.

(** * Properties *)

Section Locator.
Context `{P : Platform}.
Implicit Types (fs : FS) (cwd name dir : string) (dirs : list string)
  (template : option Template).

Lemma findTemplate_step_hit name fs cwd template dir :
  contains fs cwd dir name = true ->
  findTemplate_step name fs cwd template dir = findTemplate_step name fs cwd None dir.
Proof.
  unfold contains, findTemplate_step. intros Hc.
  destruct (fs_pathExists fs cwd (templatePath name dir)); [done|].
  simpl in Hc. by rewrite Hc.
Qed.

Lemma findTemplate_step_miss name fs cwd template dir :
  contains fs cwd dir name = false ->
  findTemplate_step name fs cwd template dir = Val template.
Proof.
  unfold contains, findTemplate_step. intros Hc.
  apply orb_false_iff in Hc as [-> ->]. done.
Qed.

Lemma findTemplate_step_defined name fs cwd template dir :
  contains fs cwd dir name = true ->
  findTemplate_step name fs cwd template dir <> Val None.
Proof.
  unfold contains, findTemplate_step. intros Hc.
  destruct (fs_pathExists fs cwd (templatePath name dir)).
  - by destruct (fs_readFile _ _ _).
  - simpl in Hc. rewrite Hc. by destruct (lg_parseFile _ _ _).
Qed.

Lemma findTemplate_from_app name fs cwd template dirs1 dirs2 :
  findTemplate_from name fs cwd template (dirs1 ++ dirs2) =
  match findTemplate_from name fs cwd template dirs1 with
  | Val template' => findTemplate_from name fs cwd template' dirs2
  | Raise e => Raise e
  end.
Proof.
  revert template. induction dirs1 as [|dir dirs1 IH]; intros template; simpl; [done|].
  destruct (findTemplate_step name fs cwd template dir); [apply IH | done].
Qed.

Lemma findTemplate_from_undefined name fs cwd template dirs :
  findTemplate_from name fs cwd template dirs = Val None <->
  template = None /\ forall dir, dir ∈ dirs -> contains fs cwd dir name = false.
Proof.
  revert template. induction dirs as [|dir dirs IH]; intros template; simpl.
  - split.
    + intros [= ->]. split; [done|]. intros dir Hin. by apply elem_of_nil in Hin.
    + by intros [-> _].
  - destruct (contains fs cwd dir name) eqn:Hc.
    + split.
      * intros Hrun.
        pose proof (findTemplate_step_defined name fs cwd template dir Hc) as Hdef.
        destruct (findTemplate_step name fs cwd template dir) as [[t|]|e]; try done.
        apply IH in Hrun as [? _]. done.
      * intros [_ Hall]. rewrite Hall in Hc; [done | apply list_elem_of_here].
    + rewrite (findTemplate_step_miss _ _ _ _ _ Hc), IH. split.
      * intros [-> Hall]. split; [done|].
        intros d [->|Hin]%elem_of_cons; [done | by apply Hall].
      * intros [-> Hall]. split; [done|].
        intros d Hin. apply Hall. by apply list_elem_of_further.
Qed.

(** C5. [findTemplate] goes through every directory in order and the last
    directory that holds the name decides the result: a directory that holds
    the name replaces whatever the directories before it gave (unless reading
    one of those threw), a directory that does not hold it changes nothing,
    so for [A; B] both holding the name the result is the one of [B]; the
    result is [undefined] exactly when no directory holds the name; and what
    one directory gives is the text of the file of that name, else the
    parsed [.lg] file of that name. *)
Theorem findTemplate_last_match_wins name fs cwd :
  (forall dirs dir,
      contains fs cwd dir name = true ->
      findTemplate name (dirs ++ [dir]) fs cwd =
      match findTemplate name dirs fs cwd with
      | Val _ => findTemplate name [dir] fs cwd
      | Raise e => Raise e
      end) /\
  (forall dirs dir,
      contains fs cwd dir name = false ->
      findTemplate name (dirs ++ [dir]) fs cwd = findTemplate name dirs fs cwd) /\
  (forall A B,
      contains fs cwd A name = true ->
      contains fs cwd B name = true ->
      findTemplate name [A; B] fs cwd =
      match findTemplate name [A] fs cwd with
      | Val _ => findTemplate name [B] fs cwd
      | Raise e => Raise e
      end) /\
  (forall dirs,
      findTemplate name dirs fs cwd = Val None <->
      forall dir, dir ∈ dirs -> contains fs cwd dir name = false) /\
  (forall dir,
      findTemplate name [dir] fs cwd =
      if fs_pathExists fs cwd (templatePath name dir) then
        match fs_readFile fs cwd (templatePath name dir) with
        | Val text => Val (Some (TText text))
        | Raise e => Raise e
        end
      else if fs_pathExists fs cwd (templatePath (name +:+ ".lg") dir) then
        match lg_parseFile fs cwd (templatePath (name +:+ ".lg") dir) with
        | Val parsed => Val (Some (TLG parsed))
        | Raise e => Raise e
        end
      else Val None).
Proof.
  assert (Hlast : forall dirs dir,
      contains fs cwd dir name = true ->
      findTemplate name (dirs ++ [dir]) fs cwd =
      match findTemplate name dirs fs cwd with
      | Val _ => findTemplate name [dir] fs cwd
      | Raise e => Raise e
      end).
  { intros dirs dir Hc. unfold findTemplate. rewrite findTemplate_from_app.
    destruct (findTemplate_from name fs cwd None dirs) as [t|e]; [|done].
    simpl. by rewrite (findTemplate_step_hit _ _ _ t _ Hc). }
  split; [exact Hlast|]. split; [|split; [|split]].
  - intros dirs dir Hc. unfold findTemplate. rewrite findTemplate_from_app.
    destruct (findTemplate_from name fs cwd None dirs) as [t|e]; [|done].
    simpl. by rewrite (findTemplate_step_miss _ _ _ _ _ Hc).
  - intros A B _ HB. exact (Hlast [A] B HB).
  - intros dirs. unfold findTemplate. rewrite findTemplate_from_undefined.
    split; [by intros [_ Hall] | by intros Hall].
  - intros dir. unfold findTemplate, findTemplate_from, findTemplate_step.
    destruct (fs_pathExists fs cwd (templatePath name dir)).
    + by destruct (fs_readFile _ _ _).
    + destruct (fs_pathExists fs cwd (templatePath (name +:+ ".lg") dir)); [|done].
      by destruct (lg_parseFile _ _ _).
Qed.

End Locator.

Section TrackerProperties.
Context `{P : Platform}.

Lemma find_Some_elem {A} (f : A -> bool) (l : list A) :
  (exists x, List.find f l = Some x) <-> exists x, x ∈ l /\ f x = true.
Proof.
  split.
  - intros [x Hx]. exists x. apply find_some in Hx as [Hin Hf].
    by rewrite list_elem_of_In.
  - intros [x [Hin Hf]]. destruct (List.find f l) as [y|] eqn:Hfind; [by exists y|].
    apply list_elem_of_In in Hin.
    pose proof (find_none f l Hfind x Hin) as Hno. congruence.
Qed.

(** C8, amended. For a tracker that holds an array for the extension of the
    path, [addEntry] refuses the claim exactly when that array holds an
    entry whose [name] is [basename(fullPath, '.dialog')], the base name
    from which only a trailing [.dialog] is removed, and otherwise returns
    the new file reference with that [name]; for a tracker without an array
    for the extension it throws. *)
Theorem addEntry_claims_dialog_basename fullPath outDir (tracker : Tracker) :
  let basename := path_basename_ext fullPath ".dialog" in
  match tracker !! substring1 (path_extname fullPath) with
  | Some arr =>
      (addEntry fullPath outDir tracker = Val None <->
       exists ref, ref ∈ arr /\ name ref = basename) /\
      ((forall ref, ref ∈ arr -> name ref <> basename) ->
       addEntry fullPath outDir tracker =
       Val (Some {| name := basename;
                    fallbackName := replace_locale basename;
                    fullName := path_basename fullPath;
                    relative := path_relative outDir fullPath |}))
  | None => exists e, addEntry fullPath outDir tracker = Raise e
  end.
Proof.
  intros basename. unfold addEntry. fold basename.
  destruct (tracker !! substring1 (path_extname fullPath)) as [arr|];
    [|destruct (inherited _); by eexists].
  pose proof (find_Some_elem (fun ref => String.eqb (name ref) basename) arr) as Hfind.
  destruct (List.find _ arr) as [r|] eqn:Hr.
  - split.
    + split; [intros _ | done].
      destruct Hfind as [Hfind _]. destruct Hfind as [x [Hin Hx]]; [by eexists|].
      exists x. split; [done|]. by apply String.eqb_eq.
    + intros Hnone. destruct Hfind as [Hfind _].
      destruct Hfind as [x [Hin Hx]]; [by eexists|].
      apply String.eqb_eq in Hx. by apply Hnone in Hin.
  - split; [|done]. split; [done|].
    intros [x [Hin Hx]]. destruct Hfind as [_ Hfind].
    destruct Hfind as [y Hy]; [|done]. exists x. split; [done|]. by apply String.eqb_eq.
Qed.

End TrackerProperties.

Section JsonInduction.

(** Induction on trees, with the hypothesis available for every element of
    an array and every value of an object. *)
Lemma Json_nested_ind (Q : Json -> Prop) :
  Q JNull ->
  (forall b, Q (JBool b)) ->
  (forall n, Q (JNum n)) ->
  (forall s, Q (JStr s)) ->
  (forall items, Forall Q items -> Q (JArr items)) ->
  (forall entries, Forall (fun kv => Q (snd kv)) entries -> Q (JObj entries)) ->
  forall t, Q t.
Proof.
  intros Hnull Hbool Hnum Hstr Harr Hobj.
  fix IH 1. intros [| b | n | s | items | entries].
  - exact Hnull.
  - apply Hbool.
  - apply Hnum.
  - apply Hstr.
  - apply Harr.
    refine ((fix go (l : list Json) : Forall Q l :=
               match l with
               | [] => List.Forall_nil Q
               | x :: rest => @List.Forall_cons _ Q x rest (IH x) (go rest)
               end) items).
  - apply Hobj.
    refine ((fix go (l : list (string * Json)) : Forall (fun kv => Q (snd kv)) l :=
               match l with
               | [] => List.Forall_nil _
               | kv :: rest => @List.Forall_cons _ _ kv rest (IH (snd kv)) (go rest)
               end) entries).
Qed.

End JsonInduction.

Section ExpanderProperties.
Context `{P : Platform}.

Lemma js_substring_strip_marker s :
  3 <= String.length s ->
  js_substring s 2 (Z.of_nat (String.length s) - 1) = strip_marker s.
Proof.
  intros Hlen. unfold js_substring, strip_marker.
  set (n := String.length s) in *.
  replace (Z.max 0 (Z.min 2 (Z.of_nat n))) with 2%Z by lia.
  replace (Z.max 0 (Z.min (Z.of_nat n - 1) (Z.of_nat n))) with (Z.of_nat n - 1)%Z by lia.
  replace (Z.min 2 (Z.of_nat n - 1)) with 2%Z by lia.
  replace (Z.max 2 (Z.of_nat n - 1)) with (Z.of_nat n - 1)%Z by lia.
  replace (Z.to_nat (Z.of_nat n - 1 - 2)) with (n - 3) by lia.
  done.
Qed.

Lemma startsWith_marker_short s :
  startsWith "${" s = true -> String.length s < 3 -> s = "${".
Proof.
  unfold startsWith. intros Hpre Hlen.
  destruct s as [|a [|b [|c r]]];
    cbn [String.prefix String.length] in *; try done; try lia.
  - by destruct (ascii_dec _ a).
  - destruct (ascii_dec _ a) as [<-|]; [|done].
    by destruct (ascii_dec _ b) as [<-|].
Qed.

(** C10, amended. A string node that starts with [${] is evaluated as an
    expression whether or not it ends with [}]: when it has at least three
    characters the expression is the string without its first two and its
    last character, and for the two-character string [${] the expression is
    [{]. *)
Theorem expandSchema_marker_expression s scope path inProperties missingIsError :
  startsWith "${" s = true ->
  (3 <= String.length s ->
   expandSchema (JStr s) scope path inProperties missingIsError =
   expandSchema_expression (strip_marker s) (JStr s) scope missingIsError) /\
  (String.length s < 3 ->
   s = "${" /\
   expandSchema (JStr s) scope path inProperties missingIsError =
   expandSchema_expression "{" (JStr s) scope missingIsError).
Proof.
  intros Hpre. split; intros Hlen.
  - simpl. rewrite Hpre. by rewrite js_substring_strip_marker.
  - pose proof (startsWith_marker_short s Hpre Hlen) as ->. done.
Qed.


(** C7: the failing input. A [null] node, alone or as the value of a
    property of an otherwise expanded tree, makes [expandSchema] throw
    instead of returning the tree. *)
Theorem expandSchema_null_throws scope path inProperties missingIsError log :
  expandSchema JNull scope path inProperties missingIsError log =
    Exn "Cannot convert undefined or null to object" log /\
  expandSchema
    (JObj [("properties",
            JObj [("age", JObj [("type", JStr "number"); ("default", JNull)])])])
    scope path inProperties missingIsError log =
    Exn "Cannot convert undefined or null to object" log.
Proof. split; reflexivity. Qed.

Lemma obj_assign_fresh key val entries :
  existsb (fun kv => String.eqb (fst kv) key) entries = false ->
  obj_assign key val entries = entries ++ [(key, val)].
Proof.
  induction entries as [|[k v] entries IH]; simpl; [done|].
  intros [Hk Hrest]%orb_false_iff. rewrite Hk. by rewrite IH.
Qed.

Lemma obj_set_fresh key val entries :
  assignable key = true ->
  existsb (fun kv => String.eqb (fst kv) key) entries = false ->
  obj_set key val entries = entries ++ [(key, val)].
Proof.
  unfold obj_set, assignable. intros Hkey%negb_true_iff Hfresh.
  rewrite Hkey. by apply obj_assign_fresh.
Qed.

Lemma obj_set_proto key val entries :
  assignable key = false -> obj_set key val entries = entries.
Proof. unfold obj_set, assignable. intros Hkey%negb_false_iff. by rewrite Hkey. Qed.

Lemma distinct_keys_app_fresh (acc : list (string * Json)) key val rest :
  distinct_keys (acc ++ (key, val) :: rest) = true ->
  existsb (fun kv => String.eqb (fst kv) key) acc = false.
Proof.
  induction acc as [|[k v] acc IH]; simpl; [done|].
  intros [Hk Hrest]%andb_true_iff.
  apply negb_true_iff in Hk. rewrite existsb_app in Hk.
  apply orb_false_iff in Hk as [_ Hk]. simpl in Hk.
  apply orb_false_iff in Hk as [Hk _].
  rewrite String.eqb_sym, Hk. simpl. by apply IH.
Qed.

Lemma distinct_keys_app_r (acc rest : list (string * Json)) :
  distinct_keys (acc ++ rest) = true -> distinct_keys rest = true.
Proof.
  induction acc as [|[k v] acc IH]; simpl; [done|].
  intros [_ Hrest]%andb_true_iff. by apply IH.
Qed.

Lemma expandSchema_array_fixed (expand : Json -> M Log Json) items :
  Forall (fun v => forall log, expand v log = Ret v log) items ->
  forall acc log,
    expandSchema_array expand items acc log = Ret (JArr (acc ++ items)) log.
Proof.
  induction 1 as [|v items Hv _ IH]; intros acc log; simpl.
  - by rewrite app_nil_r.
  - unfold bind. rewrite Hv. rewrite IH. by rewrite <- app_assoc.
Qed.

Lemma expandSchema_object_fixed (expand : string -> Json -> M Log Json) entries :
  Forall (fun kv => forall log, expand (fst kv) (snd kv) log = Ret (snd kv) log) entries ->
  forall acc log,
    distinct_keys (acc ++ entries) = true ->
    forallb (fun kv => assignable (fst kv)) entries = true ->
    expandSchema_object expand entries acc log = Ret (JObj (acc ++ entries)) log.
Proof.
  induction 1 as [|[k v] entries Hv _ IH]; intros acc log Hd Ha; simpl.
  - by rewrite app_nil_r.
  - unfold bind. simpl in Hv, Ha. rewrite Hv.
    apply andb_true_iff in Ha as [Hk Ha].
    rewrite (obj_set_fresh k v acc) by (done || by eapply distinct_keys_app_fresh).
    rewrite IH; rewrite <- ?app_assoc; done.
Qed.

(** On a tree that is already expanded, has no [null] node and is well
    formed, [expandSchema] returns the tree itself and reports nothing;
    applying it again therefore changes nothing either. *)
Lemma expandSchema_expanded_fixed t :
  expanded t = true -> null_free t = true -> well_formed t = true ->
  forall scope path inProperties missingIsError log,
    expandSchema t scope path inProperties missingIsError log = Ret t log.
Proof.
  induction t as [| b | n | s | items IH | entries IH] using Json_nested_ind;
    intros He Hn Hw scope path inProperties missingIsError log; try done.
  - simpl in *. apply negb_true_iff in He. by rewrite He.
  - simpl in *. rewrite expandSchema_array_fixed; [done|].
    rewrite forallb_forall in He, Hn, Hw.
    rewrite Forall_forall in IH |- *. intros v Hin log'.
    pose proof Hin as Hin'. apply list_elem_of_In in Hin'.
    apply IH; auto.
  - simpl in *. apply andb_true_iff in Hw as [Hd Hw].
    apply andb_true_iff in Hd as [Hd Ha].
    rewrite expandSchema_object_fixed; [done| |done|done].
    rewrite forallb_forall in He, Hn, Hw.
    rewrite Forall_forall in IH |- *. intros kv Hin log'.
    pose proof Hin as Hin'. apply list_elem_of_In in Hin'.
    apply IH; auto.
Qed.

End ExpanderProperties.

Section FinalSchemaProperties.
Context `{P : Platform}.

Lemma replacer_dropped k val :
  replacer (KName k) val = if bool_decide (k ∈ replaced_keys) then None else Some val.
Proof.
  unfold replacer, replaced_keys.
  destruct (String.eqb k "$templates") eqn:H1.
  { apply String.eqb_eq in H1 as ->. done. }
  destruct (String.eqb k "$requires") eqn:H2.
  { apply String.eqb_eq in H2 as ->. done. }
  apply String.eqb_neq in H1, H2. simpl.
  rewrite bool_decide_eq_false_2; [done|].
  rewrite !elem_of_cons, elem_of_nil. tauto.
Qed.

Lemma stringify_tree_without_keys val :
  forall key,
    stringify_tree key val =
    match replacer key val with
    | None => None
    | Some _ => Some (without_keys replaced_keys val)
    end.
Proof.
  induction val as [| b | n | s | items IH | entries IH] using Json_nested_ind;
    intros key; simpl; try done.
  - destruct (replacer key (JArr items)); [|done]. do 2 f_equal.
    generalize 0. induction IH as [|v items Hv _ IHitems]; intros i; simpl; [done|].
    rewrite Hv. simpl. by rewrite IHitems.
  - destruct (replacer key (JObj entries)); [|done]. do 2 f_equal.
    induction IH as [|[k v] entries Hv _ IHentries]; simpl; [done|].
    simpl in Hv. rewrite Hv, replacer_dropped.
    destruct (bool_decide (k ∈ replaced_keys)); [done|]. by rewrite IHentries.
Qed.

Lemma without_keys_not_mentioned ks k t :
  k ∈ ks -> mentions k (without_keys ks t) = false.
Proof.
  intros Hk.
  induction t as [| b | n | s | items IH | entries IH] using Json_nested_ind;
    simpl; try done.
  - induction IH as [|v items Hv _ IHitems]; simpl; [done|]. by rewrite Hv.
  - induction IH as [|[k' v] entries Hv _ IHentries]; simpl; [done|].
    destruct (bool_decide (k' ∈ ks)) eqn:Hdec; [done|]. simpl.
    simpl in Hv. rewrite Hv, IHentries.
    apply bool_decide_eq_false in Hdec.
    destruct (String.eqb k' k) eqn:Heq; [|done].
    apply String.eqb_eq in Heq as ->. done.
Qed.

Lemma prune_entries_keeps ks f entries k v :
  (k, v) ∈ entries -> k ∉ ks -> (k, f v) ∈ prune_entries ks f entries.
Proof.
  intros Hin Hk. induction entries as [|[k' v'] entries IH]; simpl.
  - by apply elem_of_nil in Hin.
  - apply elem_of_cons in Hin as [[= <- <-]|Hin].
    + rewrite bool_decide_eq_false_2 by done. apply list_elem_of_here.
    + destruct (bool_decide (k' ∈ ks)); [by apply IH|].
      apply list_elem_of_further. by apply IH.
Qed.

Lemma without_keys_unmentioned ks t :
  (forall k, k ∈ ks -> mentions k t = false) -> without_keys ks t = t.
Proof.
  induction t as [| b | n | s | items IH | entries IH] using Json_nested_ind;
    simpl; try done; intros Hno; f_equal.
  - induction IH as [|v items Hv _ IHitems]; simpl; [done|].
    rewrite Hv, IHitems; [done| |].
    + intros k Hk. specialize (Hno k Hk). simpl in Hno.
      by apply orb_false_iff in Hno as [_ ?].
    + intros k Hk. specialize (Hno k Hk). simpl in Hno.
      by apply orb_false_iff in Hno as [? _].
  - induction IH as [|[k' v] entries Hv _ IHentries]; simpl; [done|].
    simpl in Hv.
    assert (k' ∉ ks) as Hk'.
    { intros Hin. specialize (Hno k' Hin). simpl in Hno.
      by rewrite String.eqb_refl in Hno. }
    rewrite bool_decide_eq_false_2 by done.
    rewrite Hv, IHentries; [done| |].
    + intros k Hk. specialize (Hno k Hk). simpl in Hno.
      by apply orb_false_iff in Hno as [_ ?].
    + intros k Hk. specialize (Hno k Hk). simpl in Hno.
      apply orb_false_iff in Hno as [Hno _].
      by apply orb_false_iff in Hno as [_ ?].
Qed.

(** C4, amended. The body written to [<prefix>.schema.dialog] is the JSON
    text of the expanded tree without its [$templates] and [$requires]
    properties, at every depth: neither name occurs in what is printed,
    every other property of the tree, [$entities] and [$public] included,
    is kept, and a tree that names neither is printed as it is. *)
Theorem final_schema_drops_templates_and_requires expanded :
  let tree := without_keys replaced_keys expanded in
  JSON_stringify expanded = DText (json_stringify tree) /\
  (forall schema prefix outDir force st log,
     expandSchema schema (st_scope st) "" false true (st_log st) = Ret expanded log ->
     generate_finalSchema schema prefix outDir force st =
     tryCatch
       (writeFile (path_join outDir (prefix +:+ ".schema.dialog"))
          (DText (json_stringify tree)) force)
       (fun e => say error e)
       (set_log log st)) /\
  mentions "$templates" tree = false /\
  mentions "$requires" tree = false /\
  (forall entries k v,
     expanded = JObj entries -> (k, v) ∈ entries ->
     k <> "$templates" -> k <> "$requires" ->
     exists kept,
       tree = JObj kept /\ (k, without_keys replaced_keys v) ∈ kept) /\
  (mentions "$templates" expanded = false ->
   mentions "$requires" expanded = false ->
   tree = expanded).
Proof.
  intros tree.
  assert (Hbody : JSON_stringify expanded = DText (json_stringify tree)).
  { unfold JSON_stringify. by rewrite stringify_tree_without_keys. }
  split; [exact Hbody|]. split; [|split; [|split; [|split]]].
  - intros schema prefix outDir force st log Hrun.
    unfold generate_finalSchema, tryCatch, bind, get, onLog.
    rewrite Hrun, Hbody. done.
  - apply without_keys_not_mentioned. unfold replaced_keys.
    apply list_elem_of_here.
  - apply without_keys_not_mentioned. unfold replaced_keys.
    apply list_elem_of_further, list_elem_of_here.
  - intros entries k v -> Hin H1 H2. eexists. split; [done|].
    apply prune_entries_keeps; [done|].
    unfold replaced_keys. rewrite !elem_of_cons, elem_of_nil. tauto.
  - intros H1 H2. apply without_keys_unmentioned.
    unfold replaced_keys. intros k.
    rewrite !elem_of_cons, elem_of_nil. intros [->|[->|[]]]; done.
Qed.

End FinalSchemaProperties.

Section MaterializerProperties.
Context `{P : Platform}.

Lemma processTemplate_filename_pure template templateName st filename st' :
  processTemplate_filename template templateName st = Ret filename st' -> st' = st.
Proof.
  unfold processTemplate_filename, evaluateTemplate, bind, get, liftOutcome, ret, throw.
  destruct template as [s|f]; [by intros [= _ <-]|].
  destruct (has_section f "filename"); [|by intros [= _ <-]].
  destruct (lg_evaluateTemplate _ _ _ _ _) as [[s|l|]|e]; try done.
  by intros [= _ <-].
Qed.

(** C2: the failing case. When the file name is computed, the claim on the
    output path succeeds, the path exists on disk and [force] is false, the
    output step writes nothing, reports the warning, and leaves the scope as
    it is: the claimed [FileRef] is not added to the tracker, so a later
    lookup of that file by [existingRef] finds what it found before and a
    later [addEntry] on the path claims it again. *)
Theorem processTemplate_output_skips_existing
    template templateName templateDirs outDir st st' outPath0 filename ref :
  processTemplate_filename template templateName st = Ret filename st' ->
  let outPath := path_join outDir filename in
  addEntry outPath outDir (scope_templates (st_scope st)) = Val (Some ref) ->
  fs_pathExists (st_fs st) (st_cwd st) outPath = true ->
  exists final,
    processTemplate_output template templateName templateDirs outDir false
      {| fr_state := st; fr_outPath := outPath0 |} =
    Ret tt {| fr_state := final; fr_outPath := outPath |} /\
    st_log final = st_log st ++ [(warning, "Skipping already existing " +:+ outPath)] /\
    st_fs final = st_fs st /\
    st_scope final = st_scope st /\
    existingRef (fullName ref) (scope_templates (st_scope final)) =
      existingRef (fullName ref) (scope_templates (st_scope st)) /\
    addEntry outPath outDir (scope_templates (st_scope final)) = Val (Some ref).
Proof.
  intros Hname outPath Hclaim Hexists.
  pose proof (processTemplate_filename_pure _ _ _ _ _ Hname) as ->.
  exists (set_log (st_log st ++ [(warning, "Skipping already existing " +:+ outPath)]) st).
  split; [|done].
  unfold processTemplate_output, bind, onState. simpl. rewrite Hname. simpl.
  fold outPath. rewrite Hclaim. simpl. rewrite Hexists. done.
Qed.

Lemma returns_ret {S A} D (a : A) : returns_unless (S := S) D (ret a).
Proof. by intros s. Qed.

Lemma returns_throw {S A} D e : returns_unless (S := S) (A := A) D (throw e).
Proof. by intros s. Qed.

Lemma returns_get {S} D : returns_unless (S := S) D get.
Proof. by intros s. Qed.

Lemma returns_modify {S} D (f : S -> S) : returns_unless D (modify f).
Proof. by intros s. Qed.

Lemma returns_liftOutcome {S A} D (o : Outcome A) : returns_unless (S := S) D (liftOutcome o).
Proof. by destruct o; intros s. Qed.

Lemma returns_bind {S A B} D (m : M S A) (k : A -> M S B) :
  returns_unless D m -> (forall a, returns_unless D (k a)) -> returns_unless D (bind m k).
Proof.
  unfold returns_unless, bind. intros Hm Hk s. destruct (m s) eqn:E; eauto. done.
Qed.

Lemma returns_tryCatch {S A} D (m : M S A) h :
  returns_unless D m -> (forall e, returns_unless D (h e)) -> returns_unless D (tryCatch m h).
Proof.
  unfold returns_unless, tryCatch. intros Hm Hh s. destruct (m s) eqn:E; eauto. done.
Qed.

Lemma returns_onState {A} D (m : M State A) :
  returns_unless D m -> returns_unless D (onState m).
Proof.
  unfold returns_unless, onState. intros Hm fr.
  destruct (m (fr_state fr)) eqn:E; eauto; done.
Qed.

Lemma returns_forEach {S A} D (l : list A) (f : A -> M S unit) :
  (forall x, returns_unless D (f x)) -> returns_unless D (forEach l f).
Proof.
  intros Hf. induction l as [|x l IH]; simpl; [apply returns_ret|].
  apply returns_bind; [apply Hf | by intros _].
Qed.

Ltac returns :=
  repeat first
    [ apply returns_ret | apply returns_throw | apply returns_get | apply returns_modify
    | apply returns_liftOutcome | apply returns_onState
    | apply returns_bind; [|intros ?] | apply returns_tryCatch; [|intros ?]
    | apply returns_forEach; intros ?
    | match goal with
      | |- returns_unless _ (match ?x with _ => _ end) => destruct x
      | |- returns_unless _ (if ?b then _ else _) => destruct b
      end ].

(** The [try] block gives a result unless one of the calls it makes for a
    [templates] section does not. *)
Lemma processTemplate_try_returns self templateName templateDirs outDir force ignorable :
  returns_unless
    (exists generate st, self generate templateDirs outDir force false st = Diverge)
    (processTemplate_try self templateName templateDirs outDir force ignorable).
Proof.
  unfold processTemplate_try, processTemplate_output, processTemplate_entities,
    processTemplate_templates, processTemplate_filename, processTemplate_result,
    findTemplateM, evaluateTemplate, chdir, pushRef, say, update_scope, setOutPath.
  returns.
  all: try (intros s Hs; eauto).
Qed.

(** C6. A call of [processTemplate] never throws, and whenever it returns
    the working directory is the one at entry. Spelled out for the two
    exits of the [try] block: when the block completes, and when it throws
    (then the error is reported first), the working directory it has reached
    is replaced by the one at entry and [outPath] is returned. The call
    returns unless one of the calls it makes for a [templates] section does
    not. *)
Theorem processTemplate_restores_cwd templateName templateDirs outDir force ignorable st :
  (forall fuel,
     match processTemplate fuel templateName templateDirs outDir force ignorable st with
     | Ret _ st' => st_cwd st' = st_cwd st
     | Exn _ _ => False
     | Diverge => True
     end) /\
  (forall fuel fr,
     processTemplate_try (processTemplate fuel) templateName templateDirs outDir
       force ignorable {| fr_state := st; fr_outPath := "" |} = Ret tt fr ->
     processTemplate (S fuel) templateName templateDirs outDir force ignorable st =
     Ret (fr_outPath fr) (set_cwd (st_cwd st) (fr_state fr))) /\
  (forall fuel e fr,
     processTemplate_try (processTemplate fuel) templateName templateDirs outDir
       force ignorable {| fr_state := st; fr_outPath := "" |} = Exn e fr ->
     processTemplate (S fuel) templateName templateDirs outDir force ignorable st =
     Ret (fr_outPath fr)
         (set_cwd (st_cwd st)
            (set_log (st_log (fr_state fr) ++ [(error, e)]) (fr_state fr)))) /\
  (forall fuel,
     processTemplate (S fuel) templateName templateDirs outDir force ignorable st = Diverge ->
     exists generate st1,
       processTemplate fuel generate templateDirs outDir force false st1 = Diverge).
Proof.
  split; [|split; [|split]].
  - intros [|fuel]; simpl; [done|].
    unfold processTemplate_call, tryFinally, tryCatch.
    destruct (processTemplate_try _ _ _ _ _ _ _) as [[] fr|e fr|]; done.
  - intros fuel fr Hrun. simpl.
    unfold processTemplate_call, tryFinally, tryCatch. by rewrite Hrun.
  - intros fuel e fr Hrun. simpl.
    unfold processTemplate_call, tryFinally, tryCatch. by rewrite Hrun.
  - intros fuel. simpl. unfold processTemplate_call, tryFinally, tryCatch.
    destruct (processTemplate_try _ _ _ _ _ _ _) as [[] fr|e fr|] eqn:Htry; try done.
    intros _. by eapply processTemplate_try_returns.
Qed.

(** A template that no tracked file and no directory holds: the error is
    reported unless the lookup is ignorable, and nothing else happens. *)
Lemma processTemplate_missing_template
    fuel templateName templateDirs outDir force ignorable st tracker :
  existingRef templateName (scope_templates (st_scope st)) = Val (None, tracker) ->
  findTemplate templateName templateDirs (st_fs st) (st_cwd st) = Val None ->
  processTemplate (S fuel) templateName templateDirs outDir force ignorable st =
  Ret "" (let st1 := set_scope (set_scope_templates tracker (st_scope st)) st in
          if ignorable then st1
          else set_log (st_log st ++ [(error, "Missing template " +:+ templateName)]) st1).
Proof.
  intros Href Hfind. simpl.
  unfold processTemplate_call, tryFinally, tryCatch, processTemplate_try, bind, onState.
  simpl. rewrite Href. simpl.
  unfold findTemplateM, bind, get, liftOutcome. simpl. rewrite Hfind. simpl.
  destruct ignorable; simpl; destruct st; done.
Qed.

(** A template name whose lookup in the tracker throws: the error is
    reported and nothing else happens, whatever the directories hold. *)
Lemma processTemplate_lookup_throws
    fuel templateName templateDirs outDir force ignorable st e :
  existingRef templateName (scope_templates (st_scope st)) = Raise e ->
  processTemplate (S fuel) templateName templateDirs outDir force ignorable st =
  Ret "" (set_log (st_log st ++ [(error, e)]) st).
Proof.
  intros Href. simpl.
  unfold processTemplate_call, tryFinally, tryCatch, processTemplate_try, bind, onState.
  simpl. rewrite Href. simpl. destruct st; done.
Qed.

End MaterializerProperties.


(** ** The properties on the example runs *)

Section ExampleRuns.
Import Examples.
#[local] Existing Instance Toy.platform.

(** C1: counterexample. For the property [confirmation] of type [string]
    with entities [["confirmationEntity"]] and no [$templates], no directory
    holds [stringEntity-string], and the run reports the missing entity
    template as an error. *)
Lemma entity_template_absence_is_reported :
  st_log <$> final (processTemplates 2 ["/std"] ["en-us"] "/out" false
                      (state files (schema_of [("confirmation", confirmation)]))) =
  Some [(info, "Generating /out/bot-string");
        (error, "Missing template stringEntity-string")].
Proof. vm_compute. reflexivity. Qed.

(** C2: the failing input. [/out/bot-readme.md] exists and [force] is false:
    the file is skipped with a warning, and afterwards the tracker holds no
    entry for it, so [existingRef] does not find it. *)
Lemma skipped_file_is_not_registered :
  exists st',
    processTemplate 1 "readme.md" ["/std"] "/out" false false
      (state files_after_run (schema_of [])) = Ret "/out/bot-readme.md" st' /\
    st_log st' = [(warning, "Skipping already existing /out/bot-readme.md")] /\
    scope_templates (st_scope st') !! "md" = Some [] /\
    existingRef "bot-readme.md" (scope_templates (st_scope st')) =
      Val (None, scope_templates (st_scope st')).
Proof. eexists. split; [vm_compute; reflexivity|]. vm_compute. done. Qed.

(** C2: the output step of the same run. *)
Lemma processTemplate_output_skips_existing_witness :
  processTemplate_filename (TText "standard readme") "readme.md" state_readme =
    Ret "bot-readme.md" state_readme /\
  fs_pathExists (st_fs state_readme) (st_cwd state_readme) "/out/bot-readme.md" = true /\
  exists final,
    processTemplate_output (TText "standard readme") "readme.md" ["/std"] "/out" false
      {| fr_state := state_readme; fr_outPath := "" |} =
    Ret tt {| fr_state := final; fr_outPath := "/out/bot-readme.md" |} /\
    st_log final = [(warning, "Skipping already existing /out/bot-readme.md")] /\
    st_fs final = files_after_run /\
    st_scope final = st_scope state_readme.
Proof.
  split; [reflexivity|]. split; [reflexivity|].
  destruct (processTemplate_output_skips_existing (P := Toy.platform)
              (TText "standard readme") "readme.md" ["/std"] "/out"
              state_readme state_readme "" "bot-readme.md"
              {| name := "bot-readme.md"; fallbackName := "bot-readme.md";
                 fullName := "bot-readme.md"; relative := "bot-readme.md" |})
    as [final [Hrun [Hlog [Hfs [Hscope _]]]]].
  - reflexivity.
  - vm_compute. reflexivity.
  - reflexivity.
  - exists final. split; [exact Hrun|]. split; [exact Hlog|]. split; [exact Hfs | exact Hscope].
Defined.



(** C4: counterexample. The tree printed for [metadata_tree] still names
    [$entities] and [$public]; it is not the tree without the four
    designated keys. *)
Lemma final_schema_keeps_entities_and_public :
  exists tree,
    stringify_tree (KName "") metadata_tree = Some tree /\
    mentions "$entities" tree = true /\
    mentions "$public" tree = true /\
    tree <> without_keys designated_keys metadata_tree.
Proof. eexists. split; [reflexivity|]. split; [reflexivity|]. split; [reflexivity|]. done. Qed.

(** C4: the amended statement on [metadata_tree]. *)
Lemma final_schema_drops_templates_and_requires_witness :
  JSON_stringify metadata_tree =
    DText (json_stringify (without_keys replaced_keys metadata_tree)) /\
  mentions "$templates" (without_keys replaced_keys metadata_tree) = false /\
  mentions "$requires" (without_keys replaced_keys metadata_tree) = false /\
  without_keys replaced_keys (JObj [("type", JStr "object")]) = JObj [("type", JStr "object")].
Proof.
  pose proof (final_schema_drops_templates_and_requires (P := Toy.platform) metadata_tree)
    as [Hbody [_ [Htemplates [Hrequires _]]]].
  split; [exact Hbody|]. split; [exact Htemplates|]. split; [exact Hrequires|].
  apply (final_schema_drops_templates_and_requires (P := Toy.platform) (JObj [("type", JStr "object")]));
    reflexivity.
Defined.

(** C5: with [/std] and [/user] both holding [readme.md], the one of the
    directory listed last is used, in either order; a name that no
    directory holds gives [undefined]. *)
Lemma findTemplate_last_match_wins_witness :
  contains files "/work" "/std" "readme.md" = true /\
  contains files "/work" "/user" "readme.md" = true /\
  findTemplate "readme.md" ["/std"; "/user"] files "/work" = Val (Some (TText "user readme")) /\
  findTemplate "readme.md" ["/user"; "/std"] files "/work" = Val (Some (TText "standard readme")) /\
  findTemplate "nothing" ["/std"; "/user"] files "/work" = Val None.
Proof.
  split; [reflexivity|]. split; [reflexivity|].
  pose proof (findTemplate_last_match_wins (P := Toy.platform) "readme.md" files "/work") as [_ [_ [Hpair _]]].
  pose proof (findTemplate_last_match_wins (P := Toy.platform) "nothing" files "/work") as [_ [_ [_ [Hnone _]]]].
  split; [|split].
  - rewrite (Hpair "/std" "/user"); reflexivity.
  - rewrite (Hpair "/user" "/std"); reflexivity.
  - apply Hnone. intros dir Hin.
    apply elem_of_cons in Hin as [->|Hin]; [reflexivity|].
    apply elem_of_cons in Hin as [->|Hin]; [reflexivity|].
    by apply elem_of_nil in Hin.
Defined.

(** C6: evaluating [broken.lg] throws after the working directory has been
    changed to [/std]; the call reports the error and returns in [/work]. *)
Lemma processTemplate_restores_cwd_witness :
  processTemplate_try (processTemplate 0) "broken" ["/std"] "/out" false false
    {| fr_state := state files (schema_of []); fr_outPath := "" |} =
    Exn "Error evaluating template" frame_broken /\
  st_cwd (fr_state frame_broken) = "/std" /\
  (st_cwd <$> final (processTemplate 1 "broken" ["/std"] "/out" false false
                       (state files (schema_of [])))) = Some "/work" /\
  (st_log <$> final (processTemplate 1 "broken" ["/std"] "/out" false false
                       (state files (schema_of [])))) =
    Some [(info, "Generating /out/bot-broken"); (error, "Error evaluating template")].
Proof.
  assert (Htry : processTemplate_try (processTemplate 0) "broken" ["/std"] "/out" false false
            {| fr_state := state files (schema_of []); fr_outPath := "" |} =
          Exn "Error evaluating template" frame_broken) by (vm_compute; reflexivity).
  split; [exact Htry|]. split; [reflexivity|].
  pose proof (processTemplate_restores_cwd (P := Toy.platform) "broken" ["/std"] "/out" false false
                (state files (schema_of []))) as [_ [_ [Hthrow _]]].
  rewrite (Hthrow 0 _ _ Htry). split; reflexivity.
Defined.

(** C8: counterexample. For a path ending in [.lg] the [name] of the new
    file reference keeps the extension. *)
Lemma addEntry_keeps_lg_extension :
  addEntry "/out/en-us/bot-string.en-us.lg" "/out" {["lg" := []]} =
    Val (Some {| name := "bot-string.en-us.lg";
                 fallbackName := "bot-string.lg";
                 fullName := "bot-string.en-us.lg";
                 relative := "en-us/bot-string.en-us.lg" |}) /\
  extension_stripped_basename "/out/en-us/bot-string.en-us.lg" = "bot-string.en-us" /\
  "bot-string.en-us.lg" <> extension_stripped_basename "/out/en-us/bot-string.en-us.lg".
Proof. split; [vm_compute; reflexivity|]. split; [reflexivity|]. done. Qed.

(** C8: the amended statement, on a [.dialog] path claimed twice and on a
    tracker without an array for the extension. *)
Lemma addEntry_claims_dialog_basename_witness :
  addEntry "/out/bot-main.dialog" "/out" {["dialog" := []]} = Val (Some main_dialog) /\
  addEntry "/out/bot-main.dialog" "/out" {["dialog" := [main_dialog]]} = Val None /\
  exists e, addEntry "/out/bot-main.dialog" "/out" {["md" := []]} = Raise e.
Proof.
  split; [|split].
  - pose proof (addEntry_claims_dialog_basename (P := Toy.platform) "/out/bot-main.dialog" "/out"
                  {["dialog" := []]}) as Hspec.
    vm_compute in Hspec. destruct Hspec as [_ Hnew].
    vm_compute. apply Hnew. intros r Hin. by apply elem_of_nil in Hin.
  - pose proof (addEntry_claims_dialog_basename (P := Toy.platform) "/out/bot-main.dialog" "/out"
                  {["dialog" := [main_dialog]]}) as Hspec.
    vm_compute in Hspec. destruct Hspec as [[_ Hheld] _].
    vm_compute. apply Hheld. exists main_dialog.
    split; [apply list_elem_of_here | reflexivity].
  - exact (addEntry_claims_dialog_basename (P := Toy.platform) "/out/bot-main.dialog" "/out" {["md" := []]}).
Defined.

(** C9: counterexample. Property [notes] declares [$templates] and no
    [$entities]; the run reports it. *)
Lemma explicit_templates_without_entities_reported :
  st_log <$> final (processTemplates 2 ["/std"] ["en-us"] "/out" false
                      (state files (schema_of [("notes", notes)]))) =
  Some [(info, "Generating /out/bot-readme.md");
        (error, "notes does not have $entities defined in schema or template.")].
Proof. vm_compute. reflexivity. Qed.

(** C10: counterexample. For the two-character string [${] the expression
    handed to the engine is [{], not the empty string that is left when the
    first two characters and the last one are removed. *)
Lemma bare_marker_expression :
  strip_marker "${" = "" /\
  js_substring "${" 2 (Z.of_nat (String.length "${") - 1) = "{" /\
  expandSchema (JStr "${") (scope (schema_of [])) "" false true [] =
    Ret (JStr "${") [(error, "{: undefined")] /\
  expandSchema_expression (strip_marker "${") (JStr "${") (scope (schema_of [])) true [] =
    Ret (JStr "${") [(error, ": syntax error")].
Proof. repeat split; reflexivity. Qed.

(** C10: the amended statement on [${foo], which has no closing brace: the
    expression is [fo]. *)
Lemma expandSchema_marker_expression_witness :
  startsWith "${" "${foo" = true /\
  3 <= String.length "${foo" /\
  strip_marker "${foo" = "fo" /\
  expandSchema (JStr "${foo") (scope (schema_of [])) "" false true =
    expandSchema_expression "fo" (JStr "${foo") (scope (schema_of [])) true.
Proof.
  split; [reflexivity|]. split; [simpl; lia|]. split; [reflexivity|].
  apply (proj1 (expandSchema_marker_expression (P := Toy.platform) "${foo" (scope (schema_of [])) "" false true
                  eq_refl)).
  simpl. lia.
Defined.

End ExampleRuns.

(** * Further properties *)

Section WriteFileProperties.
Context `{P : Platform}.


Lemma writeFile_cases path val force st :
  writeFile path val force st =
  Ret tt
    (if force || negb (fs_pathExists (st_fs st) (st_cwd st) path) then
       let st1 := set_log (st_log st ++ [(info, "Generating " +:+ path)]) st in
       match fs_ensureDir (st_fs st) (st_cwd st) (path_dirname path) with
       | Raise e => set_log (st_log st1 ++ [(error, e)]) st1
       | Val fs1 =>
           match fs_writeFile fs1 (st_cwd st) path val with
           | Raise e => set_log (st_log st1 ++ [(error, e)]) (set_fs fs1 st1)
           | Val fs2 => set_fs fs2 st1
           end
       end
     else set_log (st_log st ++ [(warning, "Skipping already existing " +:+ path)]) st).
Proof.
  unfold writeFile, tryCatch, bind, get, say, modify, liftOutcome, ret, throw, feedback.
  destruct (force || negb (fs_pathExists (st_fs st) (st_cwd st) path)); [|done].
  simpl. destruct (fs_ensureDir _ _ _) as [fs1|e]; simpl; [|done].
  destruct (fs_writeFile _ _ _ _) as [fs2|e]; simpl; done.
Qed.

(** X1. [writeFile] never throws: it returns in a state with the same
    working directory and the same scope, whose feedback begins with the
    feedback received before; with [force] false and a path that exists it
    leaves the file system alone and reports the one warning. *)
Theorem writeFile_never_throws path val force st :
  exists st',
    writeFile path val force st = Ret tt st' /\
    st_cwd st' = st_cwd st /\
    st_scope st' = st_scope st /\
    st_log st `prefix_of` st_log st' /\
    (force = false -> fs_pathExists (st_fs st) (st_cwd st) path = true ->
       st_fs st' = st_fs st /\
       st_log st' = st_log st ++ [(warning, "Skipping already existing " +:+ path)]).
Proof.
  rewrite writeFile_cases. eexists. split; [reflexivity|].
  destruct (force || negb (fs_pathExists (st_fs st) (st_cwd st) path)) eqn:Hgo.
  - cbn zeta.
    assert (forall b, force = false -> fs_pathExists (st_fs st) (st_cwd st) path = b -> b = false)
      as Habs.
    { intros b -> Hb. rewrite Hb in Hgo. by destruct b. }
    destruct (fs_ensureDir _ _ _) as [fs1|e]; [destruct (fs_writeFile _ _ _ _) as [fs2|e]|];
      simpl; (split; [done|]; split; [done|]; split;
              [try (by apply prefix_app_r, prefix_app_r); by apply prefix_app_r
              | intros Hf He; by specialize (Habs _ Hf He)]).
  - simpl. split; [done|]. split; [done|]. split; [by apply prefix_app_r|]. done.
Qed.

(** X2. When [writeFile] goes ahead (forced, or the path does not exist), it
    reports [Generating <path>] first; if creating the directory or writing
    the file throws, the message of the exception is reported as an error
    after it and the call returns all the same; otherwise the file system
    is the one after the write. *)
Theorem writeFile_reports_failure path val force st :
  force || negb (fs_pathExists (st_fs st) (st_cwd st) path) = true ->
  let st1 := set_log (st_log st ++ [(info, "Generating " +:+ path)]) st in
  (forall e,
     fs_ensureDir (st_fs st) (st_cwd st) (path_dirname path) = Raise e ->
     writeFile path val force st = Ret tt (set_log (st_log st1 ++ [(error, e)]) st1)) /\
  (forall fs1 e,
     fs_ensureDir (st_fs st) (st_cwd st) (path_dirname path) = Val fs1 ->
     fs_writeFile fs1 (st_cwd st) path val = Raise e ->
     writeFile path val force st =
     Ret tt (set_log (st_log st1 ++ [(error, e)]) (set_fs fs1 st1))) /\
  (forall fs1 fs2,
     fs_ensureDir (st_fs st) (st_cwd st) (path_dirname path) = Val fs1 ->
     fs_writeFile fs1 (st_cwd st) path val = Val fs2 ->
     writeFile path val force st = Ret tt (set_fs fs2 st1)).
Proof.
  intros Hgo st1. rewrite writeFile_cases, Hgo. fold st1. split; [|split].
  - by intros e ->.
  - by intros fs1 e -> ->.
  - by intros fs1 fs2 -> ->.
Qed.

End WriteFileProperties.

Section TrackerLookupProperties.
Context `{P : Platform}.


Lemma existingRef_tracker_spec name (tracker : Tracker) found tracker' :
  let ext := substring1 (path_extname name) in
  existingRef name tracker = Val (found, tracker') ->
  (is_Some (tracker !! ext) \/ inherited ext = false) /\
  is_Some (tracker' !! ext) /\
  (forall k, k <> ext -> tracker' !! k = tracker !! k) /\
  (is_Some (tracker !! ext) -> tracker' = tracker) /\
  (tracker !! ext = None -> tracker' !! ext = Some [] /\ found = None) /\
  existingRef name tracker' = Val (found, tracker') /\
  (forall r, found = Some r ->
     fullName r = name /\ exists arr, tracker !! ext = Some arr /\ r ∈ arr).
Proof.
  intros ext. unfold existingRef. fold ext.
  destruct (tracker !! ext) as [arr|] eqn:Hext.
  - intros [= <- <-]. rewrite Hext. split; [by left|].
    split; [done|]. split; [done|]. split; [done|]. split; [done|].
    split; [done|]. intros r Hr. apply find_some in Hr as [Hin Hname].
    apply String.eqb_eq in Hname. split; [done|]. exists arr. split; [done|].
    by apply list_elem_of_In.
  - destruct (inherited ext) eqn:Hinh; [done|]. intros [= <- <-].
    rewrite lookup_insert_eq. split; [by right|]. split; [done|]. split.
    { intros k Hk. by rewrite lookup_insert_ne. }
    split; [by intros [? ?]|]. done.
Qed.

Lemma existingRef_returns name (tracker : Tracker) :
  is_Some (tracker !! substring1 (path_extname name))
  \/ inherited (substring1 (path_extname name)) = false ->
  exists found tracker', existingRef name tracker = Val (found, tracker').
Proof.
  unfold existingRef. intros [[arr ->]| Hinh]; [by eexists _, _|].
  destruct (tracker !! _); [by eexists _, _|]. rewrite Hinh. by eexists _, _.
Qed.

(** X3. [existingRef] returns when the tracker has an array under the
    extension of the name or the extension is not the name of an inherited
    property. It then leaves a tracker that has an array under the
    extension: the tracker itself when it had one, and otherwise the tracker
    with an empty array added, in which case nothing is found; the arrays of
    the other extensions are untouched, a second lookup gives the same
    answer and changes nothing, and a reference that is found has the name
    as its [fullName] and was in the array of that extension. For an
    extension that names an inherited property and has no array of its own,
    [existingRef] throws, whatever the tracker holds otherwise. *)
Theorem existingRef_prepares_tracker name (tracker : Tracker) :
  let ext := substring1 (path_extname name) in
  (is_Some (tracker !! ext) \/ inherited ext = false ->
   exists found tracker',
     existingRef name tracker = Val (found, tracker') /\
     is_Some (tracker' !! ext) /\
     (forall k, k <> ext -> tracker' !! k = tracker !! k) /\
     (is_Some (tracker !! ext) -> tracker' = tracker) /\
     (tracker !! ext = None -> tracker' !! ext = Some [] /\ found = None) /\
     existingRef name tracker' = Val (found, tracker') /\
     (forall r, found = Some r ->
        fullName r = name /\ exists arr, tracker !! ext = Some arr /\ r ∈ arr)) /\
  (tracker !! ext = None -> inherited ext = true ->
   existingRef name tracker = Raise "arr.find is not a function").
Proof.
  intros ext. split.
  - intros Hok. destruct (existingRef_returns name tracker Hok) as (found & tracker' & Hrun).
    exists found, tracker'. split; [exact Hrun|].
    by destruct (existingRef_tracker_spec name tracker found tracker' Hrun) as [_ H].
  - intros Hnone Hinh. unfold existingRef. fold ext. by rewrite Hnone, Hinh.
Qed.

(** X4. After [existingRef] has looked up a name and returned, [addEntry]
    does not throw on any path that has the extension of that name, in the
    tracker that the lookup has left; when [existingRef] throws instead,
    [addEntry] throws the same error on every such path. *)
Theorem addEntry_after_existingRef name fullPath outDir (tracker : Tracker) :
  path_extname fullPath = path_extname name ->
  match existingRef name tracker with
  | Val (_, tracker') => exists claim, addEntry fullPath outDir tracker' = Val claim
  | Raise e => addEntry fullPath outDir tracker = Raise e
  end.
Proof.
  intros Hext. destruct (existingRef name tracker) as [[found tracker']|e] eqn:Hrun.
  - destruct (existingRef_tracker_spec name tracker found tracker' Hrun) as (_ & [arr Harr] & _).
    unfold addEntry. rewrite Hext, Harr. destruct (List.find _ arr); eauto.
  - unfold existingRef in Hrun. unfold addEntry. rewrite Hext.
    destruct (tracker !! _); [done|]. destruct (inherited _); [by injection Hrun as <- | done].
Qed.

(** X5. Once the file reference that [addEntry] handed out for a path has
    been pushed on the array of its extension, [addEntry] refuses every
    path with the same extension and the same base name (a trailing
    [.dialog] apart), whatever its directory and whatever the output
    directory. *)
Theorem addEntry_refuses_after_push fullPath outDir fullPath' outDir' (tracker : Tracker) ref :
  addEntry fullPath outDir tracker = Val (Some ref) ->
  path_extname fullPath' = path_extname fullPath ->
  path_basename_ext fullPath' ".dialog" = path_basename_ext fullPath ".dialog" ->
  exists arr,
    tracker !! substring1 (path_extname fullPath) = Some arr /\
    addEntry fullPath' outDir'
      (<[substring1 (path_extname fullPath) := arr ++ [ref]]> tracker) = Val None.
Proof.
  unfold addEntry. intros Hadd Hext Hbase. rewrite Hext, Hbase.
  destruct (tracker !! substring1 (path_extname fullPath)) as [arr|] eqn:Harr;
    [|by destruct (inherited _)].
  exists arr. split; [done|]. rewrite lookup_insert_eq.
  destruct (List.find _ arr) eqn:Hfind; [done|]. injection Hadd as <-.
  destruct (List.find _ (arr ++ _)) eqn:Hfind'; [done|].
  exfalso. eapply find_none in Hfind'; [|apply in_or_app; right; left; reflexivity].
  simpl in Hfind'. by rewrite String.eqb_refl in Hfind'.
Qed.

(** X6. Once the file reference that [addEntry] handed out for a path has
    been pushed, [existingRef] finds a reference under the base name of the
    path, provided the base name has the extension of the path; it is the
    one pushed when no earlier entry of the array has that [fullName]. *)
Theorem existingRef_finds_pushed fullPath outDir (tracker : Tracker) ref :
  addEntry fullPath outDir tracker = Val (Some ref) ->
  path_extname (path_basename fullPath) = path_extname fullPath ->
  exists arr found,
    tracker !! substring1 (path_extname fullPath) = Some arr /\
    existingRef (path_basename fullPath)
      (<[substring1 (path_extname fullPath) := arr ++ [ref]]> tracker) =
      Val (Some found, <[substring1 (path_extname fullPath) := arr ++ [ref]]> tracker) /\
    fullName found = path_basename fullPath /\
    ((forall r, r ∈ arr -> fullName r <> path_basename fullPath) -> found = ref).
Proof.
  unfold addEntry, existingRef. intros Hadd Hext. rewrite Hext.
  destruct (tracker !! substring1 (path_extname fullPath)) as [arr|] eqn:Harr;
    [|by destruct (inherited _)].
  destruct (List.find _ arr) eqn:Hfind; [done|]. injection Hadd as <-.
  set (ref := {| name := _; fallbackName := _; fullName := _; relative := _ |}).
  exists arr.
  destruct (List.find (fun r => String.eqb (fullName r) (path_basename fullPath)) (arr ++ [ref]))
    as [found|] eqn:Hfound.
  - exists found. split; [done|]. rewrite lookup_insert_eq. rewrite Hfound. split; [done|].
    pose proof Hfound as Hf. apply find_some in Hf as [Hin Hname].
    apply String.eqb_eq in Hname. split; [done|].
    intros Hnone. apply in_app_or in Hin as [Hin|[<-|[]]]; [|done].
    apply list_elem_of_In in Hin. by apply Hnone in Hin.
  - exfalso. eapply find_none in Hfound; [|apply in_or_app; right; left; reflexivity].
    simpl in Hfound. by rewrite String.eqb_refl in Hfound.
Qed.

End TrackerLookupProperties.

Section InvariantRules.
Context `{P : Platform}.


Lemma hoare_ret {S A} (I : S -> Prop) (a : A) Q E : (forall s, I s -> Q a s) -> hoare I (ret a) Q E.
Proof. intros H s Hs. by apply H. Qed.

Lemma hoare_throw {S A} (I : S -> Prop) e (Q : A -> S -> Prop) (E : S -> Prop) :
  (forall s, I s -> E s) -> hoare I (throw e) Q E.
Proof. intros H s Hs. by apply H. Qed.

Lemma hoare_get {S} (I : S -> Prop) E : hoare I get (fun a s => a = s /\ I s) E.
Proof. by intros s Hs. Qed.

Lemma hoare_modify {S} (I : S -> Prop) (f : S -> S) (Q : unit -> S -> Prop) E :
  (forall s, I s -> Q tt (f s)) -> hoare I (modify f) Q E.
Proof. intros H s Hs. by apply H. Qed.

Lemma hoare_liftOutcome {S A} (I : S -> Prop) (o : Outcome A) :
  hoare I (liftOutcome o) (fun a s => o = Val a /\ I s) I.
Proof. intros s Hs. by destruct o. Qed.

Lemma hoare_bind {S A B} (I : S -> Prop) (m : M S A) (k : A -> M S B) Q Q' E :
  hoare I m Q E -> (forall a, hoare (Q a) (k a) Q' E) -> hoare I (bind m k) Q' E.
Proof.
  intros Hm Hk s Hs. unfold bind. specialize (Hm s Hs).
  destruct (m s) as [a s'|e s'|]; [by apply Hk | done | done].
Qed.

Lemma hoare_bind_ret {S A B} (I : S -> Prop) (a : A) (k : A -> M S B) Q E :
  hoare I (k a) Q E -> hoare I (bind (ret a) k) Q E.
Proof. intros H s Hs. exact (H s Hs). Qed.

Lemma hoare_conseq {S A} (I I' : S -> Prop) (m : M S A) (Q Q' : A -> S -> Prop) (E E' : S -> Prop) :
  hoare I' m Q' E' ->
  (forall s, I s -> I' s) -> (forall a s, Q' a s -> Q a s) -> (forall s, E' s -> E s) ->
  hoare I m Q E.
Proof.
  intros Hm HI HQ HE s Hs. specialize (Hm s (HI s Hs)).
  destruct (m s); auto.
Qed.

Lemma hoare_tryCatch {S A} (I : S -> Prop) (m : M S A) h Q E E' :
  hoare I m Q E' -> (forall e, hoare E' (h e) Q E) -> hoare I (tryCatch m h) Q E.
Proof.
  intros Hm Hh s Hs. unfold tryCatch. specialize (Hm s Hs).
  destruct (m s) as [a s'|e s'|]; [done | by apply Hh | done].
Qed.

Lemma hoare_forEach {S A} (I : S -> Prop) (l : list A) (f : A -> M S unit) :
  (forall x, keeps I (f x)) -> keeps I (forEach l f).
Proof.
  intros Hf. induction l as [|x l IH]; simpl.
  - by apply hoare_ret.
  - eapply hoare_bind with (Q := fun _ => I); [apply Hf | intros ?; apply IH].
Qed.

Lemma hoare_onState {A} (I : State -> Prop) (m : M State A) Q E :
  hoare I m Q E ->
  hoare (in_frame I) (onState m) (fun a => in_frame (Q a)) (in_frame E).
Proof.
  intros Hm fr Hfr. unfold onState. specialize (Hm (fr_state fr) Hfr).
  by destruct (m (fr_state fr)).
Qed.


Lemma io_step_refl st : io_step st st.
Proof. by split. Qed.

Lemma io_step_trans st1 st2 st3 : io_step st1 st2 -> io_step st2 st3 -> io_step st1 st3.
Proof.
  intros [Hs1 Hl1] [Hs2 Hl2]. split; [congruence|]. by etrans.
Qed.

Lemma io_only_keeps {A} (I : State -> Prop) (m : M State A) :
  io_only m -> (forall st st', I st -> io_step st st' -> I st') -> keeps I m.
Proof.
  intros Hm HI s Hs. specialize (Hm s s (io_step_refl s)).
  destruct (m s); eauto.
Qed.

Lemma io_only_ret {A} (a : A) : io_only (ret a).
Proof. intros st0. by apply hoare_ret. Qed.

Lemma io_only_throw {A} e : io_only (A := A) (throw e).
Proof. intros st0. by apply hoare_throw. Qed.

Lemma io_only_get : io_only get.
Proof. intros st0 s Hs. done. Qed.

Lemma io_only_liftOutcome {A} (o : Outcome A) : io_only (liftOutcome o).
Proof. intros st0 s Hs. by destruct o. Qed.

Lemma io_only_bind {A B} (m : M State A) (k : A -> M State B) :
  io_only m -> (forall a, io_only (k a)) -> io_only (bind m k).
Proof. intros Hm Hk st0. eapply hoare_bind; [apply Hm | intros a; apply Hk]. Qed.

Lemma io_only_modify (f : State -> State) :
  (forall st, io_step st (f st)) -> io_only (modify f).
Proof.
  intros Hf st0. apply hoare_modify. intros s Hs. eapply io_step_trans; [exact Hs | apply Hf].
Qed.

Lemma io_only_say t msg : io_only (say t msg).
Proof.
  apply io_only_modify. intros st. split; [done|]. by apply prefix_app_r.
Qed.

Lemma io_only_set_fs fs : io_only (modify (set_fs fs)).
Proof. apply io_only_modify. intros st. by split. Qed.

Lemma io_only_set_cwd d : io_only (modify (set_cwd d)).
Proof. apply io_only_modify. intros st. by split. Qed.

Ltac io_only :=
  repeat first
    [ apply io_only_ret | apply io_only_throw | apply io_only_get | apply io_only_liftOutcome
    | apply io_only_say | apply io_only_set_fs | apply io_only_set_cwd
    | apply io_only_bind; [|intros ?]
    | match goal with
      | |- io_only (match ?x with _ => _ end) => destruct x
      | |- io_only (if ?b then _ else _) => destruct b
      end ].

Lemma io_only_evaluateTemplate f section : io_only (evaluateTemplate f section).
Proof. unfold evaluateTemplate. io_only. Qed.

Lemma io_only_chdir dir : io_only (chdir dir).
Proof. unfold chdir. io_only. Qed.

Lemma io_only_findTemplateM name dirs : io_only (findTemplateM name dirs).
Proof. unfold findTemplateM. io_only. Qed.

Lemma io_only_filename template name : io_only (processTemplate_filename template name).
Proof. unfold processTemplate_filename, evaluateTemplate. io_only. Qed.

Lemma io_only_result template : io_only (processTemplate_result template).
Proof. unfold processTemplate_result, evaluateTemplate, chdir. io_only. Qed.

Section Generic.
Context (I : State -> Prop) (Hstable : Stable I).

Lemma keeps_io {A} (m : M State A) : io_only m -> keeps I m.
Proof. intros Hm. apply io_only_keeps; [done|]. apply stable_io. Qed.

Lemma keeps_frame_io {A} (m : M State A) : io_only m -> keeps (in_frame I) (onState m).
Proof. intros Hm. apply hoare_onState. by apply keeps_io. Qed.

Lemma keeps_setOutPath p : keeps (in_frame I) (setOutPath p).
Proof. apply hoare_modify. by intros fr Hfr. Qed.

Lemma keeps_pushRef outPath outDir ref :
  hoare (fun st => I st /\ addEntry outPath outDir (scope_templates (st_scope st)) = Val (Some ref))
        (pushRef (substring1 (path_extname outPath)) ref)
        (fun _ => I) I.
Proof.
  intros st [HI Hadd]. unfold pushRef, bind, get.
  destruct (scope_templates (st_scope st) !! substring1 (path_extname outPath)) as [arr|] eqn:Harr.
  - unfold update_scope, modify. by apply (stable_push st outPath outDir ref arr).
  - by destruct (inherited _).
Qed.

Lemma keeps_output template templateName templateDirs outDir force :
  keeps (in_frame I) (processTemplate_output template templateName templateDirs outDir force).
Proof.
  unfold processTemplate_output.
  eapply hoare_bind; [apply keeps_frame_io, io_only_filename | intros filename].
  eapply hoare_bind with (Q := fun _ => in_frame I); [apply keeps_setOutPath | intros ?].
  eapply hoare_bind; [apply hoare_onState, hoare_get | intros st].
  eapply hoare_bind.
  { eapply hoare_conseq; [apply hoare_liftOutcome | | |]; simpl.
    - intros fr H. exact H.
    - intros r fr H. exact H.
    - intros fr [_ H]. exact H. }
  intros [ref|]; [|apply hoare_ret; by intros fr [_ [_ H]]].
  set (outPath := path_join outDir filename).
  set (A := fun st' => I st' /\
              addEntry outPath outDir (scope_templates (st_scope st')) = Val (Some ref)).
  assert (HA : forall st1 st2, A st1 -> io_step st1 st2 -> A st2).
  { intros st1 st2 [HI Hadd] Hio. split; [by eapply stable_io|].
    destruct Hio as [-> _]. done. }
  assert (HAio : forall B (m : M State B), io_only m -> keeps (in_frame A) (onState m)).
  { intros B m Hm. apply hoare_onState. by apply io_only_keeps. }
  eapply hoare_conseq with (I' := in_frame A) (Q' := fun _ => in_frame I) (E' := in_frame I);
    [ | | done | done ].
  2: { intros fr [Hadd [-> HI]]. split; done. }
  destruct (force || negb _).
  - eapply hoare_conseq with (Q' := fun _ => in_frame I) (E' := in_frame I); [| done | done | done].
    eapply hoare_bind with (Q := fun _ => in_frame A).
    { eapply hoare_conseq; [apply HAio, io_only_say | done | done |]. by intros fr [H _]. }
    intros ?. eapply hoare_bind with (Q := fun _ => in_frame A).
    { eapply hoare_conseq; [apply HAio, io_only_result | done | done |]. by intros fr [H _]. }
    intros result. eapply hoare_bind with (Q := fun _ => in_frame A).
    { eapply hoare_conseq; [apply HAio, io_only_findTemplateM | done | done |]. by intros fr [H _]. }
    intros existing. eapply hoare_bind with (Q := fun _ => in_frame A).
    { eapply hoare_conseq; [apply HAio, io_only_get | done | done |]. by intros fr [H _]. }
    intros st2. eapply hoare_bind with (Q := fun _ => in_frame A).
    { intros fr Hfr. by destruct (fs_ensureDir _ _ _); [|destruct Hfr]. }
    intros fs1. eapply hoare_bind with (Q := fun _ => in_frame A).
    { eapply hoare_conseq; [apply HAio, io_only_set_fs | done | done |]. by intros fr [H _]. }
    intros ?. eapply hoare_bind with (Q := fun _ => in_frame A).
    { intros fr Hfr. by destruct (fs_writeFile _ _ _ _); [|destruct Hfr]. }
    intros fs2. eapply hoare_bind with (Q := fun _ => in_frame A).
    { eapply hoare_conseq; [apply HAio, io_only_set_fs | done | done |]. by intros fr [H _]. }
    intros ?. apply hoare_onState. apply keeps_pushRef.
  - eapply hoare_conseq; [apply HAio, io_only_say | done | |]; by intros; destruct H.
Qed.

Lemma keeps_entities f : keeps I (processTemplate_entities f).
Proof.
  unfold processTemplate_entities. destruct (has_section f "entities"); [|by apply hoare_ret].
  eapply hoare_bind; [apply hoare_get | intros st].
  destruct (lookup_property _ _) as [prop|] eqn:Hprop; [|apply hoare_throw; by intros s [_ H]].
  destruct (prop_entities prop) eqn:Hent; [apply hoare_ret; by intros s [_ H]|].
  set (B := fun st' => I st' /\
              lookup_property (scope_property (st_scope st')) (scope_schema (st_scope st'))
              = Some prop).
  assert (HB : forall st1 st2, B st1 -> io_step st1 st2 -> B st2).
  { intros st1 st2 [HI Hl] Hio. split; [by eapply stable_io|].
    destruct Hio as [Hs _]. by rewrite Hs. }
  assert (Hattach : forall l,
            hoare B (update_scope (fun sc =>
                       set_scope_schema (attach_entities (scope_property sc) l (scope_schema sc)) sc))
                  (fun _ => I) I).
  { intros l. apply hoare_modify. intros s [HI Hl]. by eapply stable_attach. }
  eapply hoare_conseq with (I' := B) (Q' := fun _ => I) (E' := I); [| |done|done].
  2: { intros s [-> HI]. by split. }
  eapply hoare_bind with (Q := fun _ => B).
  { eapply hoare_conseq;
      [apply (io_only_keeps B); [apply io_only_evaluateTemplate | exact HB]
      | done | done |].
    by intros s [H _]. }
  intros [s|l|].
  - destruct (String.eqb s ""); [apply hoare_ret; by intros ? [H _] | apply Hattach].
  - apply Hattach.
  - apply hoare_ret. by intros ? [H _].
Qed.

Lemma keeps_templates self f templateDirs outDir force :
  (forall generate, keeps I (self generate templateDirs outDir force false)) ->
  keeps I (processTemplate_templates self f templateDirs outDir force).
Proof.
  intros Hself. unfold processTemplate_templates.
  destruct (has_section f "templates"); [|by apply hoare_ret].
  eapply hoare_bind with (Q := fun _ => I); [apply keeps_io, io_only_evaluateTemplate | intros r].
  eapply hoare_bind with (Q := fun _ => I).
  { destruct r; (apply hoare_ret || apply hoare_throw); done. }
  intros generated. apply hoare_forEach. intros generate.
  eapply hoare_bind with (Q := fun _ => I); [apply Hself | intros ?; by apply hoare_ret].
Qed.

Lemma keeps_try self templateName templateDirs outDir force ignorable :
  (forall generate, keeps I (self generate templateDirs outDir force false)) ->
  keeps (in_frame I)
    (processTemplate_try self templateName templateDirs outDir force ignorable).
Proof.
  intros Hself. unfold processTemplate_try.
  eapply hoare_bind; [apply hoare_onState, hoare_get | intros st].
  destruct (existingRef templateName (scope_templates (st_scope st)))
    as [[ref tracker]|e] eqn:Href; [|apply hoare_throw; by intros fr [_ H]].
  cbn [liftOutcome]. apply hoare_bind_ret. cbn [fst snd].
  eapply hoare_bind with (Q := fun _ => in_frame I).
  { apply hoare_onState. apply hoare_modify. intros s [-> HI].
    by apply (stable_existingRef s templateName ref tracker HI). }
  intros ?. destruct ref as [ref|]; [apply keeps_setOutPath|].
  eapply hoare_bind with (Q := fun _ => in_frame I);
    [apply keeps_frame_io, io_only_findTemplateM | intros template].
  destruct template as [template|].
  - destruct (template_truthy template); [|by apply hoare_ret].
    eapply hoare_bind with (Q := fun _ => in_frame I).
    + destruct template as [s|f]; [apply keeps_output|].
      destruct (has_section f "template"); [apply keeps_output | by apply hoare_ret].
    + intros ?. destruct template as [s|f]; [by apply hoare_ret|].
      eapply hoare_bind with (Q := fun _ => in_frame I).
      * apply hoare_onState, keeps_entities.
      * intros ?. by apply hoare_onState, keeps_templates.
  - destruct (negb ignorable); [apply keeps_frame_io, io_only_say | by apply hoare_ret].
Qed.

Lemma keeps_call self templateName templateDirs outDir force ignorable :
  (forall generate, keeps I (self generate templateDirs outDir force false)) ->
  hoare I (processTemplate_call self templateName templateDirs outDir force ignorable)
    (fun _ => I) (fun _ => False).
Proof.
  intros Hself st HI. unfold processTemplate_call, tryFinally, tryCatch.
  pose proof (keeps_try self templateName templateDirs outDir force ignorable Hself
                {| fr_state := st; fr_outPath := "" |} HI) as Htry.
  destruct (processTemplate_try _ _ _ _ _ _ _) as [[] fr|e fr|]; [| |done].
  - simpl. eapply stable_io; [exact Htry|]. by split.
  - simpl. eapply stable_io; [exact Htry|]. split; [done|]. by apply prefix_app_r.
Qed.

Lemma keeps_processTemplate fuel templateName templateDirs outDir force ignorable :
  hoare I (processTemplate fuel templateName templateDirs outDir force ignorable)
    (fun _ => I) (fun _ => False).
Proof.
  revert templateName ignorable. induction fuel as [|fuel IH]; intros templateName ignorable.
  - by intros st HI.
  - simpl. apply keeps_call. intros generate.
    eapply hoare_conseq; [apply IH | done | done | done].
Qed.

End Generic.

Lemma hoare_forEach_E {S A} (I : S -> Prop) (E : S -> Prop) (l : list A) (f : A -> M S unit) :
  (forall x, hoare I (f x) (fun _ => I) E) -> hoare I (forEach l f) (fun _ => I) E.
Proof.
  intros Hf. induction l as [|x l IH]; simpl.
  - by apply hoare_ret.
  - eapply hoare_bind with (Q := fun _ => I); [apply Hf | intros ?; apply IH].
Qed.

Lemma hoare_get_keeps {S} (I : S -> Prop) E : hoare I get (fun _ => I) E.
Proof. by intros s Hs. Qed.

Section Generic.
Context (I : State -> Prop) (Hstable : Stable I) (Hrun : run_invariant I).

Lemma hoare_update_settings (f : Scope -> Scope) E :
  (forall sc, scope_templates (f sc) = scope_templates sc) ->
  (forall sc, scope_schema (f sc) = scope_schema sc) ->
  hoare I (update_scope f) (fun _ => I) E.
Proof.
  intros Ht Hs. apply hoare_modify. intros st HI.
  eapply Hrun; [exact HI | done | apply Ht | apply Hs].
Qed.

Lemma hoare_call fuel generate templateDirs outDir force ignorable :
  hoare I (processTemplate fuel generate templateDirs outDir force ignorable >> ret tt)
    (fun _ => I) (fun _ => False).
Proof.
  eapply hoare_bind with (Q := fun _ => I); [by apply keeps_processTemplate|].
  intros ?. by apply hoare_ret.
Qed.

Lemma hoare_templates fuel templateDirs outDir force path prop0 :
  hoare I (processTemplates_templates (processTemplate fuel) templateDirs outDir force path prop0)
    (fun _ => I) (fun _ => False).
Proof.
  unfold processTemplates_templates.
  eapply hoare_bind with (Q := fun _ => I); [apply hoare_get_keeps|].
  intros st.
  eapply hoare_bind with (Q := fun _ => I); [by apply hoare_update_settings|]. intros ?.
  eapply hoare_bind with (Q := fun _ => I); [by apply hoare_update_settings|]. intros ?.
  apply hoare_forEach_E. intros template. apply hoare_call.
Qed.

Lemma hoare_entityTemplates fuel templateDirs outDir force entities :
  hoare I (processTemplates_entityTemplates (processTemplate fuel) templateDirs outDir force
             entities)
    (fun _ => I) (fun _ => False).
Proof.
  unfold processTemplates_entityTemplates. apply hoare_forEach_E. intros entity.
  eapply hoare_bind with (Q := fun _ => I); [by apply hoare_update_settings|]. intros ?.
  eapply hoare_bind with (Q := fun _ => I); [apply hoare_get_keeps|].
  intros st1. apply hoare_call.
Qed.

Lemma hoare_entities fuel templateDirs outDir force path prop0 :
  hoare I (processTemplates_entities (processTemplate fuel) templateDirs outDir force path prop0)
    (fun _ => I) (fun _ => False).
Proof.
  unfold processTemplates_entities.
  eapply hoare_bind with (Q := fun _ => I); [apply hoare_get_keeps|].
  intros st. destruct (prop_entities _) as [entities|].
  - destruct (prop_templates _); [by apply hoare_ret | apply hoare_entityTemplates].
  - apply hoare_modify. intros s HI. eapply stable_io; [exact HI|].
    split; [done|]. by apply prefix_app_r.
Qed.

Lemma hoare_property fuel templateDirs outDir force path prop0 :
  hoare I (processTemplates_property (processTemplate fuel) templateDirs outDir force path prop0)
    (fun _ => I) (fun _ => False).
Proof.
  unfold processTemplates_property.
  eapply hoare_bind with (Q := fun _ => I); [apply hoare_templates|].
  intros ?. apply hoare_entities.
Qed.

Lemma hoare_top fuel templateDirs outDir force :
  hoare I
    (let* st := get in
     let schema := scope_schema (st_scope st) in
     match schema_templates schema with
     | Some templates =>
         update_scope (set_scope_entities (Some (schema_entityTypes schema))) >>
         forEach templates (fun templateName =>
           processTemplate fuel templateName templateDirs outDir force false >> ret tt)
     | None => ret tt
     end)
    (fun _ => I) (fun _ => False).
Proof.
  eapply hoare_bind with (Q := fun _ => I); [apply hoare_get_keeps|].
  intros st1. cbn zeta. destruct (schema_templates _); [|by apply hoare_ret].
  eapply hoare_bind with (Q := fun _ => I); [by apply hoare_update_settings|]. intros ?.
  apply hoare_forEach_E. intros templateName. apply hoare_call.
Qed.

Lemma hoare_locale fuel templateDirs outDir force locale :
  hoare I (processTemplates_locale fuel templateDirs outDir force locale)
    (fun _ => I) (fun _ => False).
Proof.
  unfold processTemplates_locale.
  eapply hoare_bind with (Q := fun _ => I); [by apply hoare_update_settings|]. intros ?.
  eapply hoare_bind with (Q := fun _ => I); [apply hoare_get_keeps|].
  intros st.
  eapply hoare_bind with (Q := fun _ => I).
  { apply hoare_forEach_E. intros property. apply hoare_property. }
  intros ?. apply hoare_top.
Qed.

Lemma hoare_processTemplates (Pre : State -> Prop) fuel templateDirs locales outDir force :
  (forall st, Pre st -> I (set_scope (set_scope_templates ∅ (st_scope st)) st)) ->
  hoare Pre (processTemplates fuel templateDirs locales outDir force)
    (fun _ => I) (fun _ => False).
Proof.
  intros Hreset. unfold processTemplates.
  eapply hoare_bind with (Q := fun _ => I).
  { apply hoare_modify. exact Hreset. }
  intros ?. apply hoare_forEach_E. intros locale. apply hoare_locale.
Qed.
End Generic.
End InvariantRules.

Section RunInvariants.
Context `{P : Platform}.


Lemma tracker_grows_refl (t : Tracker) : tracker_grows t t.
Proof. intros ext arr H. by exists arr. Qed.

Lemma tracker_grows_trans (t1 t2 t3 : Tracker) :
  tracker_grows t1 t2 -> tracker_grows t2 t3 -> tracker_grows t1 t3.
Proof.
  intros H12 H23 ext arr H. destruct (H12 ext arr H) as [arr2 [H2 Hp2]].
  destruct (H23 ext arr2 H2) as [arr3 [H3 Hp3]]. exists arr3. split; [done|]. by etrans.
Qed.

Lemma existingRef_tracker name (t : Tracker) found t' :
  existingRef name t = Val (found, t') ->
  t' =
  match t !! substring1 (path_extname name) with
  | Some _ => t
  | None => <[substring1 (path_extname name) := []]> t
  end.
Proof.
  unfold existingRef. destruct (t !! _); [by intros [= _ <-]|].
  destruct (inherited _); [done | by intros [= _ <-]].
Qed.

Lemma tracker_grows_existingRef name (t : Tracker) found t' :
  existingRef name t = Val (found, t') -> tracker_grows t t'.
Proof.
  intros ->%existingRef_tracker.
  destruct (t !! substring1 (path_extname name)) eqn:Hext; [apply tracker_grows_refl|].
  intros ext arr H. exists arr. split; [|done].
  rewrite lookup_insert_ne; [done|]. intros <-. congruence.
Qed.

Lemma tracker_grows_push ext arr ref (t : Tracker) :
  t !! ext = Some arr -> tracker_grows t (<[ext := arr ++ [ref]]> t).
Proof.
  intros Hext k arr0 H. destruct (decide (ext = k)) as [<-|Hne].
  - rewrite lookup_insert_eq. eexists. split; [done|].
    assert (arr0 = arr) as -> by congruence. by apply prefix_app_r.
  - rewrite lookup_insert_ne by done. by exists arr0.
Qed.

Lemma run_extends_refl st : run_extends st st.
Proof. repeat split; try done. apply tracker_grows_refl. Qed.

Lemma run_extends_trans st1 st2 st3 :
  run_extends st1 st2 -> run_extends st2 st3 -> run_extends st1 st3.
Proof.
  intros (Hl1 & Ht1 & Hs1 & Hd1) (Hl2 & Ht2 & Hs2 & Hd2). split; [by etrans|].
  split; [by eapply tracker_grows_trans|]. split.
  - unfold same_settings in *. intuition congruence.
  - unfold same_declarations in *. intuition congruence.
Qed.

Lemma declared_attach path entities (s : Schema) :
  same_declarations s (attach_entities path entities s).
Proof.
  split; [done|]. split; [done|]. simpl.
  induction (schema_properties s) as [|kv l IH]; simpl; [done|].
  rewrite IH. f_equal. by destruct (String.eqb kv.1 path).
Qed.

Lemma run_extends_stable st0 : Stable (run_extends st0).
Proof.
  split.
  - intros st st' H [Hs Hl]. eapply run_extends_trans; [exact H|].
    split; [done|]. rewrite Hs. repeat split; try done. apply tracker_grows_refl.
  - intros st name found tracker H Href. eapply run_extends_trans; [exact H|].
    split; [done|]. split; [by eapply tracker_grows_existingRef|]. repeat split; done.
  - intros st outPath outDir ref arr H _ Harr. eapply run_extends_trans; [exact H|].
    split; [done|]. split; [by apply tracker_grows_push|]. repeat split; done.
  - intros st prop entities H _ _. eapply run_extends_trans; [exact H|].
    split; [done|]. split; [apply tracker_grows_refl|]. split; [repeat split; done|].
    apply declared_attach.
Qed.

Lemma addEntry_fresh_name outPath outDir (t : Tracker) ref arr :
  addEntry outPath outDir t = Val (Some ref) ->
  t !! substring1 (path_extname outPath) = Some arr ->
  name ref ∉ name <$> arr.
Proof.
  unfold addEntry. intros Hadd Harr. rewrite Harr in Hadd.
  destruct (List.find _ arr) eqn:Hfind; [done|]. injection Hadd as <-. simpl.
  intros [r [Hname Hin]]%list_elem_of_fmap.
  apply list_elem_of_In in Hin.
  pose proof (find_none _ _ Hfind r Hin) as Hno. simpl in Hno.
  rewrite <- Hname in Hno. by rewrite String.eqb_refl in Hno.
Qed.

Lemma names_distinct_stable :
  Stable (fun st => names_distinct (scope_templates (st_scope st))).
Proof.
  split.
  - intros st st' H [Hs _]. by rewrite Hs.
  - intros st name found tracker H ->%existingRef_tracker. simpl.
    destruct (_ !! substring1 (path_extname name)) eqn:Hext; [done|].
    intros ext arr. destruct (decide (substring1 (path_extname name) = ext)) as [<-|Hne].
    + rewrite lookup_insert_eq. intros [= <-]. constructor.
    + rewrite lookup_insert_ne by done. apply H.
  - intros st outPath outDir ref arr H Hadd Harr. simpl.
    intros ext arr0. destruct (decide (substring1 (path_extname outPath) = ext)) as [<-|Hne].
    + rewrite lookup_insert_eq. intros [= <-]. rewrite fmap_app. simpl.
      apply NoDup_app. split; [by eapply H|]. split; [|apply NoDup_singleton].
      intros x Hx ->%list_elem_of_singleton.
      by eapply addEntry_fresh_name.
    + rewrite lookup_insert_ne by done. apply H.
  - intros st prop entities H _ _. done.
Qed.

Lemma lookup_attach_ne p path entities (s : Schema) :
  p <> path -> lookup_property p (attach_entities path entities s) = lookup_property p s.
Proof.
  intros Hne. unfold lookup_property, attach_entities. simpl.
  induction (schema_properties s) as [|kv l IH]; simpl; [done|].
  destruct (String.eqb kv.1 path) eqn:Hk; simpl.
  - apply String.eqb_eq in Hk.
    destruct (String.eqb kv.1 p) eqn:Hp; [apply String.eqb_eq in Hp; congruence | done].
  - destruct (String.eqb kv.1 p); done.
Qed.

Lemma entities_kept_stable p prop :
  is_Some (prop_entities prop) ->
  Stable (fun st => lookup_property p (scope_schema (st_scope st)) = Some prop).
Proof.
  intros Hsome. split.
  - intros st st' H [Hs _]. by rewrite Hs.
  - intros st name found tracker H _. done.
  - intros st outPath outDir ref arr H _ _. done.
  - intros st prop' entities H Hl Hnone. simpl.
    destruct (decide (p = scope_property (st_scope st))) as [->|Hne].
    + rewrite H in Hl. injection Hl as ->. rewrite Hnone in Hsome. by destruct Hsome.
    + by rewrite lookup_attach_ne.
Qed.


Lemma same_declarations_trans s1 s2 s3 :
  same_declarations s1 s2 -> same_declarations s2 s3 -> same_declarations s1 s3.
Proof. unfold same_declarations. intuition congruence. Qed.

Lemma log_prefix_stable st0 : Stable (fun st => st_log st0 `prefix_of` st_log st).
Proof.
  split; try done. intros st st' H [_ Hl]. by etrans.
Qed.

Lemma declarations_stable s0 :
  Stable (fun st => same_declarations s0 (scope_schema (st_scope st))).
Proof.
  split; try done.
  - intros st st' H [Hs _]. by rewrite Hs.
  - intros st prop entities H _ _. simpl.
    eapply same_declarations_trans; [exact H | apply declared_attach].
Qed.

(** X12. Whenever [processTemplate] returns, it has only added to the
    state it started from: the feedback received before is the beginning of
    the feedback afterwards, every array of the tracker is the beginning of
    the array now under the same extension, the members of the scope other
    than the tracker and the schema are the same, and the schema declares
    the same properties with the same types and [$templates]. *)
Theorem processTemplate_run_extends fuel templateName templateDirs outDir force ignorable st :
  match processTemplate fuel templateName templateDirs outDir force ignorable st with
  | Ret _ st' => run_extends st st'
  | Exn _ _ => False
  | Diverge => True
  end.
Proof.
  exact (keeps_processTemplate (run_extends st) (run_extends_stable st) fuel templateName
           templateDirs outDir force ignorable st (run_extends_refl st)).
Qed.

(** X13. If no two files tracked under one extension have the same [name]
    when [processTemplate] is called, none have when it returns. *)
Theorem processTemplate_keeps_names_distinct
    fuel templateName templateDirs outDir force ignorable st :
  names_distinct (scope_templates (st_scope st)) ->
  match processTemplate fuel templateName templateDirs outDir force ignorable st with
  | Ret _ st' => names_distinct (scope_templates (st_scope st'))
  | Exn _ _ => False
  | Diverge => True
  end.
Proof.
  intros Hd.
  exact (keeps_processTemplate _ names_distinct_stable fuel templateName
           templateDirs outDir force ignorable st Hd).
Qed.

(** X14. [processTemplates] never throws: every failure inside it ends up
    in the feedback, and the feedback received before the call is the
    beginning of the feedback after it. *)
Theorem processTemplates_never_throws fuel templateDirs locales outDir force st :
  match processTemplates fuel templateDirs locales outDir force st with
  | Ret _ st' => st_log st `prefix_of` st_log st'
  | Exn _ _ => False
  | Diverge => True
  end.
Proof.
  apply (hoare_processTemplates _ (log_prefix_stable st)) with (Pre := fun st0 => st0 = st);
    [|by intros st0 ->|done].
  intros st1 st2 H Hl _ _. by rewrite Hl.
Qed.

(** X15. When [processTemplates] returns, no two files tracked under one
    extension have the same [name], whatever the tracker held before. *)
Theorem processTemplates_names_distinct fuel templateDirs locales outDir force st :
  match processTemplates fuel templateDirs locales outDir force st with
  | Ret _ st' => names_distinct (scope_templates (st_scope st'))
  | Exn _ _ => False
  | Diverge => True
  end.
Proof.
  apply (hoare_processTemplates _ names_distinct_stable) with (Pre := fun _ => True);
    [| |done].
  - intros st1 st2 H _ Ht _. by rewrite Ht.
  - intros st0 _ ext arr. simpl. by rewrite lookup_empty.
Qed.

(** X16. [processTemplates] changes the schema only by attaching entities
    to properties that have none: afterwards the schema declares the same
    properties with the same types and [$templates], and a property that
    had [$entities] has the same ones. *)
Theorem processTemplates_only_attaches_entities fuel templateDirs locales outDir force st :
  match processTemplates fuel templateDirs locales outDir force st with
  | Ret _ st' =>
      same_declarations (scope_schema (st_scope st)) (scope_schema (st_scope st')) /\
      forall path prop,
        lookup_property path (scope_schema (st_scope st)) = Some prop ->
        is_Some (prop_entities prop) ->
        lookup_property path (scope_schema (st_scope st')) = Some prop
  | Exn _ _ => False
  | Diverge => True
  end.
Proof.
  assert (Hrun : run_invariant
                   (fun st0 => same_declarations (scope_schema (st_scope st))
                                 (scope_schema (st_scope st0)))).
  { intros st1 st2 H _ _ Hs. by rewrite Hs. }
  pose proof (hoare_processTemplates _ (declarations_stable (scope_schema (st_scope st)))
                Hrun (fun st0 => st0 = st) fuel templateDirs locales outDir force) as Hdecl.
  assert (Hkept : forall path prop,
            lookup_property path (scope_schema (st_scope st)) = Some prop ->
            is_Some (prop_entities prop) ->
            match processTemplates fuel templateDirs locales outDir force st with
            | Ret _ st' => lookup_property path (scope_schema (st_scope st')) = Some prop
            | Exn _ _ => False
            | Diverge => True
            end).
  { intros path prop Hl Hsome.
    apply (hoare_processTemplates _ (entities_kept_stable path prop Hsome))
      with (Pre := fun st0 => st0 = st); [|by intros st0 ->|done].
    intros st1 st2 H _ _ Hs. by rewrite Hs. }
  specialize (Hdecl ltac:(by intros st0 ->) st eq_refl).
  destruct (processTemplates fuel templateDirs locales outDir force st) as [[] st'|e st'|];
    [|done|done].
  split; [exact Hdecl|]. intros path prop Hl Hsome. exact (Hkept path prop Hl Hsome).
Qed.

End RunInvariants.

(** ** Whole runs of the orchestrator *)

Section OrchestrationRuns.
Context `{P : Platform}.

Lemma same_type_refl t : same_type t t = true.
Proof. by destruct t. Qed.

Lemma occurrences_app entry (l l' : Log) :
  occurrences entry (l ++ l') = occurrences entry l + occurrences entry l'.
Proof. unfold occurrences. by rewrite List.filter_app, length_app. Qed.

Lemma occurrences_self entry : occurrences entry [entry] = 1.
Proof.
  unfold occurrences. simpl. by rewrite same_type_refl, String.eqb_refl.
Qed.

Lemma occurrences_prefix entry (l l' : Log) :
  l `prefix_of` l' -> occurrences entry l <= occurrences entry l'.
Proof. intros [k ->]. rewrite occurrences_app. lia. Qed.

Lemma occurrences_elem entry (l : Log) : entry ∈ l -> 1 <= occurrences entry l.
Proof.
  intros [l1 [l2 ->]]%list_elem_of_split.
  rewrite occurrences_app. change (entry :: l2) with ([entry] ++ l2).
  rewrite occurrences_app, occurrences_self. lia.
Qed.

Lemma occurrences_flat_map {A} entry (f : A -> Log) (l : list A) n :
  (forall x, x ∈ l -> n <= occurrences entry (f x)) ->
  length l * n <= occurrences entry (flat_map f l).
Proof.
  induction l as [|x l IH]; intros Hf; simpl; [lia|].
  rewrite occurrences_app.
  pose proof (Hf x (list_elem_of_here _ _)).
  assert (length l * n <= occurrences entry (flat_map f l)).
  { apply IH. intros y Hy. apply Hf. by apply list_elem_of_further. }
  lia.
Qed.

(** [attach_entities] changes the entities of the property it is given and
    nothing else. *)
Lemma lookup_attach p path entities (s : Schema) :
  lookup_property p (attach_entities path entities s) =
  (fun prop =>
     if String.eqb p path
     then {| prop_type := prop_type prop; prop_templates := prop_templates prop;
             prop_entities := Some entities |}
     else prop) <$> lookup_property p s.
Proof.
  unfold lookup_property, attach_entities. simpl.
  induction (schema_properties s) as [|[k v] l IH]; simpl; [done|].
  destruct (String.eqb k path) eqn:Hk; simpl.
  - destruct (String.eqb k p) eqn:Hp; simpl.
    + apply String.eqb_eq in Hk, Hp. subst. by rewrite String.eqb_refl.
    + exact IH.
  - destruct (String.eqb k p) eqn:Hp; simpl.
    + apply String.eqb_eq in Hp. subst. by rewrite Hk.
    + exact IH.
Qed.

Lemma reported_stable path entry n : Stable (reported path entry n).
Proof.
  split.
  - intros st st' [Hin H] [Hs Hl]. split; [by rewrite Hs|].
    intros Hlacks. etrans; [|by apply occurrences_prefix].
    apply H. unfold lacks_entities in *. by rewrite <- Hs.
  - intros st name found tracker H _. exact H.
  - intros st outPath outDir ref arr H _ _. exact H.
  - intros st prop entities [Hin H] Hl Hnone. split.
    + simpl. rewrite lookup_attach. destruct Hin as [x ->]. by eexists.
    + intros (prop' & Hl' & Hnone'). simpl in Hl'. rewrite lookup_attach in Hl'.
      simpl. apply H.
      destruct (lookup_property path (scope_schema (st_scope st))) as [prop1|] eqn:Hp1;
        [|done].
      simpl in Hl'. injection Hl' as <-.
      destruct (String.eqb path (scope_property (st_scope st))); [done|].
      by exists prop1.
Qed.

Lemma reported_run path entry n : run_invariant (reported path entry n).
Proof.
  intros st st' [Hin H] Hl _ Hs. unfold reported, lacks_entities.
  rewrite Hs, Hl. done.
Qed.


Lemma lookup_property_elem p (s : Schema) :
  is_Some (lookup_property p s) -> p ∈ (schema_properties s).*1.
Proof.
  unfold lookup_property. intros [prop Hprop].
  destruct (List.find _ _) as [[k v]|] eqn:Hfind; [|done].
  apply find_some in Hfind as [Hin Hk]. simpl in Hk. apply String.eqb_eq in Hk as ->.
  apply list_elem_of_fmap. exists (p, v). split; [done | by apply list_elem_of_In].
Qed.

Lemma entities_step_reports fuel templateDirs outDir force path prop0 n :
  hoare (reported path (entity_error path) n)
    (processTemplates_entities (processTemplate fuel) templateDirs outDir force path prop0)
    (fun _ => reported path (entity_error path) (S n)) (fun _ => False).
Proof.
  unfold processTemplates_entities.
  eapply hoare_bind; [apply hoare_get | intros st].
  destruct (prop_entities (property_schema path prop0 st)) as [entities|] eqn:Hentities.
  - set (K := fun st' : State =>
                lookup_property path (scope_schema (st_scope st'))
                = Some (property_schema path prop0 st)).
    assert (HK : Stable K).
    { apply entities_kept_stable. by rewrite Hentities. }
    assert (HKrun : run_invariant K).
    { intros s s' H _ _ Hs. unfold K. by rewrite Hs. }
    eapply hoare_conseq with (I' := K) (Q' := fun _ => K) (E' := fun _ => False).
    + destruct (prop_templates _); [by apply hoare_ret | by apply hoare_entityTemplates].
    + intros s [-> [[prop Hprop] _]]. unfold K, property_schema. by rewrite Hprop.
    + intros _ s Hs. split; [by rewrite Hs|].
      intros (prop & Hprop & Hnone). unfold K in Hs. congruence.
    + done.
  - apply hoare_modify. intros s [-> [Hin H]]. split; [done|].
    intros Hlacks. cbn [st_log set_log]. unfold feedback.
    rewrite occurrences_app, occurrences_self. specialize (H Hlacks). lia.
Qed.

Lemma property_step_reports fuel templateDirs outDir force path prop0 n :
  hoare (reported path (entity_error path) n)
    (processTemplates_property (processTemplate fuel) templateDirs outDir force path prop0)
    (fun _ => reported path (entity_error path) (S n)) (fun _ => False).
Proof.
  unfold processTemplates_property.
  eapply hoare_bind with (Q := fun _ => reported path (entity_error path) n).
  - apply hoare_templates; [apply reported_stable | apply reported_run].
  - intros ?. apply entities_step_reports.
Qed.

Lemma properties_loop_reports fuel templateDirs outDir force path n
    (props : list (string * PropertySchema)) :
  path ∈ props.*1 ->
  hoare (reported path (entity_error path) n)
    (forEach props (fun property =>
       processTemplates_property (processTemplate fuel) templateDirs outDir force
         (fst property) (snd property)))
    (fun _ => reported path (entity_error path) (S n)) (fun _ => False).
Proof.
  induction props as [|[k v] props IH]; simpl; [by intros ?%elem_of_nil|].
  intros Hin. destruct (decide (k = path)) as [->|Hne].
  - eapply hoare_bind with (Q := fun _ => reported path (entity_error path) (S n)).
    + apply property_step_reports.
    + intros ?. apply hoare_forEach_E. intros property.
      apply hoare_property; [apply reported_stable | apply reported_run].
  - eapply hoare_bind with (Q := fun _ => reported path (entity_error path) n).
    + apply hoare_property; [apply reported_stable | apply reported_run].
    + intros ?. apply IH. apply elem_of_cons in Hin as [Heq|Hin]; [by subst | done].
Qed.

Lemma locale_reports fuel templateDirs outDir force path n locale :
  hoare (reported path (entity_error path) n)
    (processTemplates_locale fuel templateDirs outDir force locale)
    (fun _ => reported path (entity_error path) (S n)) (fun _ => False).
Proof.
  unfold processTemplates_locale.
  eapply hoare_bind with (Q := fun _ => reported path (entity_error path) n).
  { apply hoare_update_settings; [apply reported_run | done | done]. }
  intros ?. eapply hoare_bind; [apply hoare_get | intros st].
  eapply hoare_bind with (Q := fun _ => reported path (entity_error path) (S n)).
  - intros s [Heq Hs]. subst s. apply properties_loop_reports; [|exact Hs].
    apply lookup_property_elem. by destruct Hs.
  - intros ?. apply hoare_top; [apply reported_stable | apply reported_run].
Qed.

Lemma locales_report fuel templateDirs outDir force path locales :
  forall n,
    hoare (reported path (entity_error path) n)
      (forEach locales (processTemplates_locale fuel templateDirs outDir force))
      (fun _ => reported path (entity_error path) (n + length locales)) (fun _ => False).
Proof.
  induction locales as [|locale locales IH]; intros n; simpl.
  - apply hoare_ret. intros s Hs. by rewrite Nat.add_0_r.
  - eapply hoare_bind with (Q := fun _ => reported path (entity_error path) (S n)).
    + apply locale_reports.
    + intros ?. eapply hoare_conseq; [apply (IH (S n)) | done | | done].
      intros u s Hs. by replace (n + S (length locales)) with (S n + length locales) by lia.
Qed.

(** Each locale adds one report for a property that ends without
    [$entities]. *)
Lemma processTemplates_reports_each_locale fuel templateDirs locales outDir force st path :
  is_Some (lookup_property path (scope_schema (st_scope st))) ->
  match processTemplates fuel templateDirs locales outDir force st with
  | Ret _ st' =>
      lacks_entities path st' ->
      occurrences (entity_error path) (st_log st) + length locales
      <= occurrences (entity_error path) (st_log st')
  | Exn _ _ => False
  | Diverge => True
  end.
Proof.
  intros Hin.
  set (n := occurrences (entity_error path) (st_log st)).
  assert (Hrun : hoare (fun s => s = st)
                   (processTemplates fuel templateDirs locales outDir force)
                   (fun _ => reported path (entity_error path) (n + length locales))
                   (fun _ => False)).
  { unfold processTemplates.
    eapply hoare_bind with (Q := fun _ => reported path (entity_error path) n).
    - apply hoare_modify. intros s ->. split; [done|]. intros _. done.
    - intros ?. apply locales_report. }
  specialize (Hrun st eq_refl).
  destruct (processTemplates _ _ _ _ _ st) as [[] st'|e st'|]; [|done|done].
  by destruct Hrun.
Qed.


Lemma idle_run_trans r1 r2 st1 st2 st3 :
  idle_run r1 st1 st2 -> idle_run r2 st2 st3 -> idle_run (r1 ++ r2) st1 st3.
Proof.
  intros (Hl1 & Hf1 & Hc1 & Hs1 & _) (Hl2 & Hf2 & Hc2 & Hs2 & Ht2).
  split; [by rewrite Hl2, Hl1, app_assoc|].
  split; [congruence|]. split; [congruence|]. split; [congruence | exact Ht2].
Qed.

Lemma idle_step_trans r1 r2 st1 st2 st3 :
  idle_step r1 st1 st2 -> idle_step r2 st2 st3 -> idle_step (r1 ++ r2) st1 st3.
Proof.
  intros (H1 & Hp1 & Hy1) (H2 & Hp2 & Hy2).
  split; [by eapply idle_run_trans|]. split; congruence.
Qed.

Lemma tracker_idle_empty : tracker_idle ∅.
Proof. intros ext arr H. by rewrite lookup_empty in H. Qed.

(** A lookup that finds nothing, in a tracker that holds nothing. *)
Lemma lookup_idle fuel name templateDirs outDir force st :
  tracker_idle (scope_templates (st_scope st)) ->
  findTemplate name templateDirs (st_fs st) (st_cwd st) = Val None ->
  exists st',
    processTemplate (S fuel) name templateDirs outDir force false st = Ret "" st' /\
    idle_step [lookup_report name] st st'.
Proof.
  intros Hidle Hfind. unfold lookup_report.
  destruct (scope_templates (st_scope st) !! substring1 (path_extname name))
    as [arr|] eqn:Hext.
  - destruct (Hidle _ _ Hext) as [-> Hinh]. rewrite Hinh.
    eexists. split.
    + apply processTemplate_missing_template with (tracker := scope_templates (st_scope st));
        [|done].
      unfold existingRef. by rewrite Hext.
    + cbn zeta. split; [|done]. do 4 (split; [done|]). exact Hidle.
  - destruct (inherited _) eqn:Hinh.
    + eexists. split.
      * apply processTemplate_lookup_throws. unfold existingRef. by rewrite Hext, Hinh.
      * split; [|done]. do 4 (split; [done|]). exact Hidle.
    + eexists. split.
      * apply processTemplate_missing_template; [|done].
        unfold existingRef. by rewrite Hext, Hinh.
      * cbn zeta. split; [|done]. do 4 (split; [done|]). simpl. intros ext arr.
        destruct (decide (substring1 (path_extname name) = ext)) as [<-|Hne].
        -- rewrite lookup_insert_eq. by intros [= <-].
        -- rewrite lookup_insert_ne by done. apply Hidle.
Qed.

Lemma lookups_idle fuel templateDirs outDir force names :
  forall st,
    tracker_idle (scope_templates (st_scope st)) ->
    Forall (fun name => findTemplate name templateDirs (st_fs st) (st_cwd st) = Val None)
      names ->
    exists st',
      forEach names (fun name =>
        processTemplate (S fuel) name templateDirs outDir force false >> ret tt) st
      = Ret tt st' /\
      idle_step (map lookup_report names) st st'.
Proof.
  induction names as [|name names IH]; intros st Hidle Hnone; cbn [forEach map].
  - eexists. split; [done|]. split; [|done].
    split; [by rewrite app_nil_r|]. do 3 (split; [done|]). exact Hidle.
  - apply Forall_cons in Hnone as [Hname Hnames].
    destruct (lookup_idle fuel name templateDirs outDir force st Hidle Hname)
      as (st1 & Hrun1 & Hstep1).
    destruct (IH st1) as (st2 & Hrun2 & Hstep2).
    + by destruct Hstep1 as [(_ & _ & _ & _ & ?) _].
    + destruct Hstep1 as [(_ & -> & -> & _) _]. exact Hnames.
    + exists st2. split.
      * unfold bind at 1. unfold bind at 1. rewrite Hrun1. exact Hrun2.
      * exact (idle_step_trans _ _ _ _ _ Hstep1 Hstep2).
Qed.

Lemma entityTemplate_ext entityName (sc sc' : Scope) :
  scope_property sc' = scope_property sc -> scope_type sc' = scope_type sc ->
  entityTemplate entityName sc' = entityTemplate entityName sc.
Proof. unfold entityTemplate. by intros -> ->. Qed.

Lemma entity_lookups_idle fuel templateDirs outDir force entities :
  forall st,
    tracker_idle (scope_templates (st_scope st)) ->
    Forall (fun name => findTemplate name templateDirs (st_fs st) (st_cwd st) = Val None)
      (map (fun entity => entityTemplate (hd "" (split_colon entity)) (st_scope st)) entities) ->
    exists st',
      processTemplates_entityTemplates (processTemplate (S fuel)) templateDirs outDir force
        entities st = Ret tt st' /\
      idle_step
        (map (fun entity =>
                lookup_report (entityTemplate (hd "" (split_colon entity)) (st_scope st)))
             entities)
        st st'.
Proof.
  unfold processTemplates_entityTemplates.
  induction entities as [|entity entities IH]; intros st Hidle Hnone; cbn [forEach map] in *.
  - eexists. split; [done|]. split; [|done].
    split; [by rewrite app_nil_r|]. do 3 (split; [done|]). exact Hidle.
  - apply Forall_cons in Hnone as [Hname Hnames].
    set (st0 := set_scope (set_scope_role (split_colon entity !! 1) (st_scope st)) st).
    destruct (lookup_idle fuel (entityTemplate (hd "" (split_colon entity)) (st_scope st0))
                templateDirs outDir force st0 Hidle Hname)
      as (st1 & Hrun1 & Hstep1).
    assert (Hsame : forall e,
              entityTemplate e (st_scope st1) = entityTemplate e (st_scope st)).
    { intros e. destruct Hstep1 as (_ & Hp & Hy). by apply entityTemplate_ext. }
    destruct (IH st1) as (st2 & Hrun2 & Hstep2).
    + by destruct Hstep1 as [(_ & _ & _ & _ & ?) _].
    + destruct Hstep1 as [(_ & -> & -> & _) _].
      rewrite Forall_map in Hnames |- *.
      eapply Forall_impl; [exact Hnames|]. intros e He. simpl in *. by rewrite Hsame.
    + exists st2. split.
      * assert (Hbody :
          (update_scope (set_scope_role (split_colon entity !! 1)) >>
           let* st := get in
           processTemplate (S fuel)
             (entityTemplate (hd "" (split_colon entity)) (st_scope st))
             templateDirs outDir force false >> ret tt) st = Ret tt st1).
        { unfold bind, update_scope, modify, get. fold st0. by rewrite Hrun1. }
        unfold bind at 1. rewrite Hbody. exact Hrun2.
      * eapply idle_step_trans in Hstep2; [|exact Hstep1].
        rewrite (map_ext _ _ (fun e => f_equal lookup_report (Hsame (hd "" (split_colon e)))))
          in Hstep2.
        exact Hstep2.
Qed.


Lemma idle_run_refl st :
  tracker_idle (scope_templates (st_scope st)) -> idle_run [] st st.
Proof. intros Hidle. split; [by rewrite app_nil_r|]. by do 3 (split; [done|]). Qed.

Lemma entities_idle fuel templateDirs outDir force (sc : Scope) kv st :
  let s := scope_schema (st_scope st) in
  scope_property (st_scope st) = fst kv ->
  scope_type (st_scope st) = prop_type (stored s kv) ->
  tracker_idle (scope_templates (st_scope st)) ->
  Forall (fun name => findTemplate name templateDirs (st_fs st) (st_cwd st) = Val None)
    (property_entityTemplates sc (fst kv) (stored s kv)) ->
  exists st',
    processTemplates_entities (processTemplate (S fuel)) templateDirs outDir force
      (fst kv) (snd kv) st = Ret tt st' /\
    idle_run
      match prop_entities (stored s kv) with
      | None => [entity_error (fst kv)]
      | Some _ => map lookup_report (property_entityTemplates sc (fst kv) (stored s kv))
      end
      st st'.
Proof.
  intros s Hproperty Htype Hidle Hnone.
  unfold processTemplates_entities, bind at 1, get.
  change (property_schema (fst kv) (snd kv) st) with (stored s kv).
  unfold property_entityTemplates in *.
  destruct (prop_entities (stored s kv)) as [entities|].
  - destruct (prop_templates (stored s kv)).
    + eexists. split; [done|]. by apply idle_run_refl.
    + assert (Hsame : forall e,
                entityTemplate e
                  (set_scope_type (prop_type (stored s kv)) (set_scope_property (fst kv) sc))
                = entityTemplate e (st_scope st)).
      { intros e. apply entityTemplate_ext; simpl; congruence. }
      destruct (entity_lookups_idle fuel templateDirs outDir force entities st Hidle)
        as (st' & Hrun & Hstep).
      * rewrite Forall_map in Hnone |- *.
        eapply Forall_impl; [exact Hnone|]. intros e He. simpl in *. by rewrite <- Hsame.
      * exists st'. split; [exact Hrun|]. destruct Hstep as [Hstep _].
        rewrite map_map.
        rewrite (map_ext _ _ (fun e => f_equal lookup_report (Hsame (hd "" (split_colon e))))).
        exact Hstep.
  - eexists. split; [done|]. by do 4 (split; [done|]).
Qed.

Lemma property_idle fuel templateDirs outDir force (sc : Scope) kv st :
  let s := scope_schema (st_scope st) in
  tracker_idle (scope_templates (st_scope st)) ->
  Forall (fun name => findTemplate name templateDirs (st_fs st) (st_cwd st) = Val None)
    (property_templates (stored s kv) ++ property_entityTemplates sc (fst kv) (stored s kv)) ->
  exists st',
    processTemplates_property (processTemplate (S fuel)) templateDirs outDir force
      (fst kv) (snd kv) st = Ret tt st' /\
    idle_run (property_report sc s kv) st st'.
Proof.
  intros s Hidle Hnone. apply Forall_app in Hnone as [Htemplates Hentities].
  set (st_a := set_scope
                 (set_scope_type (prop_type (stored s kv))
                    (set_scope_property (fst kv) (st_scope st))) st).
  destruct (lookups_idle fuel templateDirs outDir force (property_templates (stored s kv))
              st_a Hidle Htemplates) as (st_b & Hrun_b & Hstep_b).
  assert (Ht : processTemplates_templates (processTemplate (S fuel)) templateDirs outDir force
                 (fst kv) (snd kv) st = Ret tt st_b) by exact Hrun_b.
  destruct Hstep_b as [Hrun_ab [Hproperty Htype]].
  pose proof Hrun_ab as (Hlog & Hfs & Hcwd & Hschema & Hidle_b).
  destruct (entities_idle fuel templateDirs outDir force sc kv st_b) as (st' & Hrun & Hstep).
  - by rewrite Hproperty.
  - by rewrite Htype, Hschema.
  - exact Hidle_b.
  - rewrite Hfs, Hcwd, Hschema. exact Hentities.
  - exists st'. split.
    + unfold processTemplates_property, bind. by rewrite Ht.
    + rewrite Hschema in Hstep. exact (idle_run_trans _ _ _ _ _ Hrun_ab Hstep).
Qed.

Lemma properties_idle fuel templateDirs outDir force (sc : Scope) (s : Schema) props :
  forall st,
    scope_schema (st_scope st) = s ->
    tracker_idle (scope_templates (st_scope st)) ->
    Forall (fun name => findTemplate name templateDirs (st_fs st) (st_cwd st) = Val None)
      (flat_map (fun kv => property_templates (stored s kv)
                           ++ property_entityTemplates sc (fst kv) (stored s kv)) props) ->
    exists st',
      forEach props (fun property =>
        processTemplates_property (processTemplate (S fuel)) templateDirs outDir force
          (fst property) (snd property)) st = Ret tt st' /\
      idle_run (flat_map (property_report sc s) props) st st'.
Proof.
  induction props as [|kv props IH]; intros st Hs Hidle Hnone; cbn [forEach flat_map] in *.
  - eexists. split; [done|]. by apply idle_run_refl.
  - apply Forall_app in Hnone as [Hkv Hprops]. subst s.
    destruct (property_idle fuel templateDirs outDir force sc kv st Hidle Hkv)
      as (st1 & Hrun1 & Hstep1).
    pose proof Hstep1 as (_ & Hfs & Hcwd & Hschema & Hidle1).
    destruct (IH st1) as (st2 & Hrun2 & Hstep2); [done | done | by rewrite Hfs, Hcwd |].
    exists st2. split.
    + unfold bind. by rewrite Hrun1.
    + exact (idle_run_trans _ _ _ _ _ Hstep1 Hstep2).
Qed.

Lemma locale_idle fuel templateDirs outDir force (sc : Scope) locale st :
  let s := scope_schema (st_scope st) in
  tracker_idle (scope_templates (st_scope st)) ->
  Forall (fun name => findTemplate name templateDirs (st_fs st) (st_cwd st) = Val None)
    (schema_names sc s) ->
  exists st',
    processTemplates_locale (S fuel) templateDirs outDir force locale st = Ret tt st' /\
    idle_run (schema_report sc s) st st'.
Proof.
  intros s Hidle Hnone. apply Forall_app in Hnone as [Hprops Htop].
  set (st_a := set_scope (set_scope_locale locale (st_scope st)) st).
  destruct (properties_idle fuel templateDirs outDir force sc s (schema_properties s) st_a
              eq_refl Hidle Hprops) as (st_b & Hrun_b & Hstep_b).
  pose proof Hstep_b as (Hlog & Hfs & Hcwd & Hschema & Hidle_b).
  assert (Htopidle : exists st',
            (let* st := get in
             let schema := scope_schema (st_scope st) in
             match schema_templates schema with
             | Some templates =>
                 update_scope (set_scope_entities (Some (schema_entityTypes schema))) >>
                 forEach templates (fun templateName =>
                   processTemplate (S fuel) templateName templateDirs outDir force false
                   >> ret tt)
             | None => ret tt
             end) st_b = Ret tt st' /\
            idle_run (map lookup_report (default [] (schema_templates s))) st_b st').
  { unfold bind at 1, get. cbn zeta. rewrite Hschema.
    change (scope_schema (st_scope st_a)) with s.
    destruct (schema_templates s) as [templates|]; simpl default in *.
    - set (st_c := set_scope (set_scope_entities (Some (schema_entityTypes s)) (st_scope st_b))
                     st_b).
      destruct (lookups_idle fuel templateDirs outDir force templates st_c)
        as (st' & Hrun & Hstep);
        [exact Hidle_b
        | subst st_c; cbn [st_fs st_cwd set_scope]; rewrite Hfs, Hcwd; exact Htop |].
      exists st'. split; [exact Hrun | by destruct Hstep].
    - eexists. split; [done|]. by apply idle_run_refl. }
  destruct Htopidle as (st' & Hrun & Hstep).
  exists st'. split.
  - unfold processTemplates_locale.
    unfold bind at 1. unfold update_scope at 1, modify. fold st_a.
    unfold bind at 1. unfold get at 1.
    unfold bind at 1. change (scope_schema (st_scope st_a)) with s.
    rewrite Hrun_b. exact Hrun.
  - exact (idle_run_trans _ _ _ _ _ Hstep_b Hstep).
Qed.

Lemma locales_idle fuel templateDirs outDir force (sc : Scope) (s : Schema) locales :
  forall st,
    scope_schema (st_scope st) = s ->
    tracker_idle (scope_templates (st_scope st)) ->
    Forall (fun name => findTemplate name templateDirs (st_fs st) (st_cwd st) = Val None)
      (schema_names sc s) ->
    exists st',
      forEach locales (processTemplates_locale (S fuel) templateDirs outDir force) st
      = Ret tt st' /\
      idle_run (flat_map (fun _ => schema_report sc s) locales) st st'.
Proof.
  induction locales as [|locale locales IH]; intros st Hs Hidle Hnone;
    cbn [forEach flat_map].
  - eexists. split; [done|]. by apply idle_run_refl.
  - subst s.
    destruct (locale_idle fuel templateDirs outDir force sc locale st Hidle Hnone)
      as (st1 & Hrun1 & Hstep1).
    pose proof Hstep1 as (_ & Hfs & Hcwd & Hschema & Hidle1).
    destruct (IH st1) as (st2 & Hrun2 & Hstep2); [done | done | by rewrite Hfs, Hcwd |].
    exists st2. split.
    + unfold bind. by rewrite Hrun1.
    + exact (idle_run_trans _ _ _ _ _ Hstep1 Hstep2).
Qed.

(** When none of the templates that the schema names is found, the run
    reports, once for each locale, what [schema_report] lists, and changes
    neither the files nor the schema. *)
Lemma processTemplates_nothing_found fuel templateDirs locales outDir force st :
  let sc := st_scope st in
  let s := scope_schema sc in
  Forall (fun name => findTemplate name templateDirs (st_fs st) (st_cwd st) = Val None)
    (schema_names sc s) ->
  exists st',
    processTemplates (S fuel) templateDirs locales outDir force st = Ret tt st' /\
    idle_run (flat_map (fun _ => schema_report sc s) locales) st st'.
Proof.
  intros sc s Hnone.
  set (st0 := set_scope (set_scope_templates ∅ sc) st).
  destruct (locales_idle fuel templateDirs outDir force sc s locales st0 eq_refl
              tracker_idle_empty Hnone) as (st' & Hrun & Hstep).
  exists st'. split; [|exact Hstep].
  unfold processTemplates, bind at 1, update_scope at 1, modify. exact Hrun.
Qed.


Lemma forEach_app {S A} (l1 l2 : list A) (f : A -> M S unit) s :
  forEach (l1 ++ l2) f s =
  match forEach l1 f s with
  | Ret _ s1 => forEach l2 f s1
  | Exn e s1 => Exn e s1
  | Diverge => Diverge
  end.
Proof.
  revert s. induction l1 as [|x l1 IH]; intros s; simpl; [done|].
  unfold bind. destruct (f x s) as [[] s1|e s1|]; [apply IH | done | done].
Qed.

Lemma log_prefix_run st0 : run_invariant (fun st => st_log st0 `prefix_of` st_log st).
Proof. intros st st' H Hl _ _. by rewrite Hl. Qed.

(** The lookup of one template that no tracked file and no directory has,
    as the body of a loop makes it. *)
Lemma lookup_missing fuel name templateDirs outDir force st tracker :
  existingRef name (scope_templates (st_scope st)) = Val (None, tracker) ->
  findTemplate name templateDirs (st_fs st) (st_cwd st) = Val None ->
  exists st',
    (processTemplate (S fuel) name templateDirs outDir force false >> ret tt) st = Ret tt st' /\
    st_log st' = st_log st ++ [(error, "Missing template " +:+ name)].
Proof.
  intros Href Hfind. unfold bind.
  rewrite (processTemplate_missing_template fuel name templateDirs outDir force false st
             tracker Href Hfind).
  eexists. split; [reflexivity | done].
Qed.

(** C1, amended. The template of an entity is looked up like any other
    template, not as an ignorable one. For a property that declares
    [$entities] and no [$templates], and for each of its entities, wherever
    it stands in the list: when the entities before it have been processed
    and neither a tracked file nor a directory has the synthesized name
    [<entityName>Entity-<type>], the orchestrator reports
    [Missing template <name>] as an error and goes on with the entities
    after it, which only add to the feedback. The same holds for each entry
    of an explicit [$templates] list. For a whole run in which none of the
    templates of the schema is found, the error of each entity of such a
    property is reported once more for each locale. *)
Theorem missing_entity_template_is_reported fuel templateDirs outDir force :
  (forall path prop0 st before entity after st1 tracker,
     let prop := property_schema path prop0 st in
     let name := entityTemplate (hd "" (split_colon entity)) (st_scope st1) in
     prop_entities prop = Some (before ++ entity :: after) ->
     prop_templates prop = None ->
     processTemplates_entityTemplates (processTemplate (S fuel)) templateDirs outDir force
       before st = Ret tt st1 ->
     existingRef name (scope_templates (st_scope st1)) = Val (None, tracker) ->
     findTemplate name templateDirs (st_fs st1) (st_cwd st1) = Val None ->
     exists st2,
       processTemplates_entityTemplates (processTemplate (S fuel)) templateDirs outDir force
         (before ++ [entity]) st = Ret tt st2 /\
       st_log st2 = st_log st1 ++ [(error, "Missing template " +:+ name)] /\
       processTemplates_entities (processTemplate (S fuel)) templateDirs outDir force
         path prop0 st =
       processTemplates_entityTemplates (processTemplate (S fuel)) templateDirs outDir force
         after st2 /\
       match processTemplates_entities (processTemplate (S fuel)) templateDirs outDir force
               path prop0 st with
       | Ret _ st' => st_log st2 `prefix_of` st_log st'
       | Exn _ _ => False
       | Diverge => True
       end) /\
  (forall path prop0 st before template after st1 tracker,
     let prop := property_schema path prop0 st in
     let lookups templates :=
       forEach templates (fun template =>
         processTemplate (S fuel) template templateDirs outDir force false >> ret tt) in
     prop_templates prop = Some (before ++ template :: after) ->
     lookups before
       (set_scope (set_scope_type (prop_type prop) (set_scope_property path (st_scope st))) st)
     = Ret tt st1 ->
     existingRef template (scope_templates (st_scope st1)) = Val (None, tracker) ->
     findTemplate template templateDirs (st_fs st1) (st_cwd st1) = Val None ->
     exists st2,
       st_log st2 = st_log st1 ++ [(error, "Missing template " +:+ template)] /\
       processTemplates_templates (processTemplate (S fuel)) templateDirs outDir force
         path prop0 st = lookups after st2 /\
       match processTemplates_templates (processTemplate (S fuel)) templateDirs outDir force
               path prop0 st with
       | Ret _ st' => st_log st2 `prefix_of` st_log st'
       | Exn _ _ => False
       | Diverge => True
       end) /\
  (forall locales st path prop entities entity,
     let sc := st_scope st in
     let schema := scope_schema sc in
     let name :=
       entityTemplate (hd "" (split_colon entity))
         (set_scope_type (prop_type prop) (set_scope_property path sc)) in
     Forall (fun name => findTemplate name templateDirs (st_fs st) (st_cwd st) = Val None)
       (schema_names sc schema) ->
     lookup_property path schema = Some prop ->
     prop_entities prop = Some entities ->
     prop_templates prop = None ->
     entity ∈ entities ->
     inherited (substring1 (path_extname name)) = false ->
     exists st',
       processTemplates (S fuel) templateDirs locales outDir force st = Ret tt st' /\
       occurrences (error, "Missing template " +:+ name) (st_log st) + length locales
       <= occurrences (error, "Missing template " +:+ name) (st_log st')).
Proof.
  split; [|split].
  - intros path prop0 st before entity after st1 tracker prop name
      Hentities Htemplates Hbefore Href Hfind.
    set (loop := processTemplates_entityTemplates (processTemplate (S fuel)) templateDirs
                   outDir force).
    assert (Hbody : exists st2,
              loop [entity] st1 = Ret tt st2 /\
              st_log st2 = st_log st1 ++ [(error, "Missing template " +:+ name)]).
    { destruct (lookup_missing fuel name templateDirs outDir force
                  (set_scope (set_scope_role (split_colon entity !! 1) (st_scope st1)) st1)
                  tracker Href Hfind) as (st2 & Hrun & Hlog).
      exists st2. split; [|exact Hlog].
      unfold loop, processTemplates_entityTemplates. cbn [forEach].
      unfold bind at 1. unfold bind at 1. unfold update_scope at 1, modify.
      unfold bind at 1. unfold get at 1.
      change (entityTemplate (hd "" (split_colon entity))
                (st_scope (set_scope (set_scope_role (split_colon entity !! 1) (st_scope st1))
                             st1))) with name.
      by rewrite Hrun. }
    destruct Hbody as (st2 & Hbody & Hlog). exists st2.
    assert (Hsnoc : loop (before ++ [entity]) st = Ret tt st2).
    { unfold loop, processTemplates_entityTemplates in *. rewrite forEach_app.
      by rewrite Hbefore. }
    assert (Hall : processTemplates_entities (processTemplate (S fuel)) templateDirs outDir
                     force path prop0 st = loop after st2).
    { unfold processTemplates_entities, bind at 1, get. fold prop.
      rewrite Hentities, Htemplates.
      change (before ++ entity :: after) with (before ++ [entity] ++ after).
      rewrite app_assoc.
      unfold loop, processTemplates_entityTemplates in *. rewrite forEach_app.
      by rewrite Hsnoc. }
    split; [exact Hsnoc|]. split; [exact Hlog|]. split; [exact Hall|].
    rewrite Hall.
    exact (hoare_entityTemplates _ (log_prefix_stable st2) (log_prefix_run st2) (S fuel)
             templateDirs outDir force after st2 (reflexivity _)).
  - intros path prop0 st before template after st1 tracker prop lookups
      Htemplates Hbefore Href Hfind.
    destruct (lookup_missing fuel template templateDirs outDir force st1 tracker Href Hfind)
      as (st2 & Hrun & Hlog).
    exists st2. split; [exact Hlog|].
    assert (Hall : processTemplates_templates (processTemplate (S fuel)) templateDirs outDir
                     force path prop0 st = lookups after st2).
    { unfold processTemplates_templates, bind at 1, get. fold prop. rewrite Htemplates.
      unfold bind at 1. unfold update_scope at 1, modify.
      unfold bind at 1. unfold update_scope at 1, modify.
      change (before ++ template :: after) with (before ++ [template] ++ after).
      rewrite forEach_app.
      change (forEach before _ _) with
        (lookups before
           (set_scope (set_scope_type (prop_type prop) (set_scope_property path (st_scope st)))
              st)).
      rewrite Hbefore. cbn [forEach app]. unfold bind at 1. by rewrite Hrun. }
    split; [exact Hall|]. rewrite Hall.
    exact (hoare_forEach_E (fun st => st_log st2 `prefix_of` st_log st) (fun _ => False) after
             _ (fun t => hoare_call _ (log_prefix_stable st2) (S fuel) t templateDirs outDir
                           force false)
             st2 (reflexivity _)).
  - intros locales st path prop entities entity sc schema name
      Hnone Hprop Hentities Htemplates Hentity Hinh.
    destruct (processTemplates_nothing_found fuel templateDirs locales outDir force st Hnone)
      as (st' & Hrun & Hlog & _).
    exists st'. split; [exact Hrun|]. fold sc schema in Hlog.
    rewrite Hlog, occurrences_app.
    assert (Hreport : (error, "Missing template " +:+ name) ∈ schema_report sc schema).
    { unfold schema_report. apply elem_of_app. left.
      apply list_elem_of_In, in_flat_map. exists (path, prop).
      assert (Hstored : stored schema (path, prop) = prop).
      { unfold stored. simpl. by rewrite Hprop. }
      split.
      - unfold lookup_property in Hprop.
        destruct (List.find _ _) as [[k v]|] eqn:Hf; [|done].
        injection Hprop as <-. apply find_some in Hf as [Hin Hk].
        simpl in Hk. apply String.eqb_eq in Hk. by subst k.
      - apply list_elem_of_In. unfold property_report. rewrite Hstored, Hentities.
        apply elem_of_app. right. unfold property_entityTemplates.
        rewrite Hentities, Htemplates. rewrite map_map.
        apply list_elem_of_fmap. exists entity. split; [|done].
        unfold lookup_report. subst name. cbn [fst]. by rewrite Hinh. }
    pose proof (occurrences_flat_map (error, "Missing template " +:+ name)
                  (fun _ : string => schema_report sc schema) locales 1
                  (fun _ _ => occurrences_elem _ _ Hreport)).
    lia.
Qed.

(** C9, amended. For each property the orchestrator first processes the
    templates of the property and then reads its [$entities]. If there are
    none by then, it reports exactly one error and does nothing else,
    whether or not the property declares [$templates]; if there are some,
    declared by the schema or attached by a template, it reports no such
    error: it processes the entity templates when the property has no
    [$templates], and does nothing when it has. Over a whole run, every
    locale adds one such error for each property of the schema that ends
    without [$entities]; when none of the templates of the schema is found,
    the run reports, locale after locale and property after property, the
    missing templates of the property followed by this one error if the
    property has no [$entities] and by its missing entity templates if it
    has [$entities] and no [$templates]; and the locales are processed one
    after the other, in the tracker that the locales before have left. *)
Theorem processTemplates_entities_reports_missing templateDirs outDir force :
  (forall self path prop0 st,
     let prop := property_schema path prop0 st in
     (prop_entities prop = None ->
      processTemplates_entities self templateDirs outDir force path prop0 st =
      Ret tt (set_log (st_log st ++ [entity_error path]) st)) /\
     (forall entities,
        prop_entities prop = Some entities ->
        processTemplates_entities self templateDirs outDir force path prop0 st =
        match prop_templates prop with
        | Some _ => Ret tt st
        | None => processTemplates_entityTemplates self templateDirs outDir force entities st
        end) /\
     (forall st0,
        processTemplates_templates self templateDirs outDir force path prop0 st0 = Ret tt st ->
        processTemplates_property self templateDirs outDir force path prop0 st0 =
        processTemplates_entities self templateDirs outDir force path prop0 st)) /\
  (forall fuel locales st path,
     is_Some (lookup_property path (scope_schema (st_scope st))) ->
     match processTemplates fuel templateDirs locales outDir force st with
     | Ret _ st' =>
         lacks_entities path st' ->
         occurrences (entity_error path) (st_log st) + length locales
         <= occurrences (entity_error path) (st_log st')
     | Exn _ _ => False
     | Diverge => True
     end) /\
  (forall fuel locales st,
     let sc := st_scope st in
     let schema := scope_schema sc in
     Forall (fun name => findTemplate name templateDirs (st_fs st) (st_cwd st) = Val None)
       (schema_names sc schema) ->
     exists st',
       processTemplates (S fuel) templateDirs locales outDir force st = Ret tt st' /\
       st_log st' = st_log st ++ flat_map (fun _ => schema_report sc schema) locales /\
       scope_schema (st_scope st') = schema) /\
  (forall fuel locales locale st,
     processTemplates fuel templateDirs (locales ++ [locale]) outDir force st =
     match processTemplates fuel templateDirs locales outDir force st with
     | Ret _ st1 => processTemplates_locale fuel templateDirs outDir force locale st1
     | Exn e st1 => Exn e st1
     | Diverge => Diverge
     end).
Proof.
  split; [|split; [|split]].
  - intros self path prop0 st prop. split; [|split].
    + intros Hnone. unfold processTemplates_entities, bind, get.
      fold prop. rewrite Hnone. done.
    + intros entities Hsome. unfold processTemplates_entities, bind, get.
      fold prop. rewrite Hsome. by destruct (prop_templates prop).
    + intros st0 Hrun. unfold processTemplates_property, bind. by rewrite Hrun.
  - intros fuel locales st path. apply processTemplates_reports_each_locale.
  - intros fuel locales st sc schema Hnone.
    destruct (processTemplates_nothing_found fuel templateDirs locales outDir force st Hnone)
      as (st' & Hrun & Hlog & _ & _ & Hschema & _).
    exists st'. split; [exact Hrun|]. split; [exact Hlog | exact Hschema].
  - intros fuel locales locale st.
    change (processTemplates fuel templateDirs (locales ++ [locale]) outDir force st)
      with (forEach (locales ++ [locale]) (processTemplates_locale fuel templateDirs outDir force)
              (set_scope (set_scope_templates ∅ (st_scope st)) st)).
    change (processTemplates fuel templateDirs locales outDir force st)
      with (forEach locales (processTemplates_locale fuel templateDirs outDir force)
              (set_scope (set_scope_templates ∅ (st_scope st)) st)).
    rewrite forEach_app.
    destruct (forEach locales _ _) as [[] st1|e st1|]; [|done|done].
    cbn [forEach]. unfold bind, ret.
    by destruct (processTemplates_locale fuel templateDirs outDir force locale st1) as [[] ?|? ?|].
Qed.

End OrchestrationRuns.

Section MaterializerSteps.
Context `{P : Platform}.


Lemma set_scope_same st : set_scope (st_scope st) st = st.
Proof. by destruct st. Qed.

Lemma set_cwd_same st : set_cwd (st_cwd st) st = st.
Proof. by destruct st. Qed.

Lemma set_scope_templates_same sc : set_scope_templates (scope_templates sc) sc = sc.
Proof. by destruct sc. Qed.

(** X7. When the tracker holds a file whose [fullName] is the template
    name, [processTemplate] returns the path of that file under the output
    directory and changes nothing: no lookup in the template directories,
    no feedback, no write. *)
Theorem processTemplate_reuses_tracked_file
    fuel templateName templateDirs outDir force ignorable st ref tracker :
  existingRef templateName (scope_templates (st_scope st)) = Val (Some ref, tracker) ->
  processTemplate (S fuel) templateName templateDirs outDir force ignorable st =
  Ret (path_join outDir (relative ref)) st.
Proof.
  intros Href.
  destruct (existingRef_tracker_spec templateName (scope_templates (st_scope st)) _ _ Href)
    as (_ & _ & _ & Hsame & _ & _ & Hfound).
  destruct (Hfound ref eq_refl) as [_ [arr [Harr _]]].
  specialize (Hsame (ex_intro _ arr Harr)). subst tracker.
  simpl. unfold processTemplate_call, tryFinally, tryCatch, processTemplate_try, bind, onState.
  simpl. rewrite Href. simpl.
  by rewrite set_scope_templates_same, set_scope_same, set_cwd_same.
Qed.

(** X8. A template that is found but empty, an empty file or an [.lg] file
    with none of the sections [template], [entities] and [templates],
    produces nothing: once the lookup in the tracker has returned without
    finding the name, [processTemplate] returns the empty path, reports
    nothing even when the lookup is not ignorable, and only the empty array
    of [existingRef] may have been added to the tracker. *)
Theorem processTemplate_ignores_empty_template
    fuel templateName templateDirs outDir force ignorable st tracker template :
  existingRef templateName (scope_templates (st_scope st)) = Val (None, tracker) ->
  findTemplate templateName templateDirs (st_fs st) (st_cwd st) = Val (Some template) ->
  template = TText "" \/
  (exists f, template = TLG f /\
             has_section f "template" = false /\
             has_section f "entities" = false /\
             has_section f "templates" = false) ->
  processTemplate (S fuel) templateName templateDirs outDir force ignorable st =
  Ret "" (set_scope (set_scope_templates tracker (st_scope st)) st).
Proof.
  intros Href Hfind Hempty. simpl.
  unfold processTemplate_call, tryFinally, tryCatch, processTemplate_try, bind, onState.
  simpl. rewrite Href. simpl.
  unfold findTemplateM, bind, get, liftOutcome. simpl. rewrite Hfind. simpl.
  destruct Hempty as [->|(f & -> & Ht & He & Hs)]; simpl.
  - by destruct st.
  - rewrite Ht. unfold processTemplate_entities, processTemplate_templates.
    rewrite He, Hs. simpl. by destruct st.
Qed.

(** X9. When [addEntry] refuses the claim on the output path, because a
    file of that name is tracked already, the output step does nothing but
    set [outPath]: no feedback, no write, no change of the tracker, with or
    without [force]. *)
Theorem processTemplate_output_refused_claim
    template templateName templateDirs outDir force st st' outPath0 filename :
  processTemplate_filename template templateName st = Ret filename st' ->
  addEntry (path_join outDir filename) outDir (scope_templates (st_scope st)) = Val None ->
  processTemplate_output template templateName templateDirs outDir force
    {| fr_state := st; fr_outPath := outPath0 |} =
  Ret tt {| fr_state := st; fr_outPath := path_join outDir filename |}.
Proof.
  intros Hname Hclaim.
  assert (st' = st) as ->.
  { revert Hname.
    unfold processTemplate_filename, evaluateTemplate, bind, get, liftOutcome, ret, throw.
    destruct template as [s|f]; [by intros [= _ <-]|].
    destruct (has_section f "filename"); [|by intros [= _ <-]].
    destruct (lg_evaluateTemplate _ _ _ _ _) as [[s|l|]|e]; try done. by intros [= _ <-]. }
  unfold processTemplate_output, bind, onState. simpl. rewrite Hname. simpl.
  rewrite Hclaim. done.
Qed.

Lemma processTemplate_result_scope template st result st' :
  processTemplate_result template st = Ret result st' -> st_scope st' = st_scope st.
Proof.
  intros Hrun. pose proof (io_only_result template st st (io_step_refl st)) as Hio.
  rewrite Hrun in Hio. by destruct Hio.
Qed.

(** The write branch of the output step, followed to its end. *)
Lemma processTemplate_output_written
    template templateName templateDirs outDir force st st' outPath0 filename ref
    result st2 existing fs1 fs2 :
  processTemplate_filename template templateName st = Ret filename st' ->
  let outPath := path_join outDir filename in
  let data :=
    match existing with
    | Some (TText s) => if String.eqb s "" then result else DText s
    | Some (TLG g) => DObject g
    | None => result
    end in
  addEntry outPath outDir (scope_templates (st_scope st)) = Val (Some ref) ->
  force || negb (fs_pathExists (st_fs st) (st_cwd st) outPath) = true ->
  processTemplate_result template
    (set_log (st_log st ++ [(info, "Generating " +:+ outPath)]) st) = Ret result st2 ->
  findTemplate filename templateDirs (st_fs st2) (st_cwd st2) = Val existing ->
  fs_ensureDir (st_fs st2) (st_cwd st2) (path_dirname outPath) = Val fs1 ->
  fs_writeFile fs1 (st_cwd st2) outPath data = Val fs2 ->
  exists arr,
    scope_templates (st_scope st) !! substring1 (path_extname outPath) = Some arr /\
    processTemplate_output template templateName templateDirs outDir force
      {| fr_state := st; fr_outPath := outPath0 |} =
    Ret tt
      {| fr_state := push_ref (substring1 (path_extname outPath)) arr ref (set_fs fs2 st2);
         fr_outPath := outPath |}.
Proof.
  intros Hname outPath data Hclaim Hgo Hresult Hfind Hdir Hwrite.
  pose proof (processTemplate_filename_pure _ _ _ _ _ Hname) as ->.
  pose proof (processTemplate_result_scope _ _ _ _ Hresult) as Hscope.
  cbn [st_scope set_log] in Hscope.
  assert (exists arr, scope_templates (st_scope st) !! substring1 (path_extname outPath) = Some arr)
    as [arr Harr].
  { revert Hclaim. unfold addEntry.
    destruct (_ !! _); [by eexists | by destruct (inherited _)]. }
  exists arr. split; [done|].
  unfold processTemplate_output, bind, onState. cbn [fr_state fr_outPath].
  rewrite Hname. simpl.
  fold outPath. rewrite Hclaim. simpl. rewrite Hgo. simpl.
  unfold say, modify, feedback. cbn [fr_state fr_outPath]. rewrite Hresult.
  cbn [fr_state fr_outPath].
  unfold findTemplateM, bind, get, liftOutcome. cbn [fr_state fr_outPath].
  rewrite Hfind. simpl.
  rewrite Hdir. simpl. fold data. rewrite Hwrite. simpl.
  unfold pushRef, bind, get. simpl. rewrite Hscope, Harr. simpl.
  unfold push_ref. cbn [st_scope set_fs]. rewrite Hscope. done.
Qed.

(** X10. A constant file whose claim succeeds, with [force] set or no file
    at the output path, and without an override of the output name in the
    template directories: once the directory is there and the write
    succeeds, the text of the template has been written to the output
    path, [Generating <path>] has been reported, and the file reference has
    been pushed on the array of the extension of the output path. *)
Theorem processTemplate_output_writes_constant
    text templateName templateDirs outDir force st st' outPath0 filename ref fs1 fs2 :
  processTemplate_filename (TText text) templateName st = Ret filename st' ->
  let outPath := path_join outDir filename in
  addEntry outPath outDir (scope_templates (st_scope st)) = Val (Some ref) ->
  force || negb (fs_pathExists (st_fs st) (st_cwd st) outPath) = true ->
  findTemplate filename templateDirs (st_fs st) (st_cwd st) = Val None ->
  fs_ensureDir (st_fs st) (st_cwd st) (path_dirname outPath) = Val fs1 ->
  fs_writeFile fs1 (st_cwd st) outPath (DText text) = Val fs2 ->
  exists arr,
    scope_templates (st_scope st) !! substring1 (path_extname outPath) = Some arr /\
    processTemplate_output (TText text) templateName templateDirs outDir force
      {| fr_state := st; fr_outPath := outPath0 |} =
    Ret tt
      {| fr_state :=
           push_ref (substring1 (path_extname outPath)) arr ref
             (set_fs fs2 (set_log (st_log st ++ [(info, "Generating " +:+ outPath)]) st));
         fr_outPath := outPath |}.
Proof.
  intros Hname outPath Hclaim Hgo Hfind Hdir Hwrite.
  exact (processTemplate_output_written (TText text) templateName templateDirs outDir force
           st st' outPath0 filename ref (DText text) _ None fs1 fs2 Hname Hclaim Hgo eq_refl
           Hfind Hdir Hwrite).
Qed.

(** X11. Whatever the template being processed is, a constant file or an
    [.lg] file with a [template] section, and whatever its body evaluated
    to: when the lookup of the name of the output file itself in the
    template directories, made once the body has been evaluated, finds a
    non-empty file or an [.lg] file, that is what is written to the output
    path, not the body of the template. *)
Theorem processTemplate_output_override_wins
    template override templateName templateDirs outDir force st st' outPath0 filename ref
    result st2 fs1 fs2 :
  processTemplate_filename template templateName st = Ret filename st' ->
  let outPath := path_join outDir filename in
  addEntry outPath outDir (scope_templates (st_scope st)) = Val (Some ref) ->
  force || negb (fs_pathExists (st_fs st) (st_cwd st) outPath) = true ->
  processTemplate_result template
    (set_log (st_log st ++ [(info, "Generating " +:+ outPath)]) st) = Ret result st2 ->
  findTemplate filename templateDirs (st_fs st2) (st_cwd st2) = Val (Some override) ->
  template_truthy override = true ->
  fs_ensureDir (st_fs st2) (st_cwd st2) (path_dirname outPath) = Val fs1 ->
  fs_writeFile fs1 (st_cwd st2) outPath (written override) = Val fs2 ->
  exists arr,
    scope_templates (st_scope st) !! substring1 (path_extname outPath) = Some arr /\
    processTemplate_output template templateName templateDirs outDir force
      {| fr_state := st; fr_outPath := outPath0 |} =
    Ret tt
      {| fr_state := push_ref (substring1 (path_extname outPath)) arr ref (set_fs fs2 st2);
         fr_outPath := outPath |}.
Proof.
  intros Hname outPath Hclaim Hgo Hresult Hfind Htruthy Hdir Hwrite.
  apply (processTemplate_output_written template templateName templateDirs outDir force st st'
           outPath0 filename ref result st2 (Some override) fs1 fs2 Hname Hclaim Hgo Hresult
           Hfind Hdir).
  destruct override as [s|g]; [|exact Hwrite].
  simpl in Htruthy. apply negb_true_iff in Htruthy. by rewrite Htruthy.
Qed.

End MaterializerSteps.

Section ExpanderShape.
Context `{P : Platform}.


Lemma log_grows_ret {A} (a : A) : log_grows (ret a).
Proof. intros log. simpl. reflexivity. Qed.

Lemma log_grows_throw {A} e : log_grows (A := A) (throw e).
Proof. intros log. simpl. reflexivity. Qed.

Lemma log_grows_bind {A B} (m : M Log A) (k : A -> M Log B) :
  log_grows m -> (forall a, log_grows (k a)) -> log_grows (bind m k).
Proof.
  intros Hm Hk log. unfold bind. specialize (Hm log).
  destruct (m log) as [a l1|e l1|]; [|done|done].
  specialize (Hk a l1). destruct (k a l1); try done; by etrans.
Qed.

Lemma log_grows_expression expr schema scope missingIsError :
  log_grows (expandSchema_expression expr schema scope missingIsError).
Proof.
  intros log.
  unfold expandSchema_expression, tryCatch, bind, liftOutcome, throw, ret, modify, feedback.
  destruct (expr_parse expr) as [parsed|e]; [|by apply prefix_app_r].
  destruct (expr_tryEvaluate parsed scope) as [[v err]|e]; [|by apply prefix_app_r].
  simpl. destruct (no_error err && truthy v); [reflexivity|].
  destruct missingIsError; simpl; [by apply prefix_app_r | reflexivity].
Qed.

Lemma log_grows_array (expand : Json -> M Log Json) items :
  Forall (fun v => log_grows (expand v)) items ->
  forall acc, log_grows (expandSchema_array expand items acc).
Proof.
  induction 1 as [|v items Hv _ IH]; intros acc; simpl; [apply log_grows_ret|].
  apply log_grows_bind; [done | intros a; apply IH].
Qed.

Lemma log_grows_object (expand : string -> Json -> M Log Json) entries :
  Forall (fun kv => log_grows (expand kv.1 kv.2)) entries ->
  forall acc, log_grows (expandSchema_object expand entries acc).
Proof.
  induction 1 as [|[k v] entries Hv _ IH]; intros acc; simpl; [apply log_grows_ret|].
  apply log_grows_bind; [done | intros a; apply IH].
Qed.

Lemma expandSchema_log_grows schema scope path inProperties missingIsError :
  log_grows (expandSchema schema scope path inProperties missingIsError).
Proof.
  revert scope path inProperties.
  induction schema as [| b | n | s | items IH | entries IH] using Json_nested_ind;
    intros scope path inProperties; simpl.
  - apply log_grows_throw.
  - apply log_grows_ret.
  - apply log_grows_ret.
  - destruct (startsWith "${" s); [apply log_grows_expression | apply log_grows_ret].
  - apply log_grows_array. eapply Forall_impl; [exact IH|]. intros v Hv. apply Hv.
  - apply log_grows_object. eapply Forall_impl; [exact IH|]. intros kv Hkv. apply Hkv.
Qed.

Lemma distinct_keys_app_drop (acc : list (string * Json)) kv rest :
  distinct_keys (acc ++ kv :: rest) = true -> distinct_keys (acc ++ rest) = true.
Proof.
  induction acc as [|[k v] acc IH]; simpl.
  - destruct kv. by intros [_ ?]%andb_true_iff.
  - intros [Hk Hrest]%andb_true_iff. apply andb_true_iff. split; [|by apply IH].
    apply negb_true_iff in Hk. apply negb_true_iff.
    rewrite existsb_app in Hk |- *. simpl in Hk.
    apply orb_false_iff in Hk as [H1 H2]. apply orb_false_iff in H2 as [_ H2].
    by rewrite H1, H2.
Qed.

Lemma distinct_keys_app_snoc (acc : list (string * Json)) k v v' rest :
  distinct_keys (acc ++ (k, v) :: rest) = true ->
  distinct_keys ((acc ++ [(k, v')]) ++ rest) = true.
Proof.
  rewrite <- app_assoc. simpl.
  induction acc as [|[k0 v0] acc IH]; simpl; [done|].
  intros [Hk Hrest]%andb_true_iff. apply andb_true_iff. split; [|by apply IH].
  apply negb_true_iff in Hk. apply negb_true_iff.
  rewrite existsb_app in Hk |- *. done.
Qed.

Lemma expandSchema_array_length (expand : Json -> M Log Json) items :
  forall acc log v log',
    expandSchema_array expand items acc log = Ret v log' ->
    exists items', v = JArr (acc ++ items') /\ length items' = length items.
Proof.
  induction items as [|x items IH]; intros acc log v log'; simpl.
  - intros [= <- _]. exists []. by rewrite app_nil_r.
  - unfold bind. destruct (expand x log) as [x' l1|e l1|]; [|done|done].
    intros Hrun. destruct (IH _ _ _ _ Hrun) as [items' [-> Hlen]].
    exists (x' :: items'). rewrite <- app_assoc. simpl. by rewrite Hlen.
Qed.

Lemma expandSchema_object_keys (expand : string -> Json -> M Log Json) entries :
  forall acc log v log',
    expandSchema_object expand entries acc log = Ret v log' ->
    distinct_keys (acc ++ entries) = true ->
    exists entries',
      v = JObj (acc ++ entries') /\
      map fst entries' = List.filter assignable (map fst entries).
Proof.
  induction entries as [|[k x] entries IH]; intros acc log v log'; simpl.
  - intros [= <- _] _. exists []. by rewrite app_nil_r.
  - unfold bind. destruct (expand k x log) as [x' l1|e l1|]; [|done|done].
    intros Hrun Hd. destruct (assignable k) eqn:Hk.
    + rewrite (obj_set_fresh k x' acc) in Hrun by (done || by eapply distinct_keys_app_fresh).
      destruct (IH _ _ _ _ Hrun) as [entries' [-> Hkeys]].
      * by eapply distinct_keys_app_snoc.
      * exists ((k, x') :: entries'). rewrite <- app_assoc. simpl. by rewrite Hkeys.
    + rewrite (obj_set_proto k x' acc) in Hrun by done.
      apply (IH _ _ _ _ Hrun). by eapply distinct_keys_app_drop.
Qed.

(** X18. What [expandSchema] returns has the shape of what it was given:
    for an array, an array of the same length; for an object whose property
    names are distinct, an object with the property names of the input in
    the same order, except that a property named [__proto__] is left out,
    since assigning to that name stores no property; and a boolean, a number
    or a string that does not start with [${] comes back as it is, with
    nothing reported. *)
Theorem expandSchema_keeps_shape scope path inProperties missingIsError log v log' :
  (forall items,
     expandSchema (JArr items) scope path inProperties missingIsError log = Ret v log' ->
     exists items', v = JArr items' /\ length items' = length items) /\
  (forall entries,
     distinct_keys entries = true ->
     expandSchema (JObj entries) scope path inProperties missingIsError log = Ret v log' ->
     exists entries',
       v = JObj entries' /\
       map fst entries' = List.filter assignable (map fst entries)) /\
  (forall schema,
     match schema with
     | JBool _ | JNum _ => True
     | JStr s => startsWith "${" s = false
     | _ => False
     end ->
     expandSchema schema scope path inProperties missingIsError log = Ret schema log).
Proof.
  split; [|split].
  - intros items Hrun. simpl in Hrun.
    by apply expandSchema_array_length in Hrun.
  - intros entries Hd Hrun. simpl in Hrun.
    by apply expandSchema_object_keys in Hrun.
  - intros [| b | n | s | |] H; try done. simpl. by rewrite H.
Qed.

(** X19. When the expression of a string node parses and evaluates, the
    node is replaced by the value, as it is and with nothing reported, if
    there is no error and the value is truthy; a falsy value ([0], [false],
    the empty string, [null]) is never substituted: the string stays. *)
Theorem expandSchema_substitutes_truthy_value
    s scope path inProperties missingIsError log parsed value err :
  startsWith "${" s = true ->
  expr_parse (js_substring s 2 (Z.of_nat (String.length s) - 1)) = Val parsed ->
  expr_tryEvaluate parsed scope = Val (value, err) ->
  (no_error err && truthy value = true ->
   expandSchema (JStr s) scope path inProperties missingIsError log = Ret value log) /\
  (truthy value = false ->
   exists log',
     expandSchema (JStr s) scope path inProperties missingIsError log = Ret (JStr s) log').
Proof.
  intros Hpre Hparse Heval. simpl. rewrite Hpre.
  unfold expandSchema_expression, tryCatch, bind, liftOutcome, throw, ret, modify.
  rewrite Hparse, Heval. simpl. split.
  - by intros ->.
  - intros ->. rewrite andb_false_r. destruct missingIsError; eauto.
Qed.

(** X21. The last step of [generate] never throws. When the strict
    expansion of the schema throws, the message is reported as an error and
    [writeFile] is not called; otherwise the outcome is that of [writeFile]
    on the printed schema. *)
Theorem generate_finalSchema_reports_expansion_failure schema prefix outDir force st :
  (exists st', generate_finalSchema schema prefix outDir force st = Ret tt st') /\
  match expandSchema schema (st_scope st) "" false true (st_log st) with
  | Ret expanded log =>
      generate_finalSchema schema prefix outDir force st =
      writeFile (path_join outDir (prefix +:+ ".schema.dialog")) (JSON_stringify expanded)
        force (set_log log st)
  | Exn e log =>
      generate_finalSchema schema prefix outDir force st =
      Ret tt (set_log (log ++ [(error, e)]) st)
  | Diverge => False
  end.
Proof.
  pose proof (expandSchema_log_grows schema (st_scope st) "" false true
                (st_log st)) as Hlog.
  unfold generate_finalSchema, tryCatch, bind, get, onLog.
  destruct (expandSchema schema (st_scope st) "" false true (st_log st))
    as [expanded log|e log|]; [| |done].
  - rewrite writeFile_cases. split; [by eexists | done].
  - split; [by eexists | done].
Qed.

(** X22. Printing again what has been printed changes nothing: the tree
    that [JSON.stringify] prints with the replacer of [generate] is printed
    as it is by the same call. *)
Theorem final_schema_text_is_stable expanded tree :
  stringify_tree (KName "") expanded = Some tree ->
  stringify_tree (KName "") tree = Some tree /\
  JSON_stringify tree = JSON_stringify expanded.
Proof.
  rewrite stringify_tree_without_keys. simpl. intros [= <-].
  assert (stringify_tree (KName "") (without_keys replaced_keys expanded) =
          Some (without_keys replaced_keys expanded)) as Hsame.
  { rewrite stringify_tree_without_keys. simpl. f_equal.
    apply without_keys_unmentioned. intros k Hk. by apply without_keys_not_mentioned. }
  split; [exact Hsame|].
  unfold JSON_stringify. rewrite Hsame. by rewrite stringify_tree_without_keys.
Qed.

End ExpanderShape.

Section StandardDirectories.
Context `{P : Platform}.

Lemma expandStandard_loop_map dirname dirs expanded :
  expandStandard_loop dirname dirs expanded =
  expanded ++
  map (fun dir => if String.eqb dir "standard" then path_join dirname "../../templates" else dir)
      dirs.
Proof.
  revert expanded. induction dirs as [|dir dirs IH]; intros expanded; simpl.
  - by rewrite app_nil_r.
  - rewrite IH. by rewrite <- app_assoc.
Qed.

(** X20. [expandStandard] keeps the number and the order of the
    directories, replaces each [standard] by the built-in templates
    directory and leaves every other entry as it is; unless that directory
    is itself called [standard], no [standard] is left in the result and
    expanding again changes nothing. *)
Theorem expandStandard_replaces_standard dirname dirs :
  let builtin := path_join dirname "../../templates" in
  expandStandard dirname dirs =
    map (fun dir => if String.eqb dir "standard" then builtin else dir) dirs /\
  length (expandStandard dirname dirs) = length dirs /\
  (builtin <> "standard" ->
   ("standard" ∉ expandStandard dirname dirs) /\
   expandStandard dirname (expandStandard dirname dirs) = expandStandard dirname dirs).
Proof.
  intros builtin.
  assert (Hmap : expandStandard dirname dirs =
                 map (fun dir => if String.eqb dir "standard" then builtin else dir) dirs).
  { unfold expandStandard. by rewrite expandStandard_loop_map. }
  split; [exact Hmap|]. split; [by rewrite Hmap, length_map|].
  intros Hne.
  assert (Hnot : "standard" ∉ expandStandard dirname dirs).
  { rewrite Hmap. intros Hin. apply list_elem_of_In, in_map_iff in Hin as [dir [Hdir _]].
    destruct (String.eqb dir "standard") eqn:Heq; [congruence|].
    apply String.eqb_neq in Heq. congruence. }
  split; [exact Hnot|].
  unfold expandStandard at 1. rewrite expandStandard_loop_map. simpl.
  rewrite <- (map_id (expandStandard dirname dirs)) at 2.
  apply map_ext_in. intros dir Hin.
  destruct (String.eqb dir "standard") eqn:Heq; [|done].
  apply String.eqb_eq in Heq as ->. by apply list_elem_of_In in Hin.
Qed.

End StandardDirectories.

(** ** The further properties on example runs *)

Section MoreExampleRuns.
Import Examples MoreExamples.
#[local] Existing Instance Toy.platform.

(** C1: the amended statement on property [amount], whose first entity has
    a template in [/std] and whose second has none; on property [manual],
    whose second template no directory holds; and on a run over two locales
    with [/user] as the only directory, which holds no template of property
    [confirmation]. *)
Lemma missing_entity_template_is_reported_witness :
  processTemplates_templates (processTemplate 1) ["/std"] "/out" false "amount" amount
    (state files (schema_of [("amount", amount)])) = Ret tt state_amount /\
  (exists st2,
     processTemplates_entities (processTemplate 1) ["/std"] "/out" false "amount" amount
       state_amount = Ret tt st2 /\
     st_log st2 =
       [(info, "Generating /out/bot-number");
        (info, "Generating /out/bot-numberEntity-number");
        (error, "Missing template unitEntity-number")]) /\
  (exists st2,
     processTemplates_templates (processTemplate 1) ["/std"] "/out" false "manual" manual
       (state files (schema_of [("manual", manual)])) = Ret tt st2 /\
     st_log st2 =
       [(info, "Generating /out/bot-readme.md"); (error, "Missing template faq.md")]) /\
  (exists st',
     processTemplates 1 ["/user"] ["en-us"; "fr-fr"] "/out" false
       (state files (schema_of [("confirmation", confirmation)])) = Ret tt st' /\
     2 <= occurrences (error, "Missing template stringEntity-string") (st_log st')).
Proof.
  split; [vm_compute; reflexivity|]. split; [|split].
  - edestruct (proj1 (missing_entity_template_is_reported (P := Toy.platform) 0 ["/std"] "/out"
                        false)
                 "amount" amount state_amount ["number"] "unit:measure" [])
      as (st2 & _ & Hlog & Hrun & _).
    + reflexivity.
    + reflexivity.
    + vm_compute. reflexivity.
    + vm_compute. reflexivity.
    + vm_compute. reflexivity.
    + exists st2. split; [exact Hrun | exact Hlog].
  - edestruct (proj1 (proj2 (missing_entity_template_is_reported (P := Toy.platform) 0 ["/std"]
                               "/out" false))
                 "manual" manual (state files (schema_of [("manual", manual)]))
                 ["readme.md"] "faq.md" [])
      as (st2 & Hlog & Hrun & _).
    + reflexivity.
    + vm_compute. reflexivity.
    + vm_compute. reflexivity.
    + vm_compute. reflexivity.
    + exists st2. split; [exact Hrun | exact Hlog].
  - apply (proj2 (proj2 (missing_entity_template_is_reported (P := Toy.platform) 0 ["/user"]
                           "/out" false))
             ["en-us"; "fr-fr"] (state files (schema_of [("confirmation", confirmation)]))
             "confirmation" confirmation ["confirmationEntity"] "confirmationEntity").
    + repeat constructor.
    + reflexivity.
    + reflexivity.
    + reflexivity.
    + apply list_elem_of_here.
    + reflexivity.
Defined.

(** C2: the same template once more in the same run. For two locales and
    [/out/bot-readme.md] on disk, the file is claimed and skipped in each
    locale: the claim of the first locale has left no trace. *)
Lemma skipped_file_is_claimed_again :
  st_log <$> final (processTemplates 2 ["/std"] ["en-us"; "fr-fr"] "/out" false
                      (state files_after_run (schema_of [("notes", notes)]))) =
  Some [(warning, "Skipping already existing /out/bot-readme.md");
        (error, "notes does not have $entities defined in schema or template.");
        (warning, "Skipping already existing /out/bot-readme.md");
        (error, "notes does not have $entities defined in schema or template.")].
Proof. vm_compute. reflexivity. Qed.

(** C9: the amended statement, on [notes] once its templates are processed;
    on a run over two locales for [notes], whose template is found and
    written; and on a run over two locales in which no template is found,
    for [confirmation], which declares its entities, and [quantity], which
    has none. *)
Lemma processTemplates_entities_reports_missing_witness :
  processTemplates_templates (processTemplate 1) ["/std"] "/out" false "notes" notes
    (state files (schema_of [("notes", notes)])) = Ret tt state_notes /\
  processTemplates_entities (processTemplate 1) ["/std"] "/out" false "notes" notes state_notes =
    Ret tt (set_log
              [(info, "Generating /out/bot-readme.md");
               (error, "notes does not have $entities defined in schema or template.")]
              state_notes) /\
  (exists st',
     final (processTemplates 2 ["/std"] ["en-us"; "fr-fr"] "/out" false
              (state files (schema_of [("notes", notes)]))) = Some st' /\
     2 <= occurrences (entity_error "notes") (st_log st')) /\
  (exists st',
     processTemplates 1 ["/user"] ["en-us"; "fr-fr"] "/out" false
       (state files (schema_of [("confirmation", confirmation); ("quantity", quantity)]))
     = Ret tt st' /\
     st_log st' =
       [(error, "Missing template string");
        (error, "Missing template stringEntity-string");
        (error, "Missing template number");
        (error, "quantity does not have $entities defined in schema or template.");
        (error, "Missing template string");
        (error, "Missing template stringEntity-string");
        (error, "Missing template number");
        (error, "quantity does not have $entities defined in schema or template.")]).
Proof.
  split; [vm_compute; reflexivity|]. split; [|split].
  - apply (proj1 (proj1 (processTemplates_entities_reports_missing (P := Toy.platform)
                           ["/std"] "/out" false)
                    (processTemplate 1) "notes" notes state_notes)).
    reflexivity.
  - pose proof (proj1 (proj2 (processTemplates_entities_reports_missing (P := Toy.platform)
                                ["/std"] "/out" false))
                  2 ["en-us"; "fr-fr"] (state files (schema_of [("notes", notes)])) "notes")
      as H.
    destruct (processTemplates 2 ["/std"] ["en-us"; "fr-fr"] "/out" false
                (state files (schema_of [("notes", notes)]))) as [[] st'|e st'|] eqn:Hrun.
    + exists st'. split; [reflexivity|]. apply H; [by eexists|].
      vm_compute in Hrun. injection Hrun as <-. exists notes. split; reflexivity.
    + vm_compute in Hrun. discriminate Hrun.
    + vm_compute in Hrun. discriminate Hrun.
  - edestruct (proj1 (proj2 (proj2 (processTemplates_entities_reports_missing
                                      (P := Toy.platform) ["/user"] "/out" false)))
                 0 ["en-us"; "fr-fr"]
                 (state files (schema_of [("confirmation", confirmation);
                                          ("quantity", quantity)])))
      as (st' & Hrun & Hlog & _).
    + repeat constructor.
    + exists st'. split; [exact Hrun | exact Hlog].
Defined.

(** X1 on [/out/bot-readme.md], which exists: the file is not touched. *)
Lemma writeFile_never_throws_witness :
  exists st',
    writeFile "/out/bot-readme.md" (DText "new text") false
      (state files_after_run (schema_of [])) = Ret tt st' /\
    st_fs st' = files_after_run /\
    st_log st' = [(warning, "Skipping already existing /out/bot-readme.md")].
Proof.
  destruct (writeFile_never_throws (P := Toy.platform) "/out/bot-readme.md"
              (DText "new text") false (state files_after_run (schema_of [])))
    as [st' (Hrun & _ & _ & _ & Hskip)].
  exists st'. split; [exact Hrun|]. apply Hskip; reflexivity.
Defined.

(** X2 on a write of [undefined], which the file system refuses. *)
Lemma writeFile_reports_failure_witness :
  writeFile "/out/bot.schema.dialog" DUndefined false (state files (schema_of [])) =
  Ret tt
    (set_log
       [(info, "Generating /out/bot.schema.dialog");
        (error, "The data argument must be of type string or an instance of Buffer")]
       (state files (schema_of []))).
Proof.
  apply (proj1 (proj2 (writeFile_reports_failure (P := Toy.platform)
                         "/out/bot.schema.dialog" DUndefined false
                         (state files (schema_of [])) eq_refl))
           files); reflexivity.
Defined.

(** X3 on an empty tracker, for a name with the extension [md] and for one
    whose extension names an inherited property. *)
Lemma existingRef_prepares_tracker_witness :
  (exists found tracker',
     existingRef "readme.md" ∅ = Val (found, tracker') /\
     tracker' !! "md" = Some [] /\ found = None) /\
  existingRef "x.constructor" ∅ = Raise "arr.find is not a function".
Proof.
  split.
  - destruct (proj1 (existingRef_prepares_tracker (P := Toy.platform) "readme.md" ∅))
      as (found & tracker' & Hrun & _ & _ & _ & Hnew & _).
    + right. reflexivity.
    + exists found, tracker'. split; [exact Hrun|]. apply Hnew. reflexivity.
  - apply (proj2 (existingRef_prepares_tracker (P := Toy.platform) "x.constructor" ∅));
      reflexivity.
Defined.

(** X4: looking up [readme.md] prepares the claim of [/out/bot-readme.md];
    the lookup of [x.constructor] throws, and so does the claim of
    [/out/bot-x.constructor]. *)
Lemma addEntry_after_existingRef_witness :
  (exists claim, addEntry "/out/bot-readme.md" "/out" {["md" := []]} = Val claim) /\
  addEntry "/out/bot-x.constructor" "/out" ∅ = Raise "arr.find is not a function".
Proof.
  split.
  - exact (addEntry_after_existingRef (P := Toy.platform) "readme.md" "/out/bot-readme.md"
             "/out" ∅ eq_refl).
  - exact (addEntry_after_existingRef (P := Toy.platform) "x.constructor"
             "/out/bot-x.constructor" "/out" ∅ eq_refl).
Defined.
(** X5: once [/out/bot-readme.md] is tracked, [/out/en-us/bot-readme.md] is
    refused. *)
Lemma addEntry_refuses_after_push_witness :
  exists arr,
    ({["md" := []]} : Tracker) !! "md" = Some arr /\
    addEntry "/out/en-us/bot-readme.md" "/out"
      (<["md" := arr ++ [readme_ref]]> {["md" := []]}) = Val None.
Proof.
  apply (addEntry_refuses_after_push (P := Toy.platform) "/out/bot-readme.md" "/out"
           "/out/en-us/bot-readme.md" "/out" {["md" := []]} readme_ref).
  - vm_compute. reflexivity.
  - reflexivity.
  - reflexivity.
Defined.

(** X6: once [/out/bot-readme.md] is tracked, it is found under
    [bot-readme.md]. *)
Lemma existingRef_finds_pushed_witness :
  exists arr found,
    ({["md" := []]} : Tracker) !! "md" = Some arr /\
    existingRef "bot-readme.md" (<["md" := arr ++ [readme_ref]]> {["md" := []]})
      = Val (Some found, <["md" := arr ++ [readme_ref]]> {["md" := []]}) /\
    fullName found = "bot-readme.md".
Proof.
  destruct (existingRef_finds_pushed (P := Toy.platform) "/out/bot-readme.md" "/out"
              {["md" := []]} readme_ref)
    as (arr & found & Harr & Hfound & Hname & _).
  - vm_compute. reflexivity.
  - reflexivity.
  - exists arr, found. split; [exact Harr|]. split; [exact Hfound | exact Hname].
Defined.

(** X7: [bot-readme.md] has been generated for property [notes]; asking
    for it by that name returns its path and changes nothing. *)
Lemma processTemplate_reuses_tracked_file_witness :
  processTemplate 1 "bot-readme.md" ["/std"] "/out" false false state_notes =
  Ret "/out/bot-readme.md" state_notes.
Proof.
  eapply (processTemplate_reuses_tracked_file (P := Toy.platform) 0 "bot-readme.md" ["/std"]
            "/out" false false state_notes readme_ref).
  vm_compute. reflexivity.
Defined.

(** X8 on the empty file [silent.md]. *)
Lemma processTemplate_ignores_empty_template_witness :
  exists st',
    processTemplate 1 "silent.md" ["/std"] "/out" false false state_more = Ret "" st' /\
    st_log st' = [] /\ st_fs st' = files_more.
Proof.
  eexists. split.
  - eapply (processTemplate_ignores_empty_template (P := Toy.platform) 0 "silent.md" ["/std"]
              "/out" false false state_more _ (TText "")).
    + vm_compute. reflexivity.
    + reflexivity.
    + by left.
  - split; reflexivity.
Defined.
(** X9: for property [notes] the file [bot-readme.md] is tracked; the
    template [readme.md] is not written a second time, even when forced. *)
Lemma processTemplate_output_refused_claim_witness :
  processTemplate_output (TText "standard readme") "readme.md" ["/std"] "/out" true
    {| fr_state := state_notes; fr_outPath := "" |} =
  Ret tt {| fr_state := state_notes; fr_outPath := "/out/bot-readme.md" |}.
Proof.
  apply (processTemplate_output_refused_claim (P := Toy.platform) (TText "standard readme")
           "readme.md" ["/std"] "/out" true state_notes state_notes "" "bot-readme.md").
  - reflexivity.
  - vm_compute. reflexivity.
Defined.

(** X10: [readme.md] of [/std] is written to [/out/bot-readme.md]. *)
Lemma processTemplate_output_writes_constant_witness :
  exists arr,
    scope_templates (st_scope state_more) !! "md" = Some arr /\
    processTemplate_output (TText "standard readme") "readme.md" ["/std"] "/out" false
      {| fr_state := state_more; fr_outPath := "" |} =
    Ret tt
      {| fr_state :=
           push_ref "md" arr readme_ref
             (set_fs (("/out/bot-readme.md", Toy.Text "standard readme") :: files_more)
                (set_log [(info, "Generating /out/bot-readme.md")] state_more));
         fr_outPath := "/out/bot-readme.md" |}.
Proof.
  apply (processTemplate_output_writes_constant (P := Toy.platform) "standard readme"
           "readme.md" ["/std"] "/out" false state_more state_more "" "bot-readme.md"
           readme_ref files_more
           (("/out/bot-readme.md", Toy.Text "standard readme") :: files_more)).
  - reflexivity.
  - vm_compute. reflexivity.
  - reflexivity.
  - reflexivity.
  - reflexivity.
  - reflexivity.
Defined.

(** X11 on the template [string], an [.lg] file: [/user] holds a
    hand-written [bot-string], which is what is written, not the text the
    template evaluates to. *)
Lemma processTemplate_output_override_wins_witness :
  exists final,
    processTemplate_output string_template "string" ["/std"; "/user"] "/out" false
      {| fr_state := state_plain; fr_outPath := "" |} =
    Ret tt {| fr_state := final; fr_outPath := "/out/bot-string" |} /\
    st_fs final = ("/out/bot-string", Toy.Text "hand written") :: st_fs state_plain /\
    st_cwd final = "/std".
Proof.
  edestruct (processTemplate_output_override_wins (P := Toy.platform) string_template
               (TText "hand written") "string" ["/std"; "/user"] "/out" false
               state_plain state_plain "" "bot-string")
    as (arr & Harr & Hrun).
  - reflexivity.
  - vm_compute. reflexivity.
  - reflexivity.
  - vm_compute. reflexivity.
  - reflexivity.
  - reflexivity.
  - reflexivity.
  - reflexivity.
  - eexists. split; [exact Hrun|]. split; reflexivity.
Defined.
(** X13 on the template [number] of property [quantity], from an empty
    tracker. *)
Lemma processTemplate_keeps_names_distinct_witness :
  exists st',
    final (processTemplate 2 "number" ["/std"] "/out" false false
             (state files (schema_of [("quantity", quantity)]))) = Some st' /\
    names_distinct (scope_templates (st_scope st')).
Proof.
  pose proof (processTemplate_keeps_names_distinct (P := Toy.platform) 2 "number" ["/std"]
                "/out" false false (state files (schema_of [("quantity", quantity)]))) as H.
  destruct (processTemplate 2 "number" ["/std"] "/out" false false
              (state files (schema_of [("quantity", quantity)]))) as [out st'|e st'|] eqn:Hrun.
  - exists st'. split; [reflexivity|]. apply H. intros ext arr Hl.
    simpl in Hl. by rewrite lookup_empty in Hl.
  - vm_compute in Hrun. discriminate Hrun.
  - vm_compute in Hrun. discriminate Hrun.
Defined.

(** X16 on property [confirmation], which declares its entities. *)
Lemma processTemplates_only_attaches_entities_witness :
  exists st',
    final (processTemplates 2 ["/std"] ["en-us"] "/out" false
             (state files (schema_of [("confirmation", confirmation)]))) = Some st' /\
    lookup_property "confirmation" (scope_schema (st_scope st')) = Some confirmation.
Proof.
  pose proof (processTemplates_only_attaches_entities (P := Toy.platform) 2 ["/std"] ["en-us"]
                "/out" false (state files (schema_of [("confirmation", confirmation)]))) as H.
  destruct (processTemplates 2 ["/std"] ["en-us"] "/out" false
              (state files (schema_of [("confirmation", confirmation)])))
    as [[] st'|e st'|] eqn:Hrun.
  - exists st'. split; [reflexivity|]. apply H; [reflexivity | by eexists].
  - vm_compute in Hrun. discriminate Hrun.
  - vm_compute in Hrun. discriminate Hrun.
Defined.

(** X18 on [proto_tree]: the expression is replaced and the property
    [__proto__] is gone. *)
Lemma expandSchema_keeps_shape_witness :
  expandSchema proto_tree (scope (schema_of [])) "" false true [] =
    Ret (JObj [("type", JStr "en-us"); ("title", JStr "T")]) [] /\
  exists entries',
    JObj [("type", JStr "en-us"); ("title", JStr "T")] = JObj entries' /\
    map fst entries' = ["type"; "title"].
Proof.
  split; [reflexivity|].
  apply (proj1 (proj2 (expandSchema_keeps_shape (P := Toy.platform) (scope (schema_of [])) ""
                         false true [] (JObj [("type", JStr "en-us"); ("title", JStr "T")]) []))
           [("type", JStr "${locale}"); ("__proto__", JObj [("x", JNum 1)]);
            ("title", JStr "T")]);
    reflexivity.
Defined.

(** X19 on [${locale}], which evaluates to the locale, and on [${missing}],
    which evaluates to nothing. *)
Lemma expandSchema_substitutes_truthy_value_witness :
  expandSchema (JStr "${locale}") (scope (schema_of [])) "" false true [] =
    Ret (JStr "en-us") [] /\
  exists log',
    expandSchema (JStr "${missing}") (scope (schema_of [])) "" false false [] =
    Ret (JStr "${missing}") log'.
Proof.
  split.
  - apply (proj1 (expandSchema_substitutes_truthy_value (P := Toy.platform) "${locale}"
                    (scope (schema_of [])) "" false true [] "locale" (JStr "en-us") None
                    eq_refl eq_refl eq_refl)).
    reflexivity.
  - apply (proj2 (expandSchema_substitutes_truthy_value (P := Toy.platform) "${missing}"
                    (scope (schema_of [])) "" false false [] "missing" JNull None
                    eq_refl eq_refl eq_refl)).
    reflexivity.
Defined.

(** X20 on the default directories and a user directory. *)
Lemma expandStandard_replaces_standard_witness :
  ("standard" ∉ expandStandard "/cli/lib/library" ["standard"; "/user"]) /\
  expandStandard "/cli/lib/library" (expandStandard "/cli/lib/library" ["standard"; "/user"]) =
    expandStandard "/cli/lib/library" ["standard"; "/user"].
Proof.
  apply (proj2 (proj2 (expandStandard_replaces_standard (P := Toy.platform)
                         "/cli/lib/library" ["standard"; "/user"]))).
  done.
Defined.

(** X22 on [metadata_tree]. *)
Lemma final_schema_text_is_stable_witness :
  stringify_tree (KName "") (without_keys replaced_keys metadata_tree) =
    Some (without_keys replaced_keys metadata_tree).
Proof.
  apply (proj1 (final_schema_text_is_stable (P := Toy.platform) metadata_tree
                  (without_keys replaced_keys metadata_tree) eq_refl)).
Defined.

End MoreExampleRuns.
